(** * wicked: object-model registry, extension dispatch and configuration

    A shallow embedding of [src/dbus-objects/model.c] and [src/config.c].

    C pointers to the statically allocated class and service descriptors are
    addresses; the descriptors are read through a [memory].  Functions that
    write through a pointer return the updated structure.  A function that
    can end the process ([ni_assert]) or whose loop follows pointers returns
    an [outcome].  The file system, the connection and the process table that
    the extension dispatcher works on are the fields of a [world]; what the
    configuration parser takes from the rest of the library is the class
    [externals]. *)

From Stdlib Require Import ZArith String Ascii List Lia Bool.
From stdpp Require Import base decidable option list strings gmap.

Set Warnings "-register-all".

Local Open Scope string_scope.
Local Open Scope list_scope.

(** ** Outcomes of a call *)

Inductive outcome (A : Type) : Type :=
| Returns (a : A)            (* the function returns to its caller *)
| Aborts (assertion : string) (* ni_assert failed: the process is terminated *)
| OutOfFuel.                  (* the loop did not end within the given fuel *)

Arguments Returns {A} a.
Arguments Aborts {A} assertion.
Arguments OutOfFuel {A}.

Definition outcome_bind {A B} (m : outcome A) (k : A -> outcome B) : outcome B :=
  match m with
  | Returns a => k a
  | Aborts s => Aborts s
  | OutOfFuel => OutOfFuel
  end.

Declare Scope outcome_scope.
Delimit Scope outcome_scope with outcome.
Notation "'do' x <- m ; k" := (outcome_bind m (fun x => k))
  (at level 10, x name, m at level 100, k at level 200) : outcome_scope.
Notation "'do' ' p <- m ; k" := (outcome_bind m (fun x => match x with p => k end))
  (at level 10, p pattern, m at level 100, k at level 200) : outcome_scope.

Definition aborts {A} (o : outcome A) : Prop := exists why, o = Aborts why.

(** [!strcmp(a, b)] *)
Definition streq (a b : string) : bool := String.eqb a b.

(** * model.c *)

Module Model.

Local Open Scope outcome_scope.

(** ** Descriptors and the memory that holds them *)

(** Address of a [const ni_dbus_class_t]; a nullable pointer is an [option]. *)
Definition class_ptr := positive.
(** Address of a [const ni_dbus_service_t]. *)
Definition service_ptr := positive.

Record ni_dbus_class_t := {
  class_name : option string;        (* const char *name, NULL is None *)
  superclass : option class_ptr
}.

Record ni_dbus_method_t := {
  method_name : string;
  handler : bool;                    (* a built-in handler is set *)
  async_handler : bool;
  async_completion : bool
}.

Record ni_dbus_service_t := {
  service_name : option string;
  compatible : option class_ptr;
  methods : list ni_dbus_method_t
}.

Record memory := {
  class_at : class_ptr -> ni_dbus_class_t;
  service_at : service_ptr -> ni_dbus_service_t
}.

Record ni_dbus_object_t := {
  path : string;
  object_class : option class_ptr;       (* object->class *)
  interfaces : list service_ptr          (* services attached, oldest first *)
}.

(** Messages given to [ni_error]. *)
Inductive log_entry :=
| error_object_without_class (func path : string)
| error_unable_to_marshal (func : string)
| error_unable_to_create_tempfile (func : string)
| error_unable_to_store_message (func : string) (len : nat)
| error_executing_method (func method : string)
| error_unable_to_send_reply.

(** ** The registries *)

Definition NI_DBUS_SERVICES_MAX : nat := 128.
Definition NI_DBUS_CLASSES_MAX : nat := 1024.

(** The [count] used entries of each table, in index order; [count] is the
    length of the list. *)
Record registries := {
  ni_objectmodel_class_registry : list class_ptr;
  ni_objectmodel_service_registry : list service_ptr
}.

(** Modelled from the spec: the macro [ni_assert] is not part of these
    sources; a failed assertion is fatal and terminates the process. *)
Definition ni_assert (cond : bool) (text : string) : outcome unit :=
  if cond then Returns tt else Aborts text.

Definition ni_objectmodel_register_service (service : service_ptr)
    (reg : list service_ptr) : outcome (list service_ptr) :=
  let index := length reg in
  do _ <- ni_assert (index <? NI_DBUS_SERVICES_MAX)%nat "index < NI_DBUS_SERVICES_MAX";
  Returns (reg ++ [service]).

Definition ni_objectmodel_register_class (mem : memory) (class : class_ptr)
    (reg : list class_ptr) : outcome (list class_ptr) :=
  let index := length reg in
  do _ <- ni_assert (bool_decide (is_Some (class_name (class_at mem class)))) "class->name";
  do _ <- ni_assert (index <? NI_DBUS_CLASSES_MAX)%nat "index < NI_DBUS_CLASSES_MAX";
  Returns (reg ++ [class]).

(** How a lookup that compares names with [strcmp] ends.  [strcmp] reads
    through both of its arguments: handed a NULL pointer its behaviour is
    undefined, and the process dies of the null dereference. *)
Inductive lookup (A : Type) : Type :=
| Found (a : A)          (* the entry is returned *)
| NotFound               (* NULL is returned *)
| NullDereference.       (* strcmp was called with a NULL name *)

Arguments Found {A} a.
Arguments NotFound {A}.
Arguments NullDereference {A}.

(** No name is asserted when a service is registered, so [service->name] may
    be NULL when [strcmp(service->name, name)] is reached. *)
Fixpoint ni_objectmodel_service_by_name (mem : memory) (reg : list service_ptr)
    (name : string) : lookup service_ptr :=
  match reg with
  | [] => NotFound
  | service :: rest =>
      match service_name (service_at mem service) with
      | None => NullDereference
      | Some service_name =>
          if streq service_name name
          then Found service
          else ni_objectmodel_service_by_name mem rest name
      end
  end.

Fixpoint ni_objectmodel_service_by_class (mem : memory) (reg : list service_ptr)
    (class : option class_ptr) : option service_ptr :=
  match reg with
  | [] => None
  | service :: rest =>
      if bool_decide (compatible (service_at mem service) = class)
      then Some service
      else ni_objectmodel_service_by_class mem rest class
  end.

(** Every class in the table has a name, [ni_objectmodel_register_class]
    asserts it, so [strcmp(class->name, name)] is not handed a NULL name
    here. *)
Fixpoint ni_objectmodel_get_class (mem : memory) (reg : list class_ptr)
    (name : string) : option class_ptr :=
  match reg with
  | [] => None
  | class :: rest =>
      if bool_decide (class_name (class_at mem class) = Some name)
      then Some class
      else ni_objectmodel_get_class mem rest name
  end.

(** ** Binding compatible interfaces *)

(** [ni_dbus_object_register_service] lives outside these sources; the
    attachment is recorded by appending the service to the object's list, so
    that a repeated attachment stays visible. *)
Definition ni_dbus_object_register_service (object : ni_dbus_object_t)
    (service : service_ptr) : ni_dbus_object_t :=
  {| path := path object;
     object_class := object_class object;
     interfaces := interfaces object ++ [service] |}.

(** The inner loop
    [for (class = object->class; class; class = class->superclass)]:
    one unit of fuel per class visited. *)
Fixpoint bind_walk_classes (fuel : nat) (mem : memory) (object : ni_dbus_object_t)
    (service : service_ptr) (class : option class_ptr) : outcome ni_dbus_object_t :=
  match class with
  | None => Returns object
  | Some c =>
      match fuel with
      | O => OutOfFuel
      | S fuel' =>
          if bool_decide (compatible (service_at mem service) = Some c)
          then Returns (ni_dbus_object_register_service object service)
          else bind_walk_classes fuel' mem object service (superclass (class_at mem c))
      end
  end.

(** The outer loop over [ni_objectmodel_service_registry.services]. *)
Fixpoint bind_each_service (fuel : nat) (mem : memory) (services : list service_ptr)
    (object : ni_dbus_object_t) : outcome ni_dbus_object_t :=
  match services with
  | [] => Returns object
  | service :: rest =>
      do object' <- bind_walk_classes fuel mem object service (object_class object);
      bind_each_service fuel mem rest object'
  end.

(** The debug trace [NI_TRACE_ENTER_ARGS] is not part of the log. *)
Definition ni_objectmodel_bind_compatible_interfaces (fuel : nat) (mem : memory)
    (reg : registries) (object : ni_dbus_object_t) (log : list log_entry)
    : outcome (bool * ni_dbus_object_t * list log_entry) :=
  match object_class object with
  | None =>
      Returns (false, object,
               log ++ [error_object_without_class
                         "ni_objectmodel_bind_compatible_interfaces" (path object)])
  | Some _ =>
      do object' <- bind_each_service fuel mem (ni_objectmodel_service_registry reg) object;
      Returns (true, object', log)
  end.

(** ** Extension calls *)

Definition DBUS_ERROR_FAILED := "org.freedesktop.DBus.Error.Failed".
Definition DBUS_ERROR_SERVICE_UNKNOWN := "org.freedesktop.DBus.Error.ServiceUnknown".

(** An incoming method call; [wire] is what [dbus_message_marshal] produces
    for it. *)
Record ni_dbus_message_t := {
  interface : string;
  member : string;
  wire : string
}.

(** A printf-style message: the format and its arguments. *)
Definition formatted : Type := string * list string.

Record DBusError := {
  error_name : string;
  error_message : formatted
}.

(** What is handed to the connection in answer to a call. *)
Inductive reply :=
| method_return (call : ni_dbus_message_t)
| error_reply (call : ni_dbus_message_t) (name : string) (message : formatted).

Record ni_process_t := { command : string }.

Record ni_process_instance_t := {
  process : ni_process_t;
  environ : list (string * string);
  status : Z                              (* exit code once the child is reaped *)
}.

Record ni_script_action_t := {
  action_name : string;
  action_process : option ni_process_t
}.

Record ni_extension_t := {
  extension_name : string;
  actions : list ni_script_action_t
}.

(** Outcomes of the collaborators the dispatcher relies on. *)
Record faults := {
  marshal_fails : bool;      (* dbus_message_marshal returns FALSE *)
  write_fails : bool;        (* ni_file_write returns < 0 *)
  run_fails : bool;          (* ni_dbus_async_server_call_run_command returns < 0 *)
  send_fails : bool          (* ni_dbus_connection_send_message returns < 0 *)
}.

Record world := {
  files : gmap string string;              (* the file system: path to contents *)
  outbox : list reply;                     (* messages handed to the connection *)
  running : list (ni_dbus_message_t * ni_process_instance_t);
  live_instances : nat;                    (* process instances not yet freed *)
  log : list log_entry;
  mkstemp_plan : list (option string)      (* what the next ni_mkstemp calls yield *)
}.

Definition set_files (f : gmap string string -> gmap string string) (w : world) : world :=
  {| files := f (files w); outbox := outbox w; running := running w;
     live_instances := live_instances w; log := log w;
     mkstemp_plan := mkstemp_plan w |}.

Definition set_plan (plan : list (option string)) (w : world) : world :=
  {| files := files w; outbox := outbox w; running := running w;
     live_instances := live_instances w; log := log w;
     mkstemp_plan := plan |}.

Definition ni_error (e : log_entry) (w : world) : world :=
  {| files := files w; outbox := outbox w; running := running w;
     live_instances := live_instances w; log := log w ++ [e];
     mkstemp_plan := mkstemp_plan w |}.

Definition hand_to_connection (r : reply) (w : world) : world :=
  {| files := files w; outbox := outbox w ++ [r]; running := running w;
     live_instances := live_instances w; log := log w;
     mkstemp_plan := mkstemp_plan w |}.

Definition set_live (n : nat) (w : world) : world :=
  {| files := files w; outbox := outbox w; running := running w;
     live_instances := n; log := log w;
     mkstemp_plan := mkstemp_plan w |}.

Definition start_running (call : ni_dbus_message_t) (p : ni_process_instance_t)
    (w : world) : world :=
  {| files := files w; outbox := outbox w; running := running w ++ [(call, p)];
     live_instances := live_instances w; log := log w;
     mkstemp_plan := mkstemp_plan w |}.

(** [unlink(path)] *)
Definition unlink (name : string) (w : world) : world :=
  set_files (delete name) w.

(** [ni_mkstemp(&tempname)]: creates a new, empty file under a name that was
    not in use, or fails. *)
Definition ni_mkstemp (w : world) : option string * world :=
  match mkstemp_plan w with
  | [] => (None, w)
  | None :: plan => (None, set_plan plan w)
  | Some name :: plan =>
      if bool_decide (is_Some (files w !! name))
      then (None, set_plan plan w)
      else (Some name, set_files (insert name "") (set_plan plan w))
  end.

Definition ni_dbus_connection_send_error (call : ni_dbus_message_t) (error : DBusError)
    (w : world) : world :=
  hand_to_connection (error_reply call (error_name error) (error_message error)) w.

Definition ni_process_instance_new (command : ni_process_t) (w : world)
    : ni_process_instance_t * world :=
  ({| process := command; environ := []; status := 0 |},
   set_live (S (live_instances w)) w).

Definition ni_process_instance_setenv (p : ni_process_instance_t) (name value : string)
    : ni_process_instance_t :=
  {| process := process p; environ := environ p ++ [(name, value)];
     status := status p |}.

Definition ni_process_instance_free (w : world) : world :=
  set_live (pred (live_instances w)) w.

(** Modelled from the spec: [ni_config_find_extension] and
    [ni_extension_script_find] are not part of these sources.  An extension
    is found by its name, an action by the first match of its name; an action
    without a command is not found. *)
Fixpoint ni_config_find_extension (config : list ni_extension_t) (name : string)
    : option ni_extension_t :=
  match config with
  | [] => None
  | ex :: rest =>
      if streq (extension_name ex) name then Some ex
      else ni_config_find_extension rest name
  end.

Fixpoint script_find (acts : list ni_script_action_t) (name : string)
    : option ni_process_t :=
  match acts with
  | [] => None
  | act :: rest =>
      if streq (action_name act) name then action_process act
      else script_find rest name
  end.

Definition ni_extension_script_find (extension : ni_extension_t) (name : string)
    : option ni_process_t :=
  script_find (actions extension) name.

(** Modelled from the spec: [ni_process_exit_status_okay] is not part of
    these sources; a zero exit status is success, any other is failure. *)
Definition ni_process_exit_status_okay (p : ni_process_instance_t) : bool :=
  (status p =? 0)%Z.

(** Write dbus message to a temporary file; the result is [tempname]. *)
Definition __ni_objectmodel_write_message (flt : faults) (msg : ni_dbus_message_t)
    (w : world) : option string * world :=
  let func := "__ni_objectmodel_write_message" in
  if marshal_fails flt then (None, ni_error (error_unable_to_marshal func) w)
  else
    match ni_mkstemp w with
    | (None, w1) => (None, ni_error (error_unable_to_create_tempfile func) w1)
    | (Some tempname, w1) =>
        if write_fails flt then
          (* unlink(tempname); ni_string_free(&tempname); tempname is NULL *)
          (None, unlink tempname
                   (ni_error (error_unable_to_store_message func
                                (String.length (wire msg))) w1))
        else (Some tempname, set_files (insert tempname (wire msg)) w1)
    end.

Definition __ni_objectmodel_empty_tempfile (w : world) : option string * world :=
  match ni_mkstemp w with
  | (None, w1) =>
      (None, ni_error (error_unable_to_create_tempfile "__ni_objectmodel_empty_tempfile") w1)
  | (Some tempname, w1) => (Some tempname, w1)
  end.

(** The code after the label [general_failure]; [tempname] is the value the
    local variable has when the label is reached. *)
Definition general_failure (method : ni_dbus_method_t) (call : ni_dbus_message_t)
    (tempname : option string) (w : world) : bool * world :=
  let error := {| error_name := DBUS_ERROR_FAILED;
                  error_message := ("%s - general failure when executing method",
                                    [method_name method]) |} in
  let w1 := ni_dbus_connection_send_error call error w in
  let w2 := ni_process_instance_free w1 in
  let w3 := match tempname with
            | Some name => unlink name w2
            | None => w2
            end in
  (false, w3).

Definition ni_objectmodel_extension_call (config : list ni_extension_t) (flt : faults)
    (object : ni_dbus_object_t) (method : ni_dbus_method_t)
    (call : ni_dbus_message_t) (w : world) : bool * world :=
  let func := "ni_objectmodel_extension_call" in
  match ni_config_find_extension config (interface call) with
  | None =>
      (false, ni_dbus_connection_send_error call
                {| error_name := DBUS_ERROR_SERVICE_UNKNOWN;
                   error_message := ("%s: no/unknown interface %s",
                                     [func; interface call]) |} w)
  | Some extension =>
  match ni_extension_script_find extension (method_name method) with
  | None =>
      (false, ni_dbus_connection_send_error call
                {| error_name := DBUS_ERROR_FAILED;
                   error_message := ("%s: no/unknown extension method %s",
                                     [func; method_name method]) |} w)
  | Some command =>
  (* Create an instance of this command *)
  let '(process, w) := ni_process_instance_new command w in
  (* Build the argument blob and store it in a file *)
  let '(tempname, w) := __ni_objectmodel_write_message flt call w in
  match tempname with
  | None => general_failure method call tempname w
  | Some name =>
  let process := ni_process_instance_setenv process "WICKED_ARGFILE" name in
  (* ni_string_free(&tempname) leaves tempname NULL; the next statement
     assigns it again *)
  (* Create empty reply for script return data *)
  let '(tempname, w) := __ni_objectmodel_empty_tempfile w in
  match tempname with
  | None => general_failure method call tempname w
  | Some name =>
  let process := ni_process_instance_setenv process "WICKED_RETFILE" name in
  (* ni_string_free(&tempname) *)
  (* Run the process *)
  if run_fails flt then
    let w := ni_error (error_executing_method func (method_name method)) w in
    let w := ni_dbus_connection_send_error call
               {| error_name := DBUS_ERROR_FAILED;
                  error_message := ("%s: error executing method %s",
                                    [func; method_name method]) |} w in
    (false, ni_process_instance_free w)
  else (true, start_running call process w)
  end end end end.

Definition ni_dbus_connection_send_message (flt : faults) (r : reply) (w : world)
    : Z * world :=
  (if send_fails flt then (-1)%Z else 0%Z, hand_to_connection r w).

Definition ni_objectmodel_extension_completion (flt : faults)
    (object : ni_dbus_object_t) (method : ni_dbus_method_t)
    (call : ni_dbus_message_t) (process : ni_process_instance_t) (w : world)
    : bool * world :=
  let reply :=
    if ni_process_exit_status_okay process
    then method_return call
    else error_reply call DBUS_ERROR_FAILED
           ("dbus extension script returns error", []) in
  let '(rc, w) := ni_dbus_connection_send_message flt reply w in
  let w := if (rc <? 0)%Z then ni_error error_unable_to_send_reply w else w in
  (true, w).

(** ** Binding extensions to methods *)





End Model.

(** * config.c *)

Module Config.

Local Open Scope Z_scope.

(** ** The XML tree handed over by the document reader *)

Inductive xml_node_t :=
| xml_node (name : string) (attrs : list (string * string))
           (cdata : option string) (children : list xml_node_t).

Definition node_name (n : xml_node_t) : string :=
  match n with xml_node name _ _ _ => name end.
Definition node_attrs (n : xml_node_t) : list (string * string) :=
  match n with xml_node _ attrs _ _ => attrs end.
Definition node_cdata (n : xml_node_t) : option string :=
  match n with xml_node _ _ cdata _ => cdata end.
Definition node_children (n : xml_node_t) : list xml_node_t :=
  match n with xml_node _ _ _ children => children end.

(** [xml_node_get_attr]: the value of the first attribute of that name. *)
Fixpoint get_attr (attrs : list (string * string)) (name : string) : option string :=
  match attrs with
  | [] => None
  | (k, v) :: rest => if streq k name then Some v else get_attr rest name
  end.

Definition xml_node_get_attr (node : xml_node_t) (name : string) : option string :=
  get_attr (node_attrs node) name.

(** [xml_node_get_child]: the first child of that name. *)
Fixpoint get_child (children : list xml_node_t) (name : string) : option xml_node_t :=
  match children with
  | [] => None
  | child :: rest => if streq (node_name child) name then Some child else get_child rest name
  end.

Definition xml_node_get_child (node : xml_node_t) (name : string) : option xml_node_t :=
  get_child (node_children node) name.

(** ** C integers and the libc conversions used by the parser *)

Definition UINT_MAX : Z := 4294967295.
Definition LONG_MAX : Z := 9223372036854775807.
Definition LONG_MIN : Z := -9223372036854775808.
Definition ULONG_MAX : Z := 18446744073709551615.

(** Conversion to [unsigned int]. *)
Definition to_uint (z : Z) : Z := z mod 2 ^ 32.

(** Conversion to [int]: wraps around modulo 2^32. *)
Definition to_int (z : Z) : Z := (z + 2 ^ 31) mod 2 ^ 32 - 2 ^ 31.

Definition isspace (c : ascii) : bool :=
  let n := Z.of_N (N_of_ascii c) in
  (n =? 32) || ((9 <=? n) && (n <=? 13)).

Definition digit_value (c : ascii) : option Z :=
  let n := Z.of_N (N_of_ascii c) in
  if (48 <=? n) && (n <=? 57) then Some (n - 48)
  else if (97 <=? n) && (n <=? 122) then Some (n - 97 + 10)
  else if (65 <=? n) && (n <=? 90) then Some (n - 65 + 10)
  else None.

Fixpoint skip_space (s : string) : string :=
  match s with
  | String c rest => if isspace c then skip_space rest else s
  | EmptyString => s
  end.

(** The optional sign: [true] for a minus. *)
Definition take_sign (s : string) : bool * string :=
  match s with
  | String "-" rest => (true, rest)
  | String "+" rest => (false, rest)
  | _ => (false, s)
  end.

Definition is_digit_of (base : Z) (c : ascii) : bool :=
  match digit_value c with
  | Some d => d <? base
  | None => false
  end.

(** Base 0: a [0x] or [0X] prefix followed by a hexadecimal digit selects
    base 16, another leading [0] base 8, anything else base 10. *)
Definition take_base (s : string) : Z * string :=
  match s with
  | String "0" (String x (String d rest)) =>
      if ((Ascii.eqb x "x") || (Ascii.eqb x "X")) && is_digit_of 16 d
      then (16, String d rest)
      else (8, s)
  | String "0" _ => (8, s)
  | _ => (10, s)
  end.

(** The value of the longest prefix of digits of the base. *)
Fixpoint take_digits (base : Z) (s : string) (acc : Z) : Z :=
  match s with
  | String c rest =>
      match digit_value c with
      | Some d => if d <? base then take_digits base rest (acc * base + d) else acc
      | None => acc
      end
  | EmptyString => acc
  end.

(** The magnitude and sign that [strtol(s, NULL, 0)] and
    [strtoul(s, NULL, 0)] read from [s]; 0 when there is no digit. *)
Definition scan_integer (s : string) : bool * Z :=
  let '(neg, s1) := take_sign (skip_space s) in
  let '(base, s2) := take_base s1 in
  (neg, take_digits base s2 0).

(** [strtol(s, NULL, 0)] with a 64-bit [long]: out-of-range values saturate. *)
Definition strtol (s : string) : Z :=
  let '(neg, m) := scan_integer s in
  let v := if neg then - m else m in
  Z.max LONG_MIN (Z.min LONG_MAX v).

(** [strtoul(s, NULL, 0)] with a 64-bit [unsigned long]. *)
Definition strtoul (s : string) : Z :=
  let '(neg, m) := scan_integer s in
  if ULONG_MAX <? m then ULONG_MAX
  else if neg then (- m) mod 2 ^ 64 else m.

(** ** What the parser takes from the rest of the library

    Types, constants and functions that [config.c] uses and that are declared
    elsewhere. *)
Class externals := {
  ni_sockaddr_t : Type;
  (* the address of a slot that calloc has zeroed *)
  sockaddr_zero : ni_sockaddr_t;
  (* int ni_address_parse(ni_sockaddr_t *, const char *, int af): the value
     returned and what the pointed-to address holds afterwards *)
  ni_address_parse : ni_sockaddr_t -> string -> Z -> Z * ni_sockaddr_t;
  NI_DHCP_SERVER_PREFERENCES_MAX : nat;
  ni_addrconf_name_to_update_target : string -> Z;
  ni_addrconf_name_to_type : string -> Z;
  ni_linktype_name_to_type : string -> Z;
  ni_system_update_capabilities : Z;
  NI_AF_MASK_IPV4 : Z;
  NI_AF_MASK_IPV6 : Z;
  xpath_format_t : Type;
  xpath_format_parse : string -> option xpath_format_t;
  ni_parse_int : string -> option Z;
  (* xml_document_read: the root node of the document, NULL is None *)
  xml_document_read : string -> option xml_node_t;
  (* ni_wicked_rest_lookup finds a node *)
  ni_wicked_rest_lookup : string -> bool
}.

Definition AF_UNSPEC : Z := 0.
Definition AF_INET : Z := 2.
Definition AF_INET6 : Z := 10.

(** Messages given to [ni_error], [error] and [ni_warn]. *)
Inductive log_entry :=
| warn_too_many_prefer_server
| error_unable_to_parse_prefer_server (ip : string)
| warn_weight_clamped (weight : Z)
| warn_unknown_update_target (name : string)
| error_extension_no_name (exclass : string)
| error_extension_no_type (exclass name : string)
| error_extension_type_not_recognized (exclass type : string)
| error_action_without_name
| error_environment_without_putenv
| error_bad_xpath (expr : string)
| error_parsing_configuration_file (filename : string)
| error_no_config_element (filename : string)
| warn_ignoring_api_extension (name : string).

(** How one iteration of a loop ends: with the next iteration, or by
    returning from the function. *)
Inductive flow (S : Type) : Type :=
| Next (s : S)
| Return (rc : Z) (s : S).
Arguments Next {S} s.
Arguments Return {S} rc s.

Section Parser.

Context {ext : externals}.

(** ** Update targets *)

(** One iteration of the loop of [ni_config_parse_update_targets]. *)
Definition update_target_child (update_mask : Z) (log : list log_entry)
    (child : xml_node_t) : Z * list log_entry :=
  if streq (node_name child) "all" then (UINT_MAX, log)           (* ~0 *)
  else if streq (node_name child) "none" then (0, log)
  else
    let target := ni_addrconf_name_to_update_target (node_name child) in
    if 0 <=? target then (to_uint (Z.lor update_mask (Z.shiftl 1 target)), log)
    else (update_mask, log ++ [warn_unknown_update_target (node_name child)]).

Fixpoint update_targets_loop (update_mask : Z) (log : list log_entry)
    (children : list xml_node_t) : Z * list log_entry :=
  match children with
  | [] => (update_mask, log)
  | child :: rest =>
      let '(update_mask, log) := update_target_child update_mask log child in
      update_targets_loop update_mask log rest
  end.

(** Returns the value returned, [*update_mask] and the log. *)
Definition ni_config_parse_update_targets (update_mask : Z) (log : list log_entry)
    (node : xml_node_t) : Z * Z * list log_entry :=
  let '(update_mask, log) := update_targets_loop update_mask log (node_children node) in
  (0, update_mask, log).

(** ** DHCP *)

Record ni_server_preference_t := {
  address : ni_sockaddr_t;
  weight : Z                       (* int *)
}.

Record ni_config_dhcp := {
  allow_update : Z;                (* unsigned int *)
  vendor_class : option string;
  lease_time : Z;                  (* unsigned int *)
  ignore_servers : list string;
  num_preferred_servers : nat;
  (* the array of NI_DHCP_SERVER_PREFERENCES_MAX slots *)
  preferred_server : list ni_server_preference_t
}.

Definition zero_preference : ni_server_preference_t :=
  {| address := sockaddr_zero; weight := 0 |}.

(** [dhcp->preferred_server[i]] *)
Definition slot (dhcp : ni_config_dhcp) (i : nat) : ni_server_preference_t :=
  default zero_preference (preferred_server dhcp !! i).

Definition set_slot (i : nat) (pref : ni_server_preference_t) (dhcp : ni_config_dhcp)
    : ni_config_dhcp :=
  {| allow_update := allow_update dhcp; vendor_class := vendor_class dhcp;
     lease_time := lease_time dhcp; ignore_servers := ignore_servers dhcp;
     num_preferred_servers := num_preferred_servers dhcp;
     preferred_server := <[i := pref]> (preferred_server dhcp) |}.

Definition set_num (n : nat) (dhcp : ni_config_dhcp) : ni_config_dhcp :=
  {| allow_update := allow_update dhcp; vendor_class := vendor_class dhcp;
     lease_time := lease_time dhcp; ignore_servers := ignore_servers dhcp;
     num_preferred_servers := n;
     preferred_server := preferred_server dhcp |}.

Definition set_weight (i : nat) (w : Z) (dhcp : ni_config_dhcp) : ni_config_dhcp :=
  set_slot i {| address := address (slot dhcp i); weight := w |} dhcp.

Definition set_address (i : nat) (a : ni_sockaddr_t) (dhcp : ni_config_dhcp)
    : ni_config_dhcp :=
  set_slot i {| address := a; weight := weight (slot dhcp i) |} dhcp.

(** The statements under [if ((attrval = xml_node_get_attr(child, "weight")) != NULL)],
    run after [pref->weight = 100]. *)
Definition assign_weight (i : nat) (attrval : string) (dhcp : ni_config_dhcp)
    (log : list log_entry) : ni_config_dhcp * list log_entry :=
  if streq attrval "always" then (set_weight i 100 dhcp, log)
  else if streq attrval "never" then (set_weight i (-1) dhcp, log)
  else
    let dhcp := set_weight i (to_int (strtol attrval)) dhcp in
    if 100 <? weight (slot dhcp i)
    then
      let dhcp := set_weight i 100 dhcp in
      (dhcp, log ++ [warn_weight_clamped (weight (slot dhcp i))])
    else (dhcp, log).

(** One iteration of the loop of [ni_config_parse_addrconf_dhcp]. *)
Definition dhcp_child (dhcp : ni_config_dhcp) (log : list log_entry)
    (child : xml_node_t) : flow (ni_config_dhcp * list log_entry) :=
  let name := node_name child in
  let dhcp :=
    if streq name "vendor-class" then
      {| allow_update := allow_update dhcp; vendor_class := node_cdata child;
         lease_time := lease_time dhcp; ignore_servers := ignore_servers dhcp;
         num_preferred_servers := num_preferred_servers dhcp;
         preferred_server := preferred_server dhcp |}
    else dhcp in
  let dhcp :=
    match (if streq name "lease-time" then node_cdata child else None) with
    | Some cdata =>
      {| allow_update := allow_update dhcp; vendor_class := vendor_class dhcp;
         lease_time := to_uint (strtoul cdata); ignore_servers := ignore_servers dhcp;
         num_preferred_servers := num_preferred_servers dhcp;
         preferred_server := preferred_server dhcp |}
    | None => dhcp
    end in
  let dhcp :=
    match (if streq name "ignore-server" then xml_node_get_attr child "ip" else None) with
    | Some attrval =>
      {| allow_update := allow_update dhcp; vendor_class := vendor_class dhcp;
         lease_time := lease_time dhcp; ignore_servers := ignore_servers dhcp ++ [attrval];
         num_preferred_servers := num_preferred_servers dhcp;
         preferred_server := preferred_server dhcp |}
    | None => dhcp
    end in
  let after_prefer (dhcp : ni_config_dhcp) (log : list log_entry) :=
    if streq name "allow-update" then
      let '(_, mask, log) := ni_config_parse_update_targets (allow_update dhcp) log child in
      Next ({| allow_update := mask; vendor_class := vendor_class dhcp;
               lease_time := lease_time dhcp; ignore_servers := ignore_servers dhcp;
               num_preferred_servers := num_preferred_servers dhcp;
               preferred_server := preferred_server dhcp |}, log)
    else Next (dhcp, log) in
  match (if streq name "prefer-server" then xml_node_get_attr child "ip" else None) with
  | Some attrval =>
      if (NI_DHCP_SERVER_PREFERENCES_MAX <=? num_preferred_servers dhcp)%nat
      then Next (dhcp, log ++ [warn_too_many_prefer_server])      (* continue *)
      else
        (* pref = &dhcp->preferred_server[dhcp->num_preferred_servers++] *)
        let pref := num_preferred_servers dhcp in
        let dhcp := set_num (S (num_preferred_servers dhcp)) dhcp in
        let '(rc, addr) := ni_address_parse (address (slot dhcp pref)) attrval AF_UNSPEC in
        let dhcp := set_address pref addr dhcp in
        if rc <? 0
        then Return (-1) (dhcp, log ++ [error_unable_to_parse_prefer_server attrval])
        else
          let dhcp := set_weight pref 100 dhcp in
          let '(dhcp, log) :=
            match xml_node_get_attr child "weight" with
            | Some attrval => assign_weight pref attrval dhcp log
            | None => (dhcp, log)
            end in
          after_prefer dhcp log
  | None => after_prefer dhcp log
  end.

Fixpoint dhcp_loop (dhcp : ni_config_dhcp) (log : list log_entry)
    (children : list xml_node_t) : Z * ni_config_dhcp * list log_entry :=
  match children with
  | [] => (0, dhcp, log)
  | child :: rest =>
      match dhcp_child dhcp log child with
      | Next (dhcp, log) => dhcp_loop dhcp log rest
      | Return rc (dhcp, log) => (rc, dhcp, log)
      end
  end.

(** Returns the value returned, [*dhcp] and the log. *)
Definition ni_config_parse_addrconf_dhcp (dhcp : ni_config_dhcp) (log : list log_entry)
    (node : xml_node_t) : Z * ni_config_dhcp * list log_entry :=
  dhcp_loop dhcp log (node_children node).

(** ** Address families and file locations *)

Record ni_afinfo_t := {
  family : Z;
  enabled : Z;
  forwarding : Z
}.

Record ni_config_fslocation_t := {
  fs_path : option string;
  fs_mode : Z
}.

Definition has_child (node : xml_node_t) (name : string) : bool :=
  bool_decide (is_Some (xml_node_get_child node name)).

Definition ni_config_parse_afinfo (afi : ni_afinfo_t) (afname : string)
    (node : xml_node_t) : Z * ni_afinfo_t :=
  match xml_node_get_child node afname with
  | None => (0, afi)          (* No config data for this address family *)
  | Some node =>
      let enabled' :=
        if has_child node "enabled" then 1
        else if has_child node "disabled" then 0
        else enabled afi in
      let forwarding' := if has_child node "forwarding" then 1 else forwarding afi in
      (0, {| family := family afi; enabled := enabled'; forwarding := forwarding' |})
  end.

Definition ni_config_parse_fslocation (fsloc : ni_config_fslocation_t) (name : string)
    (node : xml_node_t) : Z * ni_config_fslocation_t :=
  match xml_node_get_child node name with
  | None => (0, fsloc)
  | Some node =>
      let path' := match xml_node_get_attr node "path" with
                   | Some attrval => Some attrval
                   | None => fs_path fsloc
                   end in
      let mode' := match xml_node_get_attr node "mode" with
                   | Some attrval => default (fs_mode fsloc) (ni_parse_int attrval)
                   | None => fs_mode fsloc
                   end in
      (0, {| fs_path := path'; fs_mode := mode' |})
  end.

(** ** Extensions *)

Record ni_script_action_t := {
  action_name : string;
  action_command : option xpath_format_t
}.

Record ni_extension_t := {
  extension_name : string;
  extension_type : Z;
  supported_af : Z;                        (* unsigned int *)
  pid_file_path : option xpath_format_t;
  actions : list ni_script_action_t;
  environment : list xpath_format_t
}.

(** The extension that [ni_extension_new] allocates with calloc. *)
Definition ni_extension_new (name : string) (type : Z) : ni_extension_t :=
  {| extension_name := name; extension_type := type; supported_af := 0;
     pid_file_path := None; actions := []; environment := [] |}.

Definition set_supported_af (af : Z) (ex : ni_extension_t) : ni_extension_t :=
  {| extension_name := extension_name ex; extension_type := extension_type ex;
     supported_af := af; pid_file_path := pid_file_path ex;
     actions := actions ex; environment := environment ex |}.

Definition set_pid_file_path (p : option xpath_format_t) (ex : ni_extension_t)
    : ni_extension_t :=
  {| extension_name := extension_name ex; extension_type := extension_type ex;
     supported_af := supported_af ex; pid_file_path := p;
     actions := actions ex; environment := environment ex |}.

Definition add_action (act : ni_script_action_t) (ex : ni_extension_t) : ni_extension_t :=
  {| extension_name := extension_name ex; extension_type := extension_type ex;
     supported_af := supported_af ex; pid_file_path := pid_file_path ex;
     actions := actions ex ++ [act]; environment := environment ex |}.

Definition add_environment (fmt : xpath_format_t) (ex : ni_extension_t) : ni_extension_t :=
  {| extension_name := extension_name ex; extension_type := extension_type ex;
     supported_af := supported_af ex; pid_file_path := pid_file_path ex;
     actions := actions ex; environment := environment ex ++ [fmt] |}.

(** Returns the value returned and [*varp]. *)
Definition ni_config_parse_xpath (expr : string) (log : list log_entry)
    : Z * option xpath_format_t * list log_entry :=
  match xpath_format_parse expr with
  | None => (-1, None, log ++ [error_bad_xpath expr])
  | Some fmt => (0, Some fmt, log)
  end.

(** The tokens that successive [strtok] calls cut out of [s]: the maximal
    runs of characters other than [sep]. *)
Fixpoint strtok_from (sep : ascii) (s : string) (cur : string) : list string :=
  match s with
  | EmptyString => if streq cur "" then [] else [cur]
  | String c rest =>
      if Ascii.eqb c sep
      then (if streq cur "" then strtok_from sep rest ""
            else cur :: strtok_from sep rest "")
      else strtok_from sep rest (cur ++ String c "")%string
  end.

Definition strtok (s : string) (sep : ascii) : list string := strtok_from sep s "".

Definition family_token (af : Z) (s : string) : Z :=
  let af := if streq s "ipv4" then to_uint (Z.lor af NI_AF_MASK_IPV4) else af in
  if streq s "ipv6" then to_uint (Z.lor af NI_AF_MASK_IPV6) else af.

(** One iteration of the loop over the children of an extension element. *)
Definition extension_child (ex : ni_extension_t) (log : list log_entry)
    (child : xml_node_t) : flow (ni_extension_t * list log_entry) :=
  if streq (node_name child) "action" then
    match xml_node_get_attr child "name" with
    | None => Return (-1) (ex, log ++ [error_action_without_name])
    | Some attrval =>
        (* act = ni_script_action_new(attrval, &ex->actions) *)
        match xml_node_get_attr child "command" with
        | None => Next (add_action {| action_name := attrval; action_command := None |} ex, log)
        | Some command =>
            let '(rc, fmt, log) := ni_config_parse_xpath command log in
            let ex := add_action {| action_name := attrval; action_command := fmt |} ex in
            if rc <? 0 then Return (-1) (ex, log) else Next (ex, log)
        end
    end
  else if streq (node_name child) "environment" then
    match xml_node_get_attr child "putenv" with
    | None => Return (-1) (ex, log ++ [error_environment_without_putenv])
    | Some attrval =>
        let '(rc, fmt, log) := ni_config_parse_xpath attrval log in
        if rc <? 0 then Return (-1) (ex, log)
        else
          (* xpath_format_array_append(&ex->environment, fmt) *)
          Next (match fmt with
                | Some fmt => add_environment fmt ex
                | None => ex
                end, log)
    end
  else Next (ex, log).

Fixpoint extension_children_loop (ex : ni_extension_t) (log : list log_entry)
    (children : list xml_node_t) : flow (ni_extension_t * list log_entry) :=
  match children with
  | [] => Next (ex, log)
  | child :: rest =>
      match extension_child ex log child with
      | Next (ex, log) => extension_children_loop ex log rest
      | Return rc s => Return rc s
      end
  end.

(** One iteration of the loop over the children of the category element.
    The extension under construction already hangs at the end of the list [exts]. *)
Definition extension_node (exts : list ni_extension_t) (log : list log_entry)
    (exclass : string) (map_type : option (string -> Z)) (node : xml_node_t)
    : flow (list ni_extension_t * list log_entry) :=
  if negb (streq (node_name node) "extension") then Next (exts, log)
  else
  match xml_node_get_attr node "name" with
  | None => Return (-1) (exts, log ++ [error_extension_no_name exclass])
  | Some name =>
  (* int type = 0; if (map_type) { ... } *)
  let typed :=
    match map_type with
    | None => Next (0, log)
    | Some map_type =>
        match xml_node_get_attr node "type" with
        | None => Return (-1) (0, log ++ [error_extension_no_type exclass name])
        | Some attrval =>
            let type := map_type attrval in
            if type <? 0
            then Next (type, log ++ [error_extension_type_not_recognized exclass attrval])
            else Next (type, log)
        end
    end in
  match typed with
  | Return rc (_, log) => Return rc (exts, log)
  | Next (type, log) =>
  if type <? 0 then Next (exts, log)                           (* continue *)
  else
  let ex := ni_extension_new name type in
  let ex :=
    match xml_node_get_attr node "family" with
    | Some attrval =>
        set_supported_af (fold_left family_token (strtok attrval ",") (supported_af ex)) ex
    | None => set_supported_af UINT_MAX ex       (* Support everything *)
    end in
  let pidfile :=
    match xml_node_get_child node "pidfile" with
    | Some child =>
        match xml_node_get_attr child "path" with
        | Some attrval =>
            let '(rc, fmt, log) := ni_config_parse_xpath attrval log in
            (rc, set_pid_file_path fmt ex, log)
        | None => (0, ex, log)
        end
    | None => (0, ex, log)
    end in
  let '(rc, ex, log) := pidfile in
  if rc <? 0 then Return (-1) (exts ++ [ex], log)
  else
    match extension_children_loop ex log (node_children node) with
    | Next (ex, log) => Next (exts ++ [ex], log)
    | Return rc (ex, log) => Return rc (exts ++ [ex], log)
    end
  end end.

Fixpoint extensions_loop (exts : list ni_extension_t) (log : list log_entry)
    (exclass : string) (map_type : option (string -> Z)) (nodes : list xml_node_t)
    : Z * list ni_extension_t * list log_entry :=
  match nodes with
  | [] => (0, exts, log)
  | node :: rest =>
      match extension_node exts log exclass map_type node with
      | Next (exts, log) => extensions_loop exts log exclass map_type rest
      | Return rc (exts, log) => (rc, exts, log)
      end
  end.

(** Returns the value returned, [*list] (here [exts]) and the log. *)
Definition ni_config_parse_extensions (exts : list ni_extension_t)
    (log : list log_entry) (node : xml_node_t) (exclass : string)
    (map_type : option (string -> Z)) : Z * list ni_extension_t * list log_entry :=
  match xml_node_get_child node exclass with
  | None => (0, exts, log)
  | Some node => extensions_loop exts log exclass map_type (node_children node)
  end.

(** ** The configuration object *)

Record ni_config_addrconf := {
  default_allow_update : Z;
  dhcp : ni_config_dhcp;
  ibft_allow_update : Z;
  autoip_allow_update : Z
}.

Record ni_config_t := {
  ipv4 : ni_afinfo_t;
  ipv6 : ni_afinfo_t;
  pidfile : ni_config_fslocation_t;
  socket : ni_config_fslocation_t;
  default_syntax : option string;
  default_syntax_path : option string;
  recv_max : Z;
  addrconf : ni_config_addrconf;
  addrconf_extensions : list ni_extension_t;
  linktype_extensions : list ni_extension_t;
  api_extensions : list ni_extension_t
}.

Definition dhcp_new : ni_config_dhcp :=
  {| allow_update := UINT_MAX; vendor_class := None; lease_time := 0;
     ignore_servers := []; num_preferred_servers := 0;
     preferred_server := replicate NI_DHCP_SERVER_PREFERENCES_MAX zero_preference |}.

(** Create an empty config object *)
Definition ni_config_new : ni_config_t :=
  {| ipv4 := {| family := AF_INET; enabled := 1; forwarding := 0 |};
     ipv6 := {| family := AF_INET6; enabled := 1; forwarding := 0 |};
     pidfile := {| fs_path := None; fs_mode := 0 |};
     socket := {| fs_path := None; fs_mode := 0 |};
     default_syntax := None;
     default_syntax_path := None;
     recv_max := 64 * 1024;
     addrconf := {| default_allow_update := UINT_MAX; dhcp := dhcp_new;
                    ibft_allow_update := UINT_MAX; autoip_allow_update := UINT_MAX |};
     addrconf_extensions := []; linktype_extensions := []; api_extensions := [] |}.

(** What [ni_config_parse] leaves behind besides its result. *)
Record effects := {
  log : list log_entry;
  live_configs : nat;                  (* config objects allocated and not freed *)
  update_callbacks : list (string * string)
                                       (* REST path and extension name of each
                                          ni_rest_node_add_update_callback *)
}.

Definition with_log (l : list log_entry) (e : effects) : effects :=
  {| log := l; live_configs := live_configs e; update_callbacks := update_callbacks e |}.

Definition config_allocated (e : effects) : effects :=
  {| log := log e; live_configs := S (live_configs e);
     update_callbacks := update_callbacks e |}.

Definition ni_config_free (e : effects) : effects :=
  {| log := log e; live_configs := pred (live_configs e);
     update_callbacks := update_callbacks e |}.

(** One iteration of the loop over the children of [<addrconf>]. *)
Definition addrconf_child (ac : ni_config_addrconf) (log : list log_entry)
    (child : xml_node_t) : flow (ni_config_addrconf * list log_entry) :=
  let first :=
    if streq (node_name child) "default-allow-update" then
      let '(rc, mask, log) :=
        ni_config_parse_update_targets (default_allow_update ac) log child in
      let ac := {| default_allow_update := mask; dhcp := dhcp ac;
                   ibft_allow_update := ibft_allow_update ac;
                   autoip_allow_update := autoip_allow_update ac |} in
      if rc <? 0 then Return (-1) (ac, log) else Next (ac, log)
    else Next (ac, log) in
  match first with
  | Return rc s => Return rc s
  | Next (ac, log) =>
      if streq (node_name child) "dhcp" then
        let '(rc, d, log) := ni_config_parse_addrconf_dhcp (dhcp ac) log child in
        let ac := {| default_allow_update := default_allow_update ac; dhcp := d;
                     ibft_allow_update := ibft_allow_update ac;
                     autoip_allow_update := autoip_allow_update ac |} in
        if rc <? 0 then Return (-1) (ac, log) else Next (ac, log)
      else Next (ac, log)
  end.

Fixpoint addrconf_loop (ac : ni_config_addrconf) (log : list log_entry)
    (children : list xml_node_t) : flow (ni_config_addrconf * list log_entry) :=
  match children with
  | [] => Next (ac, log)
  | child :: rest =>
      match addrconf_child ac log child with
      | Next (ac, log) => addrconf_loop ac log rest
      | Return rc s => Return rc s
      end
  end.

(** The REST path that the loop over [strtok(copy, ".")] builds in [sbuf]. *)
Definition rest_path (name : string) : string :=
  fold_left (fun sbuf sp => (sbuf ++ "/" ++ sp)%string) (strtok name ".") "".

(** If we have API extensions, register them with the REST API *)
Fixpoint register_api_extensions (exts : list ni_extension_t) (e : effects) : effects :=
  match exts with
  | [] => e
  | ex :: rest =>
      let sbuf := rest_path (extension_name ex) in
      if streq sbuf "" then register_api_extensions rest e
      else if negb (ni_wicked_rest_lookup sbuf) then
        register_api_extensions rest
          (with_log (log e ++ [warn_ignoring_api_extension (extension_name ex)]) e)
      else
        let updates := filter (fun act => streq (action_name act) "update" = true)
                              (actions ex) in
        register_api_extensions rest
          {| log := log e; live_configs := live_configs e;
             update_callbacks := update_callbacks e
                                 ++ map (fun _ => (sbuf, extension_name ex)) updates |}
  end.

Definition ni_config_parse (filename : string) (e : effects)
    : option ni_config_t * effects :=
  match xml_document_read filename with
  | None => (None, with_log (log e ++ [error_parsing_configuration_file filename]) e)
  | Some root =>
  match xml_node_get_child root "config" with
  | None => (None, with_log (log e ++ [error_no_config_element filename]) e)
  | Some node =>
  let conf := ni_config_new in
  let e := config_allocated e in
  (* after the label [failed], with conf set *)
  let failed (l : list log_entry) := (None, ni_config_free (with_log l e)) in
  let pidfile0 := {| fs_path := fs_path (pidfile conf); fs_mode := 420 |} in  (* 0644 *)
  let socket0 := {| fs_path := fs_path (socket conf); fs_mode := 384 |} in    (* 0600 *)
  let '(rc1, ipv4') := ni_config_parse_afinfo (ipv4 conf) "ipv4" node in
  let '(rc2, ipv6') := ni_config_parse_afinfo (ipv6 conf) "ipv6" node in
  let '(rc3, pidfile') := ni_config_parse_fslocation pidfile0 "pidfile" node in
  let '(rc4, socket') := ni_config_parse_fslocation socket0 "socket" node in
  if (rc1 <? 0) || (rc2 <? 0) || (rc3 <? 0) || (rc4 <? 0) then failed (log e)
  else
  let '(syntax, syntax_path) :=
    match xml_node_get_child node "backend" with
    | Some child =>
        (match xml_node_get_attr child "schema" with
         | Some attrval => Some attrval
         | None => default_syntax conf
         end,
         match xml_node_get_attr child "path" with
         | Some attrval => Some attrval
         | None => default_syntax_path conf
         end)
    | None => (default_syntax conf, default_syntax_path conf)
    end in
  let addrconf_parsed :=
    match xml_node_get_child node "addrconf" with
    | Some child => addrconf_loop (addrconf conf) (log e) (node_children child)
    | None => Next (addrconf conf, log e)
    end in
  match addrconf_parsed with
  | Return _ (_, l) => failed l
  | Next (ac, l) =>
  (* Intersect addrconf update capabilities with what the system supports. *)
  let ac := {| default_allow_update :=
                 Z.land (default_allow_update ac) ni_system_update_capabilities;
               dhcp := dhcp ac;
               ibft_allow_update := ibft_allow_update ac;
               autoip_allow_update := autoip_allow_update ac |} in
  let '(rc, addrconf_exts, l) :=
    ni_config_parse_extensions (addrconf_extensions conf) l node "addrconf"
      (Some ni_addrconf_name_to_type) in
  if rc <? 0 then failed l else
  let '(rc, linktype_exts, l) :=
    ni_config_parse_extensions (linktype_extensions conf) l node "linktype"
      (Some ni_linktype_name_to_type) in
  if rc <? 0 then failed l else
  let '(rc, api_exts, l) :=
    ni_config_parse_extensions (api_extensions conf) l node "api" None in
  if rc <? 0 then failed l else
  let e := register_api_extensions api_exts (with_log l e) in
  (Some {| ipv4 := ipv4'; ipv6 := ipv6'; pidfile := pidfile'; socket := socket';
           default_syntax := syntax; default_syntax_path := syntax_path;
           recv_max := recv_max conf; addrconf := ac;
           addrconf_extensions := addrconf_exts;
           linktype_extensions := linktype_exts;
           api_extensions := api_exts |}, e)
  end end end.

(** Query the default update mask.  [NI_ADDRCONF_DHCP] is the value of the
    enumerator of that name, which is declared outside these sources. *)
Definition ni_config_addrconf_update_mask (NI_ADDRCONF_DHCP : Z) (conf : ni_config_t)
    (type : Z) : Z :=
  let update_mask := default_allow_update (addrconf conf) in
  if type =? NI_ADDRCONF_DHCP
  then Z.land update_mask (allow_update (dhcp (addrconf conf)))
  else update_mask.

End Parser.

End Config.

(** * String comparison *)

Lemma streq_true a b : streq a b = true <-> a = b.
Proof. apply String.eqb_eq. Qed.

Lemma streq_false a b : streq a b = false <-> a <> b.
Proof. apply String.eqb_neq. Qed.

Lemma streq_refl a : streq a a = true.
Proof. apply String.eqb_refl. Qed.

(** * Properties of model.c *)

Module ModelFacts.

Import Model.

(** ** The class hierarchy *)

(** [superclass_chain mem class chain]: following [superclass] from [class]
    visits exactly the classes of [chain], in this order, and then reaches
    NULL. *)
Inductive superclass_chain (mem : memory) : option class_ptr -> list class_ptr -> Prop :=
| chain_end : superclass_chain mem None []
| chain_step c chain :
    superclass_chain mem (superclass (class_at mem c)) chain ->
    superclass_chain mem (Some c) (c :: chain).

(** The service is compatible with one of the classes of [chain]. *)
Definition serves (mem : memory) (chain : list class_ptr) (service : service_ptr) : Prop :=
  exists c, compatible (service_at mem service) = Some c /\ c ∈ chain.

#[local] Instance serves_dec mem chain service : Decision (serves mem chain service).
Proof.
  unfold serves.
  destruct (compatible (service_at mem service)) as [c|].
  - destruct (decide (c ∈ chain)) as [Hin|Hout].
    + left. exists c. auto.
    + right. intros (c' & Heq & Hin). congruence.
  - right. intros (c' & Heq & _). discriminate.
Defined.


Definition attach (object : ni_dbus_object_t) (attached : list service_ptr)
    : ni_dbus_object_t :=
  {| path := path object;
     object_class := object_class object;
     interfaces := interfaces object ++ attached |}.

Lemma attach_nil object : attach object [] = object.
Proof. destruct object. unfold attach. simpl. by rewrite app_nil_r. Qed.

Lemma attach_register object attached service :
  ni_dbus_object_register_service (attach object attached) service
  = attach object (attached ++ [service]).
Proof. unfold ni_dbus_object_register_service, attach. simpl. by rewrite app_assoc. Qed.

Lemma serves_cons mem c chain service :
  serves mem (c :: chain) service
  <-> compatible (service_at mem service) = Some c \/ serves mem chain service.
Proof.
  unfold serves. split.
  - intros (c' & Heq & Hin). apply elem_of_cons in Hin as [->|Hin]; eauto.
  - intros [Heq|(c' & Heq & Hin)].
    + exists c. split; [done|]. apply elem_of_cons. auto.
    + exists c'. split; [done|]. apply elem_of_cons. auto.
Qed.

Lemma serves_nil mem service : ~ serves mem [] service.
Proof. intros (c & _ & Hin). by apply not_elem_of_nil in Hin. Qed.

(** The walk up the hierarchy ends as soon as the fuel covers the chain: it
    registers the service once if it serves a class of the chain. *)
Lemma bind_walk_classes_chain mem object service class chain :
  superclass_chain mem class chain ->
  forall fuel, (length chain <= fuel)%nat ->
  bind_walk_classes fuel mem object service class
  = Returns (if decide (serves mem chain service)
             then ni_dbus_object_register_service object service
             else object).
Proof.
  induction 1 as [|c chain Hchain IH]; intros fuel Hfuel.
  - destruct fuel; simpl; destruct (decide (serves mem [] service)) as [Hs|];
      try done; by apply serves_nil in Hs.
  - destruct fuel as [|fuel]; simpl in Hfuel; [lia|].
    simpl. case_bool_decide as Hc.
    + destruct (decide (serves mem (c :: chain) service)) as [|Hn]; [done|].
      exfalso. apply Hn, serves_cons. auto.
    + rewrite IH by lia.
      destruct (decide (serves mem chain service)) as [Hs|Hs];
        destruct (decide (serves mem (c :: chain) service)) as [Hs'|Hs']; try done.
      * exfalso. apply Hs', serves_cons. auto.
      * exfalso. apply serves_cons in Hs' as [?|?]; auto.
Qed.

Lemma bind_each_service_chain mem chain fuel services :
  forall object attached,
  superclass_chain mem (object_class object) chain ->
  (length chain <= fuel)%nat ->
  bind_each_service fuel mem services (attach object attached)
  = Returns (attach object (attached ++ filter (serves mem chain) services)).
Proof.
  induction services as [|service rest IH]; intros object attached Hchain Hfuel.
  - simpl. by rewrite app_nil_r.
  - cbn [bind_each_service].
    change (object_class (attach object attached)) with (object_class object).
    rewrite (bind_walk_classes_chain mem _ service _ chain Hchain fuel Hfuel).
    cbn [outcome_bind]. rewrite filter_cons.
    destruct (decide (serves mem chain service)).
    + rewrite attach_register. rewrite IH by done.
      by rewrite <- app_assoc.
    + by rewrite IH.
Qed.


(** ** A small hierarchy to run the code on

    Class [Base] lives at address 1, class [Child], whose superclass is
    [Base], at address 2; the service [S1], compatible with [Base], at
    address 1. *)

Definition Base : class_ptr := 1%positive.
Definition Child : class_ptr := 2%positive.
Definition S1 : service_ptr := 1%positive.

Definition demo_memory : memory :=
  {| class_at := fun p =>
       if decide (p = Base) then {| class_name := Some "Base"; superclass := None |}
       else if decide (p = Child) then {| class_name := Some "Child"; superclass := Some Base |}
       else {| class_name := None; superclass := None |};
     service_at := fun p =>
       if decide (p = S1)
       then {| service_name := Some "S1"; compatible := Some Base; methods := [] |}
       else {| service_name := None; compatible := None; methods := [] |} |}.

Definition demo_registries : registries :=
  {| ni_objectmodel_class_registry := [Base; Child];
     ni_objectmodel_service_registry := [S1] |}.

Definition child_object : ni_dbus_object_t :=
  {| path := "/com/suse/Wicked/Child"; object_class := Some Child; interfaces := [] |}.

(** Registering [Base], [Child] and [S1] on empty tables gives
    [demo_registries]. *)
Example demo_registration :
  (do classes <- ni_objectmodel_register_class demo_memory Base [];
   do classes <- ni_objectmodel_register_class demo_memory Child classes;
   do services <- ni_objectmodel_register_service S1 [];
   Returns {| ni_objectmodel_class_registry := classes;
              ni_objectmodel_service_registry := services |})%outcome
  = Returns demo_registries.
Proof. reflexivity. Qed.

(** ** Binding *)





(** C8.  Binding an object whose class is not set returns FALSE for every
    fuel, logs the error, leaves the object and its attached services as
    they were, and does not terminate the process. *)
Theorem bind_without_class_fails
    (fuel : nat) (mem : memory) (reg : registries)
    (p : string) (attached : list service_ptr) (log : list log_entry) :
  let object := {| path := p; object_class := None; interfaces := attached |} in
  let result := ni_objectmodel_bind_compatible_interfaces fuel mem reg object log in
  result = Returns (false, object,
                    log ++ [error_object_without_class
                              "ni_objectmodel_bind_compatible_interfaces" p])
  /\ (forall object' log' rc, result = Returns (rc, object', log') ->
        rc = false /\ interfaces object' = attached)
  /\ ~ aborts result
  /\ result <> OutOfFuel.
Proof.
  intros object result. unfold result, ni_objectmodel_bind_compatible_interfaces.
  simpl. split; [reflexivity|]. split; [|split].
  - intros object' log' rc Heq. injection Heq as <- <- <-. split; reflexivity.
  - intros [why Hwhy]. discriminate.
  - discriminate.
Qed.

(** ** Registration *)

(** C3, as the code has it.  [ni_objectmodel_register_class] aborts exactly
    when the name pointer is null or the table already holds
    [NI_DBUS_CLASSES_MAX] entries; in every other case it appends the
    descriptor as a new last entry, whatever names the table holds.
    [ni_objectmodel_register_service] aborts exactly when its table holds
    [NI_DBUS_SERVICES_MAX] entries and otherwise appends; it does not look
    at the name. *)
Theorem register_checks_name_pointer_and_capacity_only
    (mem : memory) (class : class_ptr) (classes : list class_ptr)
    (service : service_ptr) (services : list service_ptr) :
  (aborts (ni_objectmodel_register_class mem class classes)
     <-> class_name (class_at mem class) = None
         \/ (NI_DBUS_CLASSES_MAX <= length classes)%nat)
  /\ (~ aborts (ni_objectmodel_register_class mem class classes)
      -> ni_objectmodel_register_class mem class classes = Returns (classes ++ [class]))
  /\ (aborts (ni_objectmodel_register_service service services)
        <-> (NI_DBUS_SERVICES_MAX <= length services)%nat)
  /\ (~ aborts (ni_objectmodel_register_service service services)
      -> ni_objectmodel_register_service service services = Returns (services ++ [service])).
Proof.
  unfold ni_objectmodel_register_class, ni_objectmodel_register_service, ni_assert, aborts.
  split; [|split; [|split]].
  - destruct (class_name (class_at mem class)) as [name|] eqn:Hname.
    + rewrite bool_decide_true by eauto. simpl.
      destruct (Nat.ltb_spec (length classes) NI_DBUS_CLASSES_MAX); simpl.
      * split; [intros [why Hwhy]; discriminate|intros [?|?]; [discriminate|lia]].
      * split; eauto.
    + rewrite bool_decide_false by (intros [? ?]; discriminate). simpl.
      split; eauto.
  - intros Hno.
    destruct (class_name (class_at mem class)) as [name|] eqn:Hname.
    + rewrite bool_decide_true by eauto. simpl.
      destruct (Nat.ltb_spec (length classes) NI_DBUS_CLASSES_MAX); simpl; [done|].
      exfalso. apply Hno. rewrite bool_decide_true by eauto. simpl.
      destruct (Nat.ltb_spec (length classes) NI_DBUS_CLASSES_MAX); [lia|]. simpl. eauto.
    + exfalso. apply Hno.
      rewrite bool_decide_false by (intros [? ?]; discriminate). simpl. eauto.
  - destruct (Nat.ltb_spec (length services) NI_DBUS_SERVICES_MAX); simpl.
    + split; [intros [why Hwhy]; discriminate|lia].
    + split; eauto.
  - intros Hno.
    destruct (Nat.ltb_spec (length services) NI_DBUS_SERVICES_MAX); simpl; [done|].
    exfalso. apply Hno. simpl. eauto.
Qed.

(** C3 fails on the code: a class whose name is already in the table is
    registered again, as a second entry; and a service without a name is
    registered. *)
Lemma register_class_accepts_registered_name :
  ni_objectmodel_get_class demo_memory [Base; Child] "Base" = Some Base
  /\ ni_objectmodel_register_class demo_memory Base [Base; Child]
     = Returns [Base; Child; Base]
  /\ ~ aborts (ni_objectmodel_register_class demo_memory Base [Base; Child])
  /\ service_name (service_at demo_memory 7%positive) = None
  /\ ni_objectmodel_register_service 7%positive [S1] = Returns [S1; 7%positive].
Proof.
  repeat split; try reflexivity.
  intros [why Hwhy]. discriminate.
Qed.

(** ** Extension calls *)

Definition general_failure_reply (method : ni_dbus_method_t) (call : ni_dbus_message_t)
    : reply :=
  error_reply call DBUS_ERROR_FAILED
    ("%s - general failure when executing method", [method_name method]).

Definition completion_reply (call : ni_dbus_message_t) (process : ni_process_instance_t)
    : reply :=
  if (status process =? 0)%Z then method_return call
  else error_reply call DBUS_ERROR_FAILED ("dbus extension script returns error", []).

(** The files named by [WICKED_ARGFILE] and [WICKED_RETFILE] in the
    environment of the process are absent from the file system. *)
Definition temp_files_absent (process : ni_process_instance_t) (w : world) : Prop :=
  forall name value,
    (name = "WICKED_ARGFILE" \/ name = "WICKED_RETFILE") ->
    (name, value) ∈ environ process ->
    files w !! value = None.

(** A configured extension [com.suse.Wicked.Foo] with the action [bar], a
    call of its method [bar], and a world in which both temporary files can
    be created. *)
Definition demo_config : list ni_extension_t :=
  [ {| extension_name := "com.suse.Wicked.Foo";
       actions := [ {| action_name := "bar";
                       action_process := Some {| command := "/bin/true" |} |} ] |} ].

Definition demo_method : ni_dbus_method_t :=
  {| method_name := "bar"; handler := false;
     async_handler := true; async_completion := true |}.

Definition demo_call : ni_dbus_message_t :=
  {| interface := "com.suse.Wicked.Foo"; member := "bar"; wire := "l.bar" |}.

Definition no_faults : faults :=
  {| marshal_fails := false; write_fails := false; run_fails := false;
     send_fails := false |}.

Definition demo_world (plan : list (option string)) : world :=
  {| files := ∅; outbox := []; running := []; live_instances := 0; log := [];
     mkstemp_plan := plan |}.

Definition demo_process (code : Z) : ni_process_instance_t :=
  {| process := {| command := "/bin/true" |};
     environ := [("WICKED_ARGFILE", "/tmp/wicked.arg");
                 ("WICKED_RETFILE", "/tmp/wicked.ret")];
     status := code |}.

(** The world after the dispatcher has started the extension. *)
Definition demo_world_spawned : world :=
  snd (ni_objectmodel_extension_call demo_config no_faults child_object demo_method
         demo_call (demo_world [Some "/tmp/wicked.arg"; Some "/tmp/wicked.ret"])).

Example demo_call_spawns :
  fst (ni_objectmodel_extension_call demo_config no_faults child_object demo_method
         demo_call (demo_world [Some "/tmp/wicked.arg"; Some "/tmp/wicked.ret"])) = true
  /\ running demo_world_spawned = [(demo_call, demo_process 0)]
  /\ files demo_world_spawned !! "/tmp/wicked.arg" = Some "l.bar"
  /\ files demo_world_spawned !! "/tmp/wicked.ret" = Some "".
Proof. vm_compute. auto. Qed.

Lemma completion_keeps_files flt object method call process w :
  files (snd (ni_objectmodel_extension_completion flt object method call process w))
  = files w.
Proof.
  unfold ni_objectmodel_extension_completion, ni_dbus_connection_send_message.
  by destruct (send_fails flt).
Qed.

(** C2, as the code has it.  The completion handler returns TRUE and hands
    exactly one reply to the connection: the method return when the exit
    status is zero, otherwise the error reply with the fixed message.  It
    does not touch the file system: whatever files exist before, the two
    temporary files among them, exist afterwards; nor does it start or end a
    process. *)
Theorem completion_replies_once_and_keeps_files
    (flt : faults) (object : ni_dbus_object_t) (method : ni_dbus_method_t)
    (call : ni_dbus_message_t) (process : ni_process_instance_t) (w : world) :
  let result := ni_objectmodel_extension_completion flt object method call process w in
  fst result = true
  /\ outbox (snd result) = outbox w ++ [completion_reply call process]
  /\ files (snd result) = files w
  /\ running (snd result) = running w
  /\ live_instances (snd result) = live_instances w
  /\ log (snd result)
     = log w ++ (if send_fails flt then [error_unable_to_send_reply] else []).
Proof.
  unfold ni_objectmodel_extension_completion, ni_dbus_connection_send_message,
    completion_reply, ni_process_exit_status_okay.
  destruct (send_fails flt); simpl; rewrite ?app_nil_r; repeat split.
Qed.

(** The world after the completion handler has run for the process that
    exited with [code]. *)
Definition demo_world_completed (code : Z) : world :=
  snd (ni_objectmodel_extension_completion no_faults child_object demo_method
         demo_call (demo_process code) demo_world_spawned).

(** C2 fails on the code: after the completion handler has run, for exit
    status 0 and for exit status 1, both temporary files of the call are
    still there. *)
Lemma completion_leaves_temp_files :
  ~ temp_files_absent (demo_process 0) (demo_world_completed 0)
  /\ ~ temp_files_absent (demo_process 1) (demo_world_completed 1)
  /\ files (demo_world_completed 0) !! "/tmp/wicked.arg" = Some "l.bar"
  /\ files (demo_world_completed 0) !! "/tmp/wicked.ret" = Some ""
  /\ files (demo_world_completed 1) !! "/tmp/wicked.arg" = Some "l.bar"
  /\ files (demo_world_completed 1) !! "/tmp/wicked.ret" = Some "".
Proof.
  assert (Harg : files demo_world_spawned !! "/tmp/wicked.arg" = Some "l.bar")
    by (vm_compute; reflexivity).
  assert (Hret : files demo_world_spawned !! "/tmp/wicked.ret" = Some "")
    by (vm_compute; reflexivity).
  assert (Hfiles : forall code, files (demo_world_completed code) = files demo_world_spawned).
  { intros code. unfold demo_world_completed. apply completion_keeps_files. }
  rewrite !Hfiles. repeat split; try assumption.
  - intros Habs.
    specialize (Habs "WICKED_ARGFILE" "/tmp/wicked.arg" (or_introl eq_refl)).
    rewrite Hfiles, Harg in Habs.
    assert (Some "l.bar" = None) as Hno; [|discriminate Hno].
    apply Habs. simpl. apply list_elem_of_here.
  - intros Habs.
    specialize (Habs "WICKED_ARGFILE" "/tmp/wicked.arg" (or_introl eq_refl)).
    rewrite Hfiles, Harg in Habs.
    assert (Some "l.bar" = None) as Hno; [|discriminate Hno].
    apply Habs. simpl. apply list_elem_of_here.
Qed.

(** C4 on the code.  When the argument file has been written and creating
    the return file fails, the dispatcher returns FALSE, hands the general
    failure reply to the connection, starts no process and frees the process
    instance, but the argument file is still in the file system when it
    returns: [tempname] is NULL at [general_failure], so no [unlink] runs. *)
Theorem extension_call_keeps_argfile_when_retfile_fails
    (config : list ni_extension_t) (flt : faults) (object : ni_dbus_object_t)
    (method : ni_dbus_method_t) (call : ni_dbus_message_t) (w : world)
    (extension : ni_extension_t) (command : ni_process_t)
    (argfile : string) (plan : list (option string)) :
  ni_config_find_extension config (interface call) = Some extension ->
  ni_extension_script_find extension (method_name method) = Some command ->
  marshal_fails flt = false ->
  write_fails flt = false ->
  mkstemp_plan w = Some argfile :: None :: plan ->
  files w !! argfile = None ->
  let result := ni_objectmodel_extension_call config flt object method call w in
  fst result = false
  /\ outbox (snd result) = outbox w ++ [general_failure_reply method call]
  /\ running (snd result) = running w
  /\ live_instances (snd result) = live_instances w
  /\ files (snd result) = <[argfile := wire call]> (files w)
  /\ files (snd result) !! argfile = Some (wire call).
Proof.
  intros Hext Hcmd Hmarshal Hwrite Hplan Hfresh result.
  assert (Hrun : result
    = general_failure method call None
        (ni_error (error_unable_to_create_tempfile "__ni_objectmodel_empty_tempfile")
           (set_plan plan
              (set_files (insert argfile (wire call))
                 (set_files (insert argfile "")
                    (set_plan (None :: plan)
                       (set_live (S (live_instances w)) w))))))).
  { unfold result, ni_objectmodel_extension_call.
    rewrite Hext, Hcmd.
    unfold ni_process_instance_new, __ni_objectmodel_write_message.
    rewrite Hmarshal. unfold ni_mkstemp at 1. simpl. rewrite Hplan, Hfresh. simpl.
    rewrite Hwrite. unfold __ni_objectmodel_empty_tempfile, ni_mkstemp. simpl.
    reflexivity. }
  rewrite Hrun. simpl.
  assert (Hfiles : <[argfile:=wire call]> (<[argfile:=""]> (files w))
                   = <[argfile:=wire call]> (files w)) by apply insert_insert_eq.
  rewrite Hfiles. repeat split. apply lookup_insert_eq.
Qed.

(** The dispatch of [demo_call] when the argument file can be created and
    the return file cannot. *)
Definition demo_failed_dispatch : bool * world :=
  ni_objectmodel_extension_call demo_config no_faults child_object demo_method
    demo_call (demo_world [Some "/tmp/wicked.arg"; None]).

(** The argument file of [demo_call] survives the failed dispatch. *)
Lemma extension_call_keeps_argfile_when_retfile_fails_witness :
  fst (demo_failed_dispatch) = false
  /\ outbox (snd demo_failed_dispatch) = [general_failure_reply demo_method demo_call]
  /\ running (snd demo_failed_dispatch) = []
  /\ files (snd demo_failed_dispatch) !! "/tmp/wicked.arg" = Some "l.bar".
Proof.
  destruct (extension_call_keeps_argfile_when_retfile_fails demo_config no_faults
              child_object demo_method demo_call
              (demo_world [Some "/tmp/wicked.arg"; None])
              {| extension_name := "com.suse.Wicked.Foo";
                 actions := [ {| action_name := "bar";
                                 action_process := Some {| command := "/bin/true" |} |} ] |}
              {| command := "/bin/true" |} "/tmp/wicked.arg" [])
    as (Hrc & Hout & Hrun & _ & _ & Hfile);
    try reflexivity.
  repeat split; assumption.
Defined.

End ModelFacts.

(** * Properties of config.c *)

Module ConfigFacts.

Import Config.
Local Open Scope Z_scope.

(** ** A concrete library to run the parser on *)

Definition demo_update_target (name : string) : Z :=
  if streq name "default-route" then 0
  else if streq name "hostname" then 1
  else if streq name "hosts-file" then 2
  else if streq name "syslog" then 3
  else if streq name "resolver" then 4
  else if streq name "nis" then 5
  else -1.

Definition demo_addrconf_type (name : string) : Z :=
  if streq name "dhcp" then 0
  else if streq name "static" then 1
  else if streq name "auto" then 2
  else -1.

Definition demo_linktype (name : string) : Z :=
  if streq name "ethernet" then 1
  else if streq name "vlan" then 2
  else -1.

(** Addresses and expressions are kept as the text they were parsed from; an
    empty address and an expression that ends in an open brace do not
    parse. *)
Definition demo_externals (document : option xml_node_t) : externals :=
  {| ni_sockaddr_t := string;
     sockaddr_zero := "";
     ni_address_parse := fun old s _ => if streq s "" then (-1, old) else (0, s);
     NI_DHCP_SERVER_PREFERENCES_MAX := 2;
     ni_addrconf_name_to_update_target := demo_update_target;
     ni_addrconf_name_to_type := demo_addrconf_type;
     ni_linktype_name_to_type := demo_linktype;
     ni_system_update_capabilities := UINT_MAX;
     NI_AF_MASK_IPV4 := 1;
     NI_AF_MASK_IPV6 := 2;
     xpath_format_t := string;
     xpath_format_parse := fun expr => if streq expr "%{" then None else Some expr;
     ni_parse_int := fun _ => None;
     xml_document_read := fun _ => document;
     ni_wicked_rest_lookup := fun _ => false |}.

Definition demo_ext : externals := demo_externals None.

Definition element (name : string) (attrs : list (string * string))
    (children : list xml_node_t) : xml_node_t :=
  xml_node name attrs None children.

Section UpdateTargets.

Context {ext : externals}.

Lemma to_uint_range z : 0 <= to_uint z < 2 ^ 32.
Proof. unfold to_uint. apply Z.mod_pos_bound. lia. Qed.

Lemma to_uint_small z : 0 <= z < 2 ^ 32 -> to_uint z = z.
Proof. intros H. unfold to_uint. by apply Z.mod_small. Qed.

Lemma testbit_to_uint z k :
  0 <= k -> Z.testbit (to_uint z) k = (k <? 32) && Z.testbit z k.
Proof.
  intros Hk. unfold to_uint. destruct (Z.ltb_spec k 32); simpl.
  - apply Z.mod_pow2_bits_low. lia.
  - apply Z.mod_pow2_bits_high. lia.
Qed.

Lemma testbit_uint_high z k : 0 <= z < 2 ^ 32 -> 32 <= k -> Z.testbit z k = false.
Proof.
  intros Hz Hk. rewrite <- (to_uint_small z Hz), testbit_to_uint by lia.
  destruct (Z.ltb_spec k 32); [lia|done].
Qed.

Lemma update_target_child_range mask log child :
  0 <= mask < 2 ^ 32 ->
  0 <= fst (update_target_child mask log child) < 2 ^ 32.
Proof.
  intros Hmask. unfold update_target_child.
  repeat case_match; simpl; try apply to_uint_range; try done.
Qed.

Lemma update_targets_loop_app mask log before after :
  update_targets_loop mask log (before ++ after)
  = update_targets_loop (fst (update_targets_loop mask log before))
      (snd (update_targets_loop mask log before)) after.
Proof.
  revert mask log. induction before as [|child before IH]; intros mask log; [done|].
  simpl. destruct (update_target_child mask log child) as [m l]. apply IH.
Qed.

Lemma update_targets_loop_range children : forall mask log,
  0 <= mask < 2 ^ 32 ->
  0 <= fst (update_targets_loop mask log children) < 2 ^ 32.
Proof.
  induction children as [|child rest IH]; intros mask log Hmask; [done|].
  simpl. pose proof (update_target_child_range mask log child Hmask) as Hstep.
  destruct (update_target_child mask log child) as [m l]. by apply IH.
Qed.

Lemma lor_fits_uint x y :
  0 <= x < 2 ^ 32 -> 0 <= y < 2 ^ 32 -> to_uint (Z.lor x y) = Z.lor x y.
Proof.
  intros Hx Hy. apply Z.bits_inj'. intros k Hk.
  rewrite testbit_to_uint by lia.
  destruct (Z.ltb_spec k 32); simpl; [done|].
  by rewrite Z.lor_spec, (testbit_uint_high x), (testbit_uint_high y) by lia.
Qed.

(** The bits of the mask after a recognized target has been ORed in. *)
Lemma or_target_bits mask target k :
  0 <= mask < 2 ^ 32 -> 0 <= target < 32 -> 0 <= k ->
  Z.testbit (to_uint (Z.lor mask (Z.shiftl 1 target))) k
  = Z.testbit mask k || (k =? target).
Proof.
  intros Hmask Htarget Hk.
  rewrite testbit_to_uint, Z.lor_spec, Z.shiftl_1_l, Z.pow2_bits_eqb by lia.
  rewrite (Z.eqb_sym target k).
  destruct (Z.ltb_spec k 32); simpl; [done|].
  rewrite (testbit_uint_high mask k) by lia.
  destruct (Z.eqb_spec k target); [lia|done].
Qed.

(** C6.  The function returns 0.  With no child the mask that
    [update_mask] points to is left as the caller passed it.  Let [before]
    be the children already parsed, starting from that mask, and [child] the
    next one.  After [<all/>] the mask has all 32 bits set, after [<none/>]
    it is 0.  After a child with another name that
    [ni_addrconf_name_to_update_target] maps to a target in 0..31, the bit of
    the target is set and every other bit is as it was before the child, so
    for a first child as in the mask that was passed; after a child whose
    name is not recognized the mask is as it was, and a warning is logged. *)
Theorem update_targets_mask
    (mask : Z) (log : list log_entry) (n : string) (a : list (string * string))
    (c : option string) (before : list xml_node_t) (child : xml_node_t) :
  0 <= mask < 2 ^ 32 ->
  let earlier := ni_config_parse_update_targets mask log (xml_node n a c before) in
  let result := ni_config_parse_update_targets mask log (xml_node n a c (before ++ [child])) in
  let mask0 := snd (fst earlier) in
  let mask1 := snd (fst result) in
  let target := ni_addrconf_name_to_update_target (node_name child) in
  fst (fst result) = 0
  /\ ni_config_parse_update_targets mask log (xml_node n a c []) = (0, mask, log)
  /\ (before = [] -> mask0 = mask /\ snd earlier = log)
  /\ (node_name child = "all" ->
      mask1 = UINT_MAX /\ forall k, 0 <= k < 32 -> Z.testbit mask1 k = true)
  /\ (node_name child = "none" -> mask1 = 0)
  /\ (node_name child <> "all" -> node_name child <> "none" ->
      (0 <= target < 32 ->
       mask1 = Z.lor mask0 (Z.shiftl 1 target)
       /\ forall k, 0 <= k -> Z.testbit mask1 k = Z.testbit mask0 k || (k =? target))
      /\ (target < 0 ->
          mask1 = mask0
          /\ snd result = snd earlier ++ [warn_unknown_update_target (node_name child)])).
Proof.
  intros Hmask earlier result mask0 mask1 target.
  split; [|split; [|split]].
  { unfold result, ni_config_parse_update_targets.
    by destruct (update_targets_loop mask log _). }
  { reflexivity. }
  { unfold mask0, earlier. by intros ->. }
  unfold result, earlier, mask0, mask1, earlier, result,
    ni_config_parse_update_targets in *. simpl.
  rewrite update_targets_loop_app.
  pose proof (update_targets_loop_range before mask log Hmask) as Hrange.
  destruct (update_targets_loop mask log before) as [m0 l0]. simpl in *.
  unfold update_target_child. fold target.
  split; [|split].
  - intros ->. simpl. split; [reflexivity|].
    intros k Hk. change UINT_MAX with (Z.ones 32).
    apply Z.ones_spec_low. lia.
  - intros Hnone. rewrite Hnone. reflexivity.
  - intros Hall Hnone.
    apply streq_false in Hall. apply streq_false in Hnone.
    rewrite Hall, Hnone. split.
    + intros Htarget.
      destruct (Z.leb_spec 0 target); [|lia]. simpl. split.
      * apply lor_fits_uint; [lia|].
        rewrite Z.shiftl_1_l. split; [lia|].
        apply Z.pow_lt_mono_r; lia.
      * intros k Hk. by apply or_target_bits.
    + intros Htarget. destruct (Z.leb_spec 0 target); [lia|]. simpl. done.
Qed.

End UpdateTargets.

(** Starting from the mask 8, a single [<hostname/>] sets bit 1 and leaves
    bit 3 as the caller passed it: the mask is 10. *)
Lemma update_targets_mask_witness :
  snd (fst (ni_config_parse_update_targets (ext := demo_ext) 8 []
              (element "allow-update" [] [element "hostname" [] []])))
  = Z.lor 8 (Z.shiftl 1 1)
  /\ Z.testbit (snd (fst (ni_config_parse_update_targets (ext := demo_ext) 8 []
                            (element "allow-update" [] [element "hostname" [] []])))) 3
     = Z.testbit 8 3 || (3 =? 1).
Proof.
  destruct (update_targets_mask (ext := demo_ext) 8 [] "allow-update" [] None
              [] (element "hostname" [] [])) as (_ & _ & _ & _ & _ & Hnamed); [lia|].
  destruct Hnamed as [Hbits _]; [discriminate|discriminate|].
  destruct Hbits as [Hor Hbit]; [change (0 <= 1 < 32); lia|].
  split.
  - exact Hor.
  - exact (Hbit 3 ltac:(lia)).
Defined.

(** ** Server preferences *)

(** The integer that the parser reads from a weight token: the value of
    [strtol] as it arrives in the [int] field. *)
Definition weight_token_value (token : string) : Z := to_int (strtol token).

(** The weight that the parser stores, given the weight attribute: a number
    is compared with 100 as it arrives in the [int] field. *)
Definition stored_weight (attr : option string) : Z :=
  match attr with
  | None => 100
  | Some token =>
      if streq token "always" then 100
      else if streq token "never" then -1
      else Z.min (weight_token_value token) 100
  end.

(** The warning that the parser logs: only when the field exceeds 100. *)
Definition logged_warning (attr : option string) : list log_entry :=
  match attr with
  | None => []
  | Some token =>
      if streq token "always" then []
      else if streq token "never" then []
      else if 100 <? weight_token_value token then [warn_weight_clamped 100] else []
  end.

(** Decides the comparisons of the element name [prefer-server] with the
    names the loop of [ni_config_parse_addrconf_dhcp] looks for. *)
Ltac compare_element_names :=
  change (streq "prefer-server" "vendor-class") with false;
  change (streq "prefer-server" "lease-time") with false;
  change (streq "prefer-server" "ignore-server") with false;
  change (streq "prefer-server" "prefer-server") with true;
  change (streq "prefer-server" "allow-update") with false.

Section Dhcp.

Context {ext : externals}.

Lemma to_int_small z : - 2 ^ 31 <= z < 2 ^ 31 -> to_int z = z.
Proof. intros H. unfold to_int. rewrite Z.mod_small; lia. Qed.

Lemma to_int_range z : - 2 ^ 31 <= to_int z < 2 ^ 31.
Proof.
  unfold to_int. pose proof (Z.mod_pos_bound (z + 2 ^ 31) (2 ^ 32)). lia.
Qed.

Lemma slot_set_slot i pref dhcp :
  (i < length (preferred_server dhcp))%nat -> slot (set_slot i pref dhcp) i = pref.
Proof.
  intros Hi. unfold slot, set_slot. simpl. by rewrite list_lookup_insert_eq.
Qed.

Lemma set_slot_set_slot i p q dhcp :
  set_slot i p (set_slot i q dhcp) = set_slot i p dhcp.
Proof. unfold set_slot. simpl. by rewrite list_insert_insert_eq. Qed.

Lemma set_slot_length i pref dhcp :
  length (preferred_server (set_slot i pref dhcp)) = length (preferred_server dhcp).
Proof. unfold set_slot. simpl. apply length_insert. Qed.

Lemma set_weight_set_slot i w p dhcp :
  (i < length (preferred_server dhcp))%nat ->
  set_weight i w (set_slot i p dhcp) = set_slot i {| address := address p; weight := w |} dhcp.
Proof.
  intros Hi. unfold set_weight. rewrite slot_set_slot by done.
  apply set_slot_set_slot.
Qed.

(** The statements that store the weight, after the address has been
    stored in slot [i]. *)
Lemma assign_weight_spec i attr addr w0 dhcp log :
  (i < length (preferred_server dhcp))%nat ->
  (let dhcp := set_weight i 100 (set_slot i {| address := addr; weight := w0 |} dhcp) in
   match attr with
   | Some attrval => assign_weight i attrval dhcp log
   | None => (dhcp, log)
   end)
  = (set_slot i {| address := addr; weight := stored_weight attr |} dhcp,
     log ++ logged_warning attr).
Proof.
  intros Hi. cbv zeta. rewrite set_weight_set_slot by done. simpl.
  destruct attr as [token|]; simpl; [|by rewrite app_nil_r].
  unfold assign_weight.
  destruct (streq token "always"); [by rewrite set_weight_set_slot, app_nil_r|].
  destruct (streq token "never"); [by rewrite set_weight_set_slot, app_nil_r|].
  rewrite (set_weight_set_slot i (to_int (strtol token)) _ dhcp Hi).
  rewrite slot_set_slot by done. simpl. fold (weight_token_value token).
  destruct (Z.ltb_spec 100 (weight_token_value token)).
  - rewrite (set_weight_set_slot i 100 _ dhcp Hi), slot_set_slot by done. simpl.
    by rewrite Z.min_r by lia.
  - by rewrite Z.min_l, app_nil_r by lia.
Qed.

(** What one [<prefer-server ip=...>] element does when a slot is free and
    the address parses. *)
Lemma dhcp_child_prefer_server dhcp log child ip rc addr :
  node_name child = "prefer-server" ->
  xml_node_get_attr child "ip" = Some ip ->
  (num_preferred_servers dhcp < NI_DHCP_SERVER_PREFERENCES_MAX)%nat ->
  length (preferred_server dhcp) = NI_DHCP_SERVER_PREFERENCES_MAX ->
  ni_address_parse (address (slot dhcp (num_preferred_servers dhcp))) ip AF_UNSPEC
    = (rc, addr) ->
  0 <= rc ->
  dhcp_child dhcp log child
  = Next (set_slot (num_preferred_servers dhcp)
            {| address := addr; weight := stored_weight (xml_node_get_attr child "weight") |}
            (set_num (S (num_preferred_servers dhcp)) dhcp),
          log ++ logged_warning (xml_node_get_attr child "weight")).
Proof.
  intros Hname Hip Hnum Hlen Hparse Hrc.
  unfold dhcp_child. rewrite Hname.
  compare_element_names.
  cbv iota. rewrite Hip.
  destruct (Nat.leb_spec NI_DHCP_SERVER_PREFERENCES_MAX (num_preferred_servers dhcp));
    [lia|].
  change (slot (set_num (S (num_preferred_servers dhcp)) dhcp) (num_preferred_servers dhcp))
    with (slot dhcp (num_preferred_servers dhcp)).
  rewrite Hparse.
  destruct (Z.ltb_spec rc 0); [lia|].
  unfold set_address.
  change (slot (set_num (S (num_preferred_servers dhcp)) dhcp) (num_preferred_servers dhcp))
    with (slot dhcp (num_preferred_servers dhcp)).
  pose proof (assign_weight_spec (num_preferred_servers dhcp)
                (xml_node_get_attr child "weight") addr
                (weight (slot dhcp (num_preferred_servers dhcp)))
                (set_num (S (num_preferred_servers dhcp)) dhcp) log) as Hw.
  cbv zeta in Hw. rewrite Hw by (simpl; lia). reflexivity.
Qed.

(** The structure a loop iteration leaves behind, however it ends. *)
Definition state_of {S : Type} (f : flow S) : S :=
  match f with
  | Next s => s
  | Return _ s => s
  end.

(** The statements that store the weight write slot [i] and nothing else. *)
Lemma assign_weight_frame i attrval dhcp log :
  num_preferred_servers (fst (assign_weight i attrval dhcp log))
  = num_preferred_servers dhcp
  /\ length (preferred_server (fst (assign_weight i attrval dhcp log)))
     = length (preferred_server dhcp)
  /\ forall j, j <> i -> slot (fst (assign_weight i attrval dhcp log)) j = slot dhcp j.
Proof.
  unfold assign_weight, set_weight, set_slot, slot.
  repeat case_match; simpl; rewrite ?length_insert;
    (split; [done|split; [done|]]); intros j Hj;
    rewrite ?list_lookup_insert_ne by done; done.
Qed.

(** Case analysis of one iteration of the loop of
    [ni_config_parse_addrconf_dhcp], on what the goal says about it. *)
Ltac dhcp_child_paths child :=
  unfold dhcp_child;
  destruct (streq (node_name child) "vendor-class");
  destruct (if streq (node_name child) "lease-time" then node_cdata child else None);
  destruct (if streq (node_name child) "ignore-server"
            then xml_node_get_attr child "ip" else None);
  destruct (if streq (node_name child) "prefer-server"
            then xml_node_get_attr child "ip" else None);
  cbv zeta; cbn [num_preferred_servers address slot preferred_server];
  repeat match goal with
  | |- context [Nat.leb ?a ?b] => destruct (Nat.leb_spec a b)
  | |- context [ni_address_parse ?a ?b ?c] => destruct (ni_address_parse a b c)
  | |- context [Z.ltb ?a 0] => destruct (Z.ltb_spec a 0)
  | |- context [xml_node_get_attr child "weight"] =>
      destruct (xml_node_get_attr child "weight")
  | |- context [assign_weight ?i ?a ?d ?l] =>
      pose proof (assign_weight_frame i a d l);
      destruct (assign_weight i a d l)
  | |- context [streq (node_name child) "allow-update"] =>
      destruct (streq (node_name child) "allow-update")
  | |- context [ni_config_parse_update_targets ?m ?l ?c] =>
      destruct (ni_config_parse_update_targets m l c) as [[? ?] ?]
  end.

(** One iteration never lowers the count, never resizes the table and
    never writes a slot below the count. *)
Lemma dhcp_child_frame dhcp log child :
  (num_preferred_servers dhcp
   <= num_preferred_servers (fst (state_of (dhcp_child dhcp log child))))%nat
  /\ length (preferred_server (fst (state_of (dhcp_child dhcp log child))))
     = length (preferred_server dhcp)
  /\ forall j, (j < num_preferred_servers dhcp)%nat ->
       slot (fst (state_of (dhcp_child dhcp log child))) j = slot dhcp j.
Proof.
  dhcp_child_paths child.
  all: unfold set_weight, set_address, set_slot, set_num, slot in *; simpl in *.
  all: repeat match goal with H : _ /\ _ |- _ => destruct H end.
  all: rewrite ?length_insert in *.
  all: split; [lia|]; split; [congruence|].
  all: intros j Hj.
  all: repeat match goal with
       | H : forall j, j <> _ -> _ |- _ => rewrite H by lia; clear H
       end.
  all: rewrite ?list_lookup_insert_ne by lia; done.
Qed.

(** The only value an iteration returns from the function with is -1. *)
Lemma dhcp_child_returns_minus_one dhcp log child rc s :
  dhcp_child dhcp log child = Return rc s -> rc = -1.
Proof. dhcp_child_paths child; intros Heq; congruence. Qed.

Lemma dhcp_loop_continues before : forall dhcp log d l rest,
  dhcp_loop dhcp log before = (0, d, l) ->
  dhcp_loop dhcp log (before ++ rest) = dhcp_loop d l rest.
Proof.
  induction before as [|child before IH]; intros dhcp log d l rest Hbefore; simpl in *.
  - by injection Hbefore as <- <-.
  - destruct (dhcp_child dhcp log child) as [[d1 l1]|rc [d1 l1]] eqn:Hchild.
    + by apply IH.
    + apply dhcp_child_returns_minus_one in Hchild as ->. discriminate.
Qed.

Lemma dhcp_loop_frame children : forall dhcp log,
  (num_preferred_servers dhcp
   <= num_preferred_servers (snd (fst (dhcp_loop dhcp log children))))%nat
  /\ length (preferred_server (snd (fst (dhcp_loop dhcp log children))))
     = length (preferred_server dhcp)
  /\ forall j, (j < num_preferred_servers dhcp)%nat ->
       slot (snd (fst (dhcp_loop dhcp log children))) j = slot dhcp j.
Proof.
  induction children as [|child rest IH]; intros dhcp log; simpl; [done|].
  pose proof (dhcp_child_frame dhcp log child) as (Hnum & Hlen & Hslot).
  destruct (dhcp_child dhcp log child) as [[d l]|rc [d l]]; simpl in *; [|done].
  destruct (IH d l) as (Hnum' & Hlen' & Hslot').
  split; [lia|]. split; [congruence|].
  intros j Hj. rewrite Hslot' by lia. by apply Hslot.
Qed.

(** A [<prefer-server>] element with a parseable [ip] that is met, at any
    place among the children, while a slot is free: the parse up to and
    including the element, and the slot after the parse of all children. *)
Lemma prefer_server_at_any_place dhcp d log l n a c before child ip rc addr :
  length (preferred_server dhcp) = NI_DHCP_SERVER_PREFERENCES_MAX ->
  ni_config_parse_addrconf_dhcp dhcp log (xml_node n a c before) = (0, d, l) ->
  node_name child = "prefer-server" ->
  xml_node_get_attr child "ip" = Some ip ->
  (num_preferred_servers d < NI_DHCP_SERVER_PREFERENCES_MAX)%nat ->
  ni_address_parse (address (slot d (num_preferred_servers d))) ip AF_UNSPEC
    = (rc, addr) ->
  0 <= rc ->
  ni_config_parse_addrconf_dhcp dhcp log (xml_node n a c (before ++ [child]))
  = (0,
     set_slot (num_preferred_servers d)
       {| address := addr; weight := stored_weight (xml_node_get_attr child "weight") |}
       (set_num (S (num_preferred_servers d)) d),
     l ++ logged_warning (xml_node_get_attr child "weight"))
  /\ forall after,
       slot (snd (fst (ni_config_parse_addrconf_dhcp dhcp log
                         (xml_node n a c (before ++ child :: after)))))
         (num_preferred_servers d)
       = {| address := addr; weight := stored_weight (xml_node_get_attr child "weight") |}.
Proof.
  unfold ni_config_parse_addrconf_dhcp. simpl.
  intros Hlen Hbefore Hname Hip Hnum Hparse Hrc.
  assert (Hlen' : length (preferred_server d) = NI_DHCP_SERVER_PREFERENCES_MAX).
  { destruct (dhcp_loop_frame before dhcp log) as (_ & Hl & _).
    rewrite Hbefore in Hl. simpl in Hl. congruence. }
  split.
  - rewrite (dhcp_loop_continues before dhcp log d l) by done. simpl.
    by rewrite (dhcp_child_prefer_server d l child ip rc addr).
  - intros after.
    rewrite (dhcp_loop_continues before dhcp log d l) by done. simpl.
    rewrite (dhcp_child_prefer_server d l child ip rc addr) by done.
    match goal with |- context [dhcp_loop ?d1 ?l1 after] =>
      destruct (dhcp_loop_frame after d1 l1) as (_ & _ & Hslot)
    end.
    rewrite Hslot by (simpl; lia).
    apply slot_set_slot. simpl. lia.
Qed.

(** C5 on the code.  A [<prefer-server>] element with a parseable [ip],
    met at any place among the children while a slot is free, is stored in
    that slot, and no later child changes the slot.  The weight stored is 100
    when the weight attribute is absent or is [always] and -1 when it is
    [never].  For another token the value of [strtol] is first assigned to
    the [int] field and only then compared with 100.  When the value fits an
    [int], the weight is that value, or 100 with the clamping warning if the
    value exceeds 100.  When the value is above 100 and does not fit, and
    what arrives in the field is at most 100, that is what is stored, and no
    warning is logged. *)
Theorem prefer_server_weight_is_clamped_after_truncation
    (dhcp d : ni_config_dhcp) (log l : list log_entry)
    (n : string) (a : list (string * string)) (c : option string)
    (before : list xml_node_t) (child : xml_node_t)
    (ip : string) (rc : Z) (addr : ni_sockaddr_t) :
  length (preferred_server dhcp) = NI_DHCP_SERVER_PREFERENCES_MAX ->
  ni_config_parse_addrconf_dhcp dhcp log (xml_node n a c before) = (0, d, l) ->
  node_name child = "prefer-server" ->
  xml_node_get_attr child "ip" = Some ip ->
  (num_preferred_servers d < NI_DHCP_SERVER_PREFERENCES_MAX)%nat ->
  ni_address_parse (address (slot d (num_preferred_servers d))) ip AF_UNSPEC
    = (rc, addr) ->
  0 <= rc ->
  let attr := xml_node_get_attr child "weight" in
  let result := ni_config_parse_addrconf_dhcp dhcp log (xml_node n a c (before ++ [child])) in
  let stored := slot (snd (fst result)) (num_preferred_servers d) in
  fst (fst result) = 0
  /\ num_preferred_servers (snd (fst result)) = S (num_preferred_servers d)
  /\ address stored = addr
  /\ (attr = None \/ attr = Some "always" -> weight stored = 100 /\ snd result = l)
  /\ (attr = Some "never" -> weight stored = -1 /\ snd result = l)
  /\ (forall token, attr = Some token -> token <> "always" -> token <> "never" ->
        weight stored = Z.min (to_int (strtol token)) 100
        /\ (- 2 ^ 31 <= strtol token < 2 ^ 31 ->
            weight stored = Z.min (strtol token) 100
            /\ snd result
               = l ++ (if 100 <? strtol token then [warn_weight_clamped 100] else []))
        /\ (100 < strtol token -> to_int (strtol token) <= 100 ->
            2 ^ 31 <= strtol token
            /\ weight stored = to_int (strtol token)
            /\ snd result = l))
  /\ (forall after,
        slot (snd (fst (ni_config_parse_addrconf_dhcp dhcp log
                          (xml_node n a c (before ++ child :: after)))))
          (num_preferred_servers d)
        = stored).
Proof.
  intros Hlen Hbefore Hname Hip Hnum Hparse Hrc attr result stored.
  destruct (prefer_server_at_any_place dhcp d log l n a c before child ip rc addr)
    as [Hresult Hafter]; try done.
  assert (Hlen' : length (preferred_server d) = NI_DHCP_SERVER_PREFERENCES_MAX).
  { destruct (dhcp_loop_frame before dhcp log) as (_ & Hl & _).
    unfold ni_config_parse_addrconf_dhcp in Hbefore. simpl in Hbefore.
    rewrite Hbefore in Hl. simpl in Hl. congruence. }
  assert (Hstored : stored = {| address := addr; weight := stored_weight attr |}).
  { unfold stored, result. rewrite Hresult. simpl.
    apply slot_set_slot. simpl. lia. }
  unfold result. rewrite Hstored, Hresult. fold attr. simpl.
  split; [done|]. split; [done|]. split; [done|]. split; [|split; [|split]].
  - intros [->| ->]; simpl; by rewrite app_nil_r.
  - intros ->. simpl. by rewrite app_nil_r.
  - intros token -> Halways Hnever. simpl.
    apply streq_false in Halways. apply streq_false in Hnever.
    rewrite Halways, Hnever. unfold weight_token_value.
    split; [done|]. split.
    + intros Hfits. by rewrite to_int_small.
    + intros Habove Hwrapped.
      assert (2 ^ 31 <= strtol token).
      { destruct (Z.lt_ge_cases (strtol token) (2 ^ 31)) as [Hlt|]; [|done].
        rewrite to_int_small in Hwrapped by lia. lia. }
      split; [done|].
      destruct (Z.ltb_spec 100 (to_int (strtol token))); [lia|].
      by rewrite Z.min_l, app_nil_r by lia.
  - intros after. by rewrite Hafter.
Qed.

(** C9, as the code has it.  When the weight attribute is a token other
    than [always] and [never] and the value of [strtol] is at most 100 and
    not below the least [int], the element is accepted, that value is the
    weight stored, however negative, no warning is logged, and no later
    child changes the weight. *)
Theorem negative_weight_in_int_range_is_stored_as_is
    (dhcp d : ni_config_dhcp) (log l : list log_entry)
    (n : string) (a : list (string * string)) (c : option string)
    (before : list xml_node_t) (child : xml_node_t)
    (ip token : string) (rc : Z) (addr : ni_sockaddr_t) :
  length (preferred_server dhcp) = NI_DHCP_SERVER_PREFERENCES_MAX ->
  ni_config_parse_addrconf_dhcp dhcp log (xml_node n a c before) = (0, d, l) ->
  node_name child = "prefer-server" ->
  xml_node_get_attr child "ip" = Some ip ->
  (num_preferred_servers d < NI_DHCP_SERVER_PREFERENCES_MAX)%nat ->
  ni_address_parse (address (slot d (num_preferred_servers d))) ip AF_UNSPEC
    = (rc, addr) ->
  0 <= rc ->
  xml_node_get_attr child "weight" = Some token ->
  token <> "always" -> token <> "never" ->
  - 2 ^ 31 <= strtol token <= 100 ->
  let result := ni_config_parse_addrconf_dhcp dhcp log (xml_node n a c (before ++ [child])) in
  fst (fst result) = 0
  /\ num_preferred_servers (snd (fst result)) = S (num_preferred_servers d)
  /\ weight (slot (snd (fst result)) (num_preferred_servers d)) = strtol token
  /\ snd result = l
  /\ (forall after,
        weight (slot (snd (fst (ni_config_parse_addrconf_dhcp dhcp log
                                  (xml_node n a c (before ++ child :: after)))))
                  (num_preferred_servers d))
        = strtol token).
Proof.
  intros Hlen Hbefore Hname Hip Hnum Hparse Hrc Hattr Halways Hnever Hrange result.
  destruct (prefer_server_at_any_place dhcp d log l n a c before child ip rc addr)
    as [Hresult Hafter]; try done.
  assert (Hlen' : length (preferred_server d) = NI_DHCP_SERVER_PREFERENCES_MAX).
  { destruct (dhcp_loop_frame before dhcp log) as (_ & Hl & _).
    unfold ni_config_parse_addrconf_dhcp in Hbefore. simpl in Hbefore.
    rewrite Hbefore in Hl. simpl in Hl. congruence. }
  assert (Hweight : stored_weight (xml_node_get_attr child "weight") = strtol token
                    /\ logged_warning (xml_node_get_attr child "weight") = []).
  { rewrite Hattr. simpl.
    apply streq_false in Halways. apply streq_false in Hnever.
    rewrite Halways, Hnever. unfold weight_token_value.
    rewrite to_int_small by lia.
    destruct (Z.ltb_spec 100 (strtol token)); [lia|].
    by rewrite Z.min_l by lia. }
  destruct Hweight as [Hw Hlog].
  unfold result. rewrite Hresult. simpl.
  rewrite slot_set_slot by (simpl; lia). simpl.
  rewrite Hw, Hlog, app_nil_r.
  split; [done|]. split; [done|]. split; [done|]. split; [done|].
  intros after. by rewrite Hafter.
Qed.

Lemma assign_weight_count i attrval dhcp log :
  num_preferred_servers (fst (assign_weight i attrval dhcp log))
  = num_preferred_servers dhcp.
Proof. unfold assign_weight. repeat case_match; reflexivity. Qed.

(** One iteration leaves the count as it was or, when a slot was free,
    raises it by one. *)
Lemma dhcp_child_count dhcp log child :
  let count' := num_preferred_servers (fst (state_of (dhcp_child dhcp log child))) in
  count' = num_preferred_servers dhcp
  \/ ((num_preferred_servers dhcp < NI_DHCP_SERVER_PREFERENCES_MAX)%nat
      /\ count' = S (num_preferred_servers dhcp)).
Proof.
  unfold dhcp_child.
  destruct (streq (node_name child) "vendor-class");
  destruct (if streq (node_name child) "lease-time" then node_cdata child else None);
  destruct (if streq (node_name child) "ignore-server"
            then xml_node_get_attr child "ip" else None);
  destruct (if streq (node_name child) "prefer-server"
            then xml_node_get_attr child "ip" else None) as [attrval|];
  cbv zeta; cbn [num_preferred_servers address slot preferred_server];
  repeat match goal with
  | |- context [Nat.leb ?a ?b] => destruct (Nat.leb_spec a b)
  | |- context [ni_address_parse ?a ?b ?c] => destruct (ni_address_parse a b c)
  | |- context [Z.ltb ?a 0] => destruct (Z.ltb_spec a 0)
  | |- context [xml_node_get_attr child "weight"] =>
      destruct (xml_node_get_attr child "weight")
  | |- context [assign_weight ?i ?a ?d ?l] =>
      pose proof (assign_weight_count i a d l);
      destruct (assign_weight i a d l)
  | |- context [streq (node_name child) "allow-update"] =>
      destruct (streq (node_name child) "allow-update")
  | |- context [ni_config_parse_update_targets ?m ?l ?c] =>
      destruct (ni_config_parse_update_targets m l c) as [[? ?] ?]
  end;
  simpl in *; try (left; congruence); try (right; split; [lia|congruence]).
Qed.

(** Once the table is full, an iteration ends with the next iteration and
    leaves the count and the table as they were. *)
Lemma dhcp_child_full dhcp log child :
  (NI_DHCP_SERVER_PREFERENCES_MAX <= num_preferred_servers dhcp)%nat ->
  exists dhcp' log',
    dhcp_child dhcp log child = Next (dhcp', log')
    /\ num_preferred_servers dhcp' = num_preferred_servers dhcp
    /\ preferred_server dhcp' = preferred_server dhcp.
Proof.
  intros Hfull. unfold dhcp_child.
  destruct (streq (node_name child) "vendor-class");
  destruct (if streq (node_name child) "lease-time" then node_cdata child else None);
  destruct (if streq (node_name child) "ignore-server"
            then xml_node_get_attr child "ip" else None);
  destruct (if streq (node_name child) "prefer-server"
            then xml_node_get_attr child "ip" else None) as [attrval|];
  cbv zeta; cbn [num_preferred_servers address slot preferred_server];
  repeat match goal with
  | |- context [Nat.leb ?a ?b] => destruct (Nat.leb_spec a b); [|lia]
  | |- context [streq (node_name child) "allow-update"] =>
      destruct (streq (node_name child) "allow-update")
  | |- context [ni_config_parse_update_targets ?m ?l ?c] =>
      destruct (ni_config_parse_update_targets m l c) as [[? ?] ?]
  end;
  eexists _, _; (split; [reflexivity|]); simpl; split; reflexivity.
Qed.

Lemma dhcp_loop_count children : forall dhcp log,
  (num_preferred_servers dhcp <= NI_DHCP_SERVER_PREFERENCES_MAX)%nat ->
  (num_preferred_servers (snd (fst (dhcp_loop dhcp log children)))
   <= NI_DHCP_SERVER_PREFERENCES_MAX)%nat.
Proof.
  induction children as [|child rest IH]; intros dhcp log Hle; [done|].
  simpl. pose proof (dhcp_child_count dhcp log child) as Hstep.
  destruct (dhcp_child dhcp log child) as [[d l]|rc [d l]]; simpl in *.
  - apply IH. lia.
  - lia.
Qed.

Lemma dhcp_loop_full children : forall dhcp log,
  (NI_DHCP_SERVER_PREFERENCES_MAX <= num_preferred_servers dhcp)%nat ->
  exists dhcp' log',
    dhcp_loop dhcp log children = (0, dhcp', log')
    /\ num_preferred_servers dhcp' = num_preferred_servers dhcp
    /\ preferred_server dhcp' = preferred_server dhcp.
Proof.
  induction children as [|child rest IH]; intros dhcp log Hfull.
  - by exists dhcp, log.
  - simpl. destruct (dhcp_child_full dhcp log child Hfull) as (d & l & -> & Hn & Hp).
    destruct (IH d l) as (d' & l' & -> & Hn' & Hp'); [lia|].
    exists d', l'. repeat split; congruence.
Qed.

(** A [<prefer-server>] element met when the table is full changes nothing;
    the warning is logged when the element has an [ip] attribute. *)
Lemma dhcp_child_prefer_server_full dhcp log child :
  node_name child = "prefer-server" ->
  (NI_DHCP_SERVER_PREFERENCES_MAX <= num_preferred_servers dhcp)%nat ->
  dhcp_child dhcp log child
  = Next (dhcp, log ++ match xml_node_get_attr child "ip" with
                       | Some _ => [warn_too_many_prefer_server]
                       | None => []
                       end).
Proof.
  intros Hname Hfull. unfold dhcp_child. rewrite Hname.
  compare_element_names.
  cbv iota zeta.
  destruct (xml_node_get_attr child "ip").
  - destruct (Nat.leb_spec NI_DHCP_SERVER_PREFERENCES_MAX (num_preferred_servers dhcp));
      [done|lia].
  - by rewrite app_nil_r.
Qed.

(** C10.  The count of server preferences never exceeds
    [NI_DHCP_SERVER_PREFERENCES_MAX]: a parse that starts within the bound
    ends within it, whatever it returns, and so does every parse that starts
    from the new configuration.  Once the count has reached the maximum, a
    [<prefer-server>] element with an [ip] attribute is skipped with the
    warning and changes nothing else, and the parse of any remaining children
    returns 0 and leaves count and table as they were. *)
Theorem prefer_server_count_is_bounded
    (dhcp : ni_config_dhcp) (log : list log_entry) (node : xml_node_t)
    (n : string) (a : list (string * string)) (c : option string)
    (child : xml_node_t) (ip : string) (rest : list xml_node_t) :
  (num_preferred_servers dhcp <= NI_DHCP_SERVER_PREFERENCES_MAX)%nat ->
  (num_preferred_servers (snd (fst (ni_config_parse_addrconf_dhcp dhcp log node)))
   <= NI_DHCP_SERVER_PREFERENCES_MAX)%nat
  /\ (num_preferred_servers (snd (fst (ni_config_parse_addrconf_dhcp dhcp_new log node)))
      <= NI_DHCP_SERVER_PREFERENCES_MAX)%nat
  /\ (num_preferred_servers dhcp = NI_DHCP_SERVER_PREFERENCES_MAX ->
      (node_name child = "prefer-server" ->
       xml_node_get_attr child "ip" = Some ip ->
       dhcp_child dhcp log child = Next (dhcp, log ++ [warn_too_many_prefer_server])
       /\ ni_config_parse_addrconf_dhcp dhcp log (xml_node n a c (child :: rest))
          = ni_config_parse_addrconf_dhcp dhcp (log ++ [warn_too_many_prefer_server])
              (xml_node n a c rest)
       /\ fst (fst (ni_config_parse_addrconf_dhcp dhcp log (xml_node n a c (child :: rest))))
          = 0)
      /\ exists dhcp' log',
           ni_config_parse_addrconf_dhcp dhcp log node = (0, dhcp', log')
           /\ num_preferred_servers dhcp' = NI_DHCP_SERVER_PREFERENCES_MAX
           /\ preferred_server dhcp' = preferred_server dhcp).
Proof.
  intros Hle. unfold ni_config_parse_addrconf_dhcp.
  split; [by apply dhcp_loop_count|].
  split; [apply dhcp_loop_count; simpl; lia|].
  intros Hfull. split.
  - intros Hname Hip.
    pose proof (dhcp_child_prefer_server_full dhcp log child Hname) as Hskip.
    rewrite Hip in Hskip. rewrite Hskip by lia. split; [done|].
    simpl. rewrite Hskip by lia. split; [done|].
    destruct (dhcp_loop_full rest dhcp (log ++ [warn_too_many_prefer_server]))
      as (d & l & Heq & _); [lia|].
    by rewrite Heq.
  - destruct (dhcp_loop_full (node_children node) dhcp log) as (d & l & Heq & Hn & Hp);
      [lia|].
    exists d, l. rewrite Heq. repeat split; congruence.
Qed.

End Dhcp.

Definition prefer_server (attrs : list (string * string)) : xml_node_t :=
  element "prefer-server" attrs [].

(** After one server has been stored, [weight="4000000000"] is stored in
    the second slot as -294967296, without a warning. *)
Lemma prefer_server_weight_is_clamped_after_truncation_witness :
  strtol "4000000000" = 4000000000
  /\ weight (slot (snd (fst (ni_config_parse_addrconf_dhcp (ext := demo_ext) dhcp_new []
                     (xml_node "dhcp" [] None
                        [prefer_server [("ip", "10.0.0.1")];
                         prefer_server [("ip", "10.0.0.2");
                                        ("weight", "4000000000")]])))) 1)
     = -294967296
  /\ snd (ni_config_parse_addrconf_dhcp (ext := demo_ext) dhcp_new []
            (xml_node "dhcp" [] None
               [prefer_server [("ip", "10.0.0.1")];
                prefer_server [("ip", "10.0.0.2"); ("weight", "4000000000")]]))
     = [].
Proof.
  destruct (prefer_server_weight_is_clamped_after_truncation (ext := demo_ext)
              dhcp_new
              (snd (fst (ni_config_parse_addrconf_dhcp (ext := demo_ext) dhcp_new []
                           (xml_node "dhcp" [] None
                              [prefer_server [("ip", "10.0.0.1")]]))))
              [] [] "dhcp" [] None
              [prefer_server [("ip", "10.0.0.1")]]
              (prefer_server [("ip", "10.0.0.2"); ("weight", "4000000000")])
              "10.0.0.2" 0 "10.0.0.2")
    as (_ & _ & _ & _ & _ & Hnumber & _);
    [reflexivity | reflexivity | reflexivity | reflexivity | simpl; lia
    | reflexivity | lia |].
  destruct (Hnumber "4000000000" eq_refl ltac:(discriminate) ltac:(discriminate))
    as (_ & _ & Hwrapped).
  destruct Hwrapped as (_ & Hweight & Hlog);
    [vm_compute; reflexivity | vm_compute; discriminate |].
  split; [reflexivity|]. split; [exact Hweight | exact Hlog].
Defined.

(** After one server has been stored, [weight="-42"] is stored in the second
    slot as -42. *)
Lemma negative_weight_in_int_range_is_stored_as_is_witness :
  weight (slot (snd (fst (ni_config_parse_addrconf_dhcp (ext := demo_ext) dhcp_new []
                  (xml_node "dhcp" [] None
                     [prefer_server [("ip", "10.0.0.1")];
                      prefer_server [("ip", "10.0.0.2"); ("weight", "-42")]])))) 1)
  = -42
  /\ fst (fst (ni_config_parse_addrconf_dhcp (ext := demo_ext) dhcp_new []
                 (xml_node "dhcp" [] None
                    [prefer_server [("ip", "10.0.0.1")];
                     prefer_server [("ip", "10.0.0.2"); ("weight", "-42")]]))) = 0.
Proof.
  destruct (negative_weight_in_int_range_is_stored_as_is (ext := demo_ext)
              dhcp_new
              (snd (fst (ni_config_parse_addrconf_dhcp (ext := demo_ext) dhcp_new []
                           (xml_node "dhcp" [] None
                              [prefer_server [("ip", "10.0.0.1")]]))))
              [] [] "dhcp" [] None
              [prefer_server [("ip", "10.0.0.1")]]
              (prefer_server [("ip", "10.0.0.2"); ("weight", "-42")])
              "10.0.0.2" "-42" 0 "10.0.0.2")
    as (Hrc & _ & Hweight & _);
    [reflexivity | reflexivity | reflexivity | reflexivity | simpl; lia
    | reflexivity | lia | reflexivity | discriminate | discriminate
    | vm_compute; split; discriminate |].
  split; [exact Hweight | exact Hrc].
Defined.

(** C9 fails on the code: the integer that [strtol] reads from
    [weight="-4000000000"] is negative, hence at most 100, yet the weight
    stored is 100 and the clamping warning is logged; the same holds of
    -2147483649, the first value below the least [int]. *)
Lemma negative_weight_below_int_range_is_clamped :
  strtol "-4000000000" = -4000000000
  /\ weight (slot (snd (fst (ni_config_parse_addrconf_dhcp (ext := demo_ext) dhcp_new []
                     (xml_node "dhcp" [] None
                        [prefer_server [("ip", "10.0.0.1");
                                        ("weight", "-4000000000")]])))) 0)
     = 100
  /\ snd (ni_config_parse_addrconf_dhcp (ext := demo_ext) dhcp_new []
            (xml_node "dhcp" [] None
               [prefer_server [("ip", "10.0.0.1"); ("weight", "-4000000000")]]))
     = [warn_weight_clamped 100]
  /\ strtol "-2147483649" = -2147483649
  /\ weight (slot (snd (fst (ni_config_parse_addrconf_dhcp (ext := demo_ext) dhcp_new []
                     (xml_node "dhcp" [] None
                        [prefer_server [("ip", "10.0.0.1");
                                        ("weight", "-2147483649")]])))) 0)
     = 100.
Proof. repeat split; vm_compute; reflexivity. Qed.

(** Three servers where the table has room for two: the third is not
    counted. *)
Lemma prefer_server_count_is_bounded_witness :
  (num_preferred_servers
     (snd (fst (ni_config_parse_addrconf_dhcp (ext := demo_ext) dhcp_new []
                  (element "dhcp" []
                     [prefer_server [("ip", "10.0.0.1")];
                      prefer_server [("ip", "10.0.0.2")];
                      prefer_server [("ip", "10.0.0.3")]])))) <= 2)%nat
  /\ fst (fst (ni_config_parse_addrconf_dhcp (ext := demo_ext) dhcp_new []
                 (element "dhcp" []
                    [prefer_server [("ip", "10.0.0.1")];
                     prefer_server [("ip", "10.0.0.2")];
                     prefer_server [("ip", "10.0.0.3")]]))) = 0
  /\ snd (ni_config_parse_addrconf_dhcp (ext := demo_ext) dhcp_new []
            (element "dhcp" []
               [prefer_server [("ip", "10.0.0.1")];
                prefer_server [("ip", "10.0.0.2")];
                prefer_server [("ip", "10.0.0.3")]]))
     = [warn_too_many_prefer_server].
Proof.
  destruct (prefer_server_count_is_bounded (ext := demo_ext) dhcp_new []
              (element "dhcp" []
                 [prefer_server [("ip", "10.0.0.1")];
                  prefer_server [("ip", "10.0.0.2")];
                  prefer_server [("ip", "10.0.0.3")]])
              "dhcp" [] None (prefer_server [("ip", "10.0.0.3")]) "10.0.0.3" [])
    as (Hbound & _); [simpl; lia|].
  split; [exact Hbound | split; reflexivity].
Defined.

(** ** Loading the configuration *)

Section Load.

Context {ext : externals}.

Definition parses (expr : string) : bool :=
  match xpath_format_parse expr with
  | Some _ => true
  | None => false
  end.

(** A child of an extension element that lacks a required attribute or
    carries an expression that does not parse. *)
Definition child_is_faulty (child : xml_node_t) : bool :=
  if streq (node_name child) "action" then
    match xml_node_get_attr child "name", xml_node_get_attr child "command" with
    | None, _ => true
    | Some _, Some expr => negb (parses expr)
    | Some _, None => false
    end
  else if streq (node_name child) "environment" then
    match xml_node_get_attr child "putenv" with
    | None => true
    | Some expr => negb (parses expr)
    end
  else false.

(** The extension is one that the parser passes over because its type is
    not recognized. *)
Definition extension_is_skipped (map_type : option (string -> Z)) (node : xml_node_t)
    : bool :=
  match map_type, xml_node_get_attr node "type" with
  | Some map_type, Some attrval => map_type attrval <? 0
  | _, _ => false
  end.

Definition pidfile_is_faulty (node : xml_node_t) : bool :=
  match xml_node_get_child node "pidfile" with
  | Some child =>
      match xml_node_get_attr child "path" with
      | Some expr => negb (parses expr)
      | None => false
      end
  | None => false
  end.

(** An extension element without a name; or one that is not passed over and
    lacks the type it needs, has a pidfile path that does not parse, or has
    a faulty child. *)
Definition extension_is_faulty (map_type : option (string -> Z)) (node : xml_node_t)
    : bool :=
  streq (node_name node) "extension"
  && match xml_node_get_attr node "name" with
     | None => true
     | Some _ =>
         negb (extension_is_skipped map_type node)
         && (match map_type, xml_node_get_attr node "type" with
             | Some _, None => true
             | _, _ => false
             end
             || pidfile_is_faulty node
             || existsb child_is_faulty (node_children node))
     end.

(** The category element that the parser reads has a faulty extension. *)
Definition category_is_faulty (map_type : option (string -> Z)) (node : xml_node_t)
    (exclass : string) : bool :=
  match xml_node_get_child node exclass with
  | Some category => existsb (extension_is_faulty map_type) (node_children category)
  | None => false
  end.

Lemma parse_xpath_rc expr log :
  fst (fst (ni_config_parse_xpath expr log)) = if parses expr then 0 else -1.
Proof.
  unfold ni_config_parse_xpath, parses. by destruct (xpath_format_parse expr).
Qed.

Lemma extension_child_return ex log child rc s :
  extension_child ex log child = Return rc s -> rc = -1.
Proof.
  unfold extension_child. intros H.
  repeat case_match; simplify_eq; reflexivity.
Qed.

Lemma extension_child_faulty ex log child :
  child_is_faulty child = true ->
  exists s, extension_child ex log child = Return (-1) s.
Proof.
  unfold child_is_faulty, extension_child, parses, ni_config_parse_xpath.
  intros H. repeat case_match; simplify_eq; simpl in *; try discriminate; eauto.
Qed.

Lemma extension_children_loop_return children : forall ex log rc s,
  extension_children_loop ex log children = Return rc s -> rc = -1.
Proof.
  induction children as [|child rest IH]; intros ex log rc s H; [discriminate|].
  simpl in H. destruct (extension_child ex log child) as [[ex' log']|rc' s'] eqn:Hc.
  - eauto.
  - simplify_eq. by eapply extension_child_return.
Qed.

Lemma extension_children_loop_faulty children : forall ex log,
  existsb child_is_faulty children = true ->
  exists s, extension_children_loop ex log children = Return (-1) s.
Proof.
  induction children as [|child rest IH]; intros ex log H; [discriminate|].
  simpl in *. destruct (extension_child ex log child) as [[ex' log']|rc' s'] eqn:Hc.
  - apply orb_true_iff in H as [H|H].
    + destruct (extension_child_faulty ex log child H) as [s Hs]. congruence.
    + by apply IH.
  - apply extension_child_return in Hc as ->. eauto.
Qed.

Lemma extension_node_return exts log exclass map_type node rc s :
  extension_node exts log exclass map_type node = Return rc s -> rc = -1.
Proof.
  unfold extension_node. intros H.
  repeat (case_match; simplify_eq; try reflexivity).
  all: try match goal with
       | H : extension_children_loop _ _ _ = Return _ _ |- _ =>
           by apply extension_children_loop_return in H
       end.
Qed.

Lemma extension_node_faulty exts log exclass map_type node :
  extension_is_faulty map_type node = true ->
  exists s, extension_node exts log exclass map_type node = Return (-1) s.
Proof.
  unfold extension_is_faulty, extension_node. intros H.
  apply andb_true_iff in H as [Hext H]. rewrite Hext. simpl.
  destruct (xml_node_get_attr node "name") as [name|]; [|eauto].
  apply andb_true_iff in H as [Hskip H].
  apply negb_true_iff in Hskip. unfold extension_is_skipped in Hskip.
  assert (Hrest : forall type log,
    (match map_type, xml_node_get_attr node "type" with
     | Some _, None => true
     | _, _ => false
     end = false) ->
    exists s,
      (let ex := ni_extension_new name type in
       let ex :=
         match xml_node_get_attr node "family" with
         | Some attrval =>
             set_supported_af
               (fold_left family_token (strtok attrval ",") (supported_af ex)) ex
         | None => set_supported_af UINT_MAX ex
         end in
       let pidfile :=
         match xml_node_get_child node "pidfile" with
         | Some child =>
             match xml_node_get_attr child "path" with
             | Some attrval =>
                 let '(rc, fmt, log) := ni_config_parse_xpath attrval log in
                 (rc, set_pid_file_path fmt ex, log)
             | None => (0, ex, log)
             end
         | None => (0, ex, log)
         end in
       let '(rc, ex, log) := pidfile in
       if rc <? 0 then Return (-1) (exts ++ [ex], log)
       else
         match extension_children_loop ex log (node_children node) with
         | Next (ex, log) => Next (exts ++ [ex], log)
         | Return rc (ex, log) => Return rc (exts ++ [ex], log)
         end) = Return (-1) s).
  { intros type log0 Htype. rewrite Htype in H. simpl in H. cbv zeta.
    unfold pidfile_is_faulty in H.
    set (ex := match xml_node_get_attr node "family" with
               | Some attrval => _
               | None => _
               end).
    clearbody ex.
    assert (Hchildren : existsb child_is_faulty (node_children node) = true ->
            forall ex log, exists s,
              match extension_children_loop ex log (node_children node) with
              | Next (ex, log) => Next (exts ++ [ex], log)
              | Return rc (ex, log) => Return rc (exts ++ [ex], log)
              end = Return (-1) s).
    { intros Hc ex' log'.
      destruct (extension_children_loop_faulty (node_children node) ex' log' Hc)
        as [[ex'' log''] ->]. eauto. }
    destruct (xml_node_get_child node "pidfile") as [child|]; simpl in *; [|eauto].
    destruct (xml_node_get_attr child "path") as [expr|]; simpl in *; [|eauto].
    unfold ni_config_parse_xpath, parses in *.
    destruct (xpath_format_parse expr); simpl in *; eauto. }
  destruct map_type as [map_type|]; [|by apply Hrest].
  destruct (xml_node_get_attr node "type") as [attrval|]; [|eauto].
  rewrite Hskip. simpl. rewrite Hskip. by apply Hrest.
Qed.

Lemma extensions_loop_faulty exclass map_type nodes : forall exts log,
  existsb (extension_is_faulty map_type) nodes = true ->
  fst (fst (extensions_loop exts log exclass map_type nodes)) = -1.
Proof.
  induction nodes as [|node rest IH]; intros exts log H; [discriminate|].
  simpl in *.
  destruct (extension_node exts log exclass map_type node) as [[exts' log']|rc [exts' log']] eqn:Hn.
  - apply orb_true_iff in H as [H|H].
    + destruct (extension_node_faulty exts log exclass map_type node H) as [s Hs].
      congruence.
    + by apply IH.
  - by apply extension_node_return in Hn as ->.
Qed.

Lemma parse_extensions_faulty exts log node exclass map_type :
  category_is_faulty map_type node exclass = true ->
  fst (fst (ni_config_parse_extensions exts log node exclass map_type)) = -1.
Proof.
  unfold category_is_faulty, ni_config_parse_extensions.
  destruct (xml_node_get_child node exclass); [|discriminate].
  apply extensions_loop_faulty.
Qed.

Lemma parse_afinfo_rc afi afname node : fst (ni_config_parse_afinfo afi afname node) = 0.
Proof. unfold ni_config_parse_afinfo. by case_match. Qed.

Lemma parse_fslocation_rc fsloc name node :
  fst (ni_config_parse_fslocation fsloc name node) = 0.
Proof. unfold ni_config_parse_fslocation. by case_match. Qed.

Lemma register_api_extensions_live exts : forall e,
  live_configs (register_api_extensions exts e) = live_configs e.
Proof.
  induction exts as [|ex rest IH]; intros e; [done|].
  simpl. repeat case_match; rewrite IH; reflexivity.
Qed.

Lemma failed_load_rc exts log node exclass map_type rc exts' log' :
  category_is_faulty map_type node exclass = true ->
  ni_config_parse_extensions exts log node exclass map_type = (rc, exts', log') ->
  (rc <? 0) = true.
Proof.
  intros Hfaulty Heq.
  pose proof (parse_extensions_faulty exts log node exclass map_type Hfaulty) as Hrc.
  rewrite Heq in Hrc. simpl in Hrc. by subst rc.
Qed.

(** C7.  When [ni_config_parse] fails it returns NULL and the configuration
    object it had allocated, if any, has been freed; nothing is registered
    with the REST nodes.  It fails when the document cannot be read, when
    the document has no [<config>] element, and when one of the categories
    [addrconf], [linktype] and [api] holds an extension element that lacks
    its name or, not being passed over for its type, lacks the type it needs,
    has a pidfile path that does not parse, or has an action without name, an
    environment without putenv, or a command or putenv expression that does
    not parse. *)
Theorem config_load_is_atomic (filename : string) (e : effects) :
  let result := ni_config_parse filename e in
  (fst result = None ->
     live_configs (snd result) = live_configs e
     /\ update_callbacks (snd result) = update_callbacks e)
  /\ (forall conf, fst result = Some conf ->
        live_configs (snd result) = S (live_configs e))
  /\ (xml_document_read filename = None -> fst result = None)
  /\ (forall root,
        xml_document_read filename = Some root ->
        xml_node_get_child root "config" = None -> fst result = None)
  /\ (forall root node,
        xml_document_read filename = Some root ->
        xml_node_get_child root "config" = Some node ->
        category_is_faulty (Some ni_addrconf_name_to_type) node "addrconf" = true
        \/ category_is_faulty (Some ni_linktype_name_to_type) node "linktype" = true
        \/ category_is_faulty None node "api" = true ->
        fst result = None).
Proof.
  intros result. unfold result, ni_config_parse.
  split; [|split; [|split; [|split]]].
  - intros H. repeat case_match; simplify_eq; simpl in *; try discriminate; done.
  - intros conf H. repeat case_match; simplify_eq; simpl in *; try discriminate.
    all: by rewrite register_api_extensions_live.
  - intros ->. reflexivity.
  - intros root -> ->. reflexivity.
  - intros root node -> -> Hfaulty.
    repeat case_match; simplify_eq; simpl in *; try reflexivity.
    all: exfalso.
    all: destruct Hfaulty as [Hf|[Hf|Hf]];
      match goal with
      | H : ni_config_parse_extensions _ _ _ _ _ = _ |- _ =>
          pose proof (failed_load_rc _ _ _ _ _ _ _ _ Hf H); congruence
      end.
Qed.

End Load.

(** A configuration whose only extension has no name. *)
Definition nameless_extension_document : xml_node_t :=
  element "document" []
    [element "config" []
       [element "api" []
          [element "extension" []
             [element "action" [("name", "update"); ("command", "/bin/true")] []]]]].

Definition fresh_effects : effects :=
  {| log := []; live_configs := 0; update_callbacks := [] |}.

(** Loading it fails and leaves no configuration object behind. *)
Lemma config_load_is_atomic_witness :
  fst (ni_config_parse (ext := demo_externals (Some nameless_extension_document))
         "config.xml" fresh_effects) = None
  /\ live_configs
       (snd (ni_config_parse (ext := demo_externals (Some nameless_extension_document))
               "config.xml" fresh_effects)) = 0%nat.
Proof.
  destruct (config_load_is_atomic
              (ext := demo_externals (Some nameless_extension_document))
              "config.xml" fresh_effects)
    as (Hnone & _ & _ & _ & Hfaulty).
  pose proof (Hfaulty nameless_extension_document
                (element "config" []
                   [element "api" []
                      [element "extension" []
                         [element "action" [("name", "update"); ("command", "/bin/true")]
                            []]]])
                eq_refl eq_refl (or_intror (or_intror eq_refl))) as Hfail.
  split; [exact Hfail|].
  exact (proj1 (Hnone Hfail)).
Defined.

End ConfigFacts.

(** * More of model.c: lookups, hierarchies with cycles, the dispatcher *)

Module ModelCoverage.

Import Model ModelFacts.

#[local] Existing Instance serves_dec.

(** ** Lookups in the registries *)

Lemma get_class_app mem reg class name :
  ni_objectmodel_get_class mem (reg ++ [class]) name
  = match ni_objectmodel_get_class mem reg name with
    | Some found => Some found
    | None => if bool_decide (class_name (class_at mem class) = Some name)
              then Some class else None
    end.
Proof.
  induction reg as [|c reg IH]; simpl; [done|].
  destruct (bool_decide (class_name (class_at mem c) = Some name)); [done|]. apply IH.
Qed.

Lemma get_class_sound mem reg name found :
  ni_objectmodel_get_class mem reg name = Some found ->
  found ∈ reg /\ class_name (class_at mem found) = Some name.
Proof.
  induction reg as [|c reg IH]; simpl; [discriminate|].
  case_bool_decide as Hc.
  - intros [= <-]. split; [apply list_elem_of_here|done].
  - intros H. destruct (IH H) as [Hin Hn]. split; [by apply list_elem_of_further|done].
Qed.

(** Registration followed by lookup.  After a class named [name] has been
    registered, [ni_objectmodel_get_class] finds a class of that name: the
    one that held the name before, if there was one, and otherwise the new
    one.  Lookups of every other name give what they gave before. *)
Theorem register_class_then_get_class
    (mem : memory) (class : class_ptr) (reg reg' : list class_ptr) (name : string) :
  ni_objectmodel_register_class mem class reg = Returns reg' ->
  class_name (class_at mem class) = Some name ->
  ni_objectmodel_get_class mem reg' name
    = Some (default class (ni_objectmodel_get_class mem reg name))
  /\ class_name (class_at mem (default class (ni_objectmodel_get_class mem reg name)))
     = Some name
  /\ (forall other, other <> name ->
        ni_objectmodel_get_class mem reg' other = ni_objectmodel_get_class mem reg other)
  /\ length reg' = S (length reg)
  /\ (length reg' <= NI_DBUS_CLASSES_MAX)%nat.
Proof.
  intros Hreg Hname.
  unfold ni_objectmodel_register_class, ni_assert in Hreg.
  rewrite Hname, bool_decide_true in Hreg by eauto. simpl in Hreg.
  destruct (Nat.ltb_spec (length reg) NI_DBUS_CLASSES_MAX) as [Hlt|]; [|discriminate].
  simpl in Hreg. injection Hreg as <-.
  split; [|split; [|split; [|split]]].
  - rewrite get_class_app, Hname, bool_decide_true by done.
    by destruct (ni_objectmodel_get_class mem reg name).
  - destruct (ni_objectmodel_get_class mem reg name) as [found|] eqn:Hfound; simpl; [|done].
    by apply get_class_sound in Hfound as [_ ?].
  - intros other Hother. rewrite get_class_app, Hname.
    rewrite bool_decide_false by congruence.
    by destruct (ni_objectmodel_get_class mem reg other).
  - rewrite length_app. simpl. lia.
  - rewrite length_app. simpl. lia.
Qed.

Lemma register_class_then_get_class_witness :
  ni_objectmodel_get_class demo_memory [Base; Child] "Child" = Some Child
  /\ ni_objectmodel_get_class demo_memory [Base; Child] "Base" = Some Base.
Proof.
  destruct (register_class_then_get_class demo_memory Child [Base] [Base; Child] "Child")
    as (Hfound & _ & Hother & _); [reflexivity|reflexivity|].
  split; [exact Hfound|].
  exact (Hother "Base" ltac:(discriminate)).
Defined.

(** The service has a name, and it is not [name]. *)
Definition named_otherwise (mem : memory) (name : string) (service : service_ptr) : Prop :=
  exists other, service_name (service_at mem service) = Some other /\ other <> name.

(** [ni_objectmodel_service_by_name] walks the registry in index order and
    compares the name of each entry with [strcmp].  It returns the first
    entry that carries the name, all entries before it having other names;
    it returns NULL exactly when every entry has a name and none is the name
    looked for; and it dereferences a NULL pointer exactly when an entry
    without a name is reached before any entry that carries the name.
    Registration accepts such an entry.  When every registered service has a
    name the lookup cannot crash. *)
Theorem service_by_name_is_first_match
    (mem : memory) (reg : list service_ptr) (name : string) :
  (forall service,
     ni_objectmodel_service_by_name mem reg name = Found service <->
     exists i, reg !! i = Some service
               /\ service_name (service_at mem service) = Some name
               /\ forall j earlier, (j < i)%nat -> reg !! j = Some earlier ->
                    named_otherwise mem name earlier)
  /\ (ni_objectmodel_service_by_name mem reg name = NotFound <->
      forall service, service ∈ reg -> named_otherwise mem name service)
  /\ (ni_objectmodel_service_by_name mem reg name = NullDereference <->
      exists i nameless,
        reg !! i = Some nameless
        /\ service_name (service_at mem nameless) = None
        /\ forall j earlier, (j < i)%nat -> reg !! j = Some earlier ->
             named_otherwise mem name earlier)
  /\ ((forall service, service ∈ reg ->
         is_Some (service_name (service_at mem service))) ->
      ni_objectmodel_service_by_name mem reg name <> NullDereference)
  /\ (forall nameless,
        service_name (service_at mem nameless) = None ->
        (length reg < NI_DBUS_SERVICES_MAX)%nat ->
        ni_objectmodel_service_by_name mem reg name = NotFound ->
        ni_objectmodel_register_service nameless reg = Returns (reg ++ [nameless])
        /\ ni_objectmodel_service_by_name mem (reg ++ [nameless]) name = NullDereference).
Proof.
  assert (Hwalk : forall reg,
    (forall service,
       ni_objectmodel_service_by_name mem reg name = Found service <->
       exists i, reg !! i = Some service
                 /\ service_name (service_at mem service) = Some name
                 /\ forall j earlier, (j < i)%nat -> reg !! j = Some earlier ->
                      named_otherwise mem name earlier)
    /\ (ni_objectmodel_service_by_name mem reg name = NotFound <->
        forall service, service ∈ reg -> named_otherwise mem name service)
    /\ (ni_objectmodel_service_by_name mem reg name = NullDereference <->
        exists i nameless,
          reg !! i = Some nameless
          /\ service_name (service_at mem nameless) = None
          /\ forall j earlier, (j < i)%nat -> reg !! j = Some earlier ->
               named_otherwise mem name earlier)).
  { clear reg. induction reg as [|s reg (IHfound & IHnull & IHcrash)]; simpl.
    - split; [|split].
      + intros service. split; [discriminate|]. intros (i & Hi & _). by destruct i.
      + split; [|done]. intros _ service Hin. by apply not_elem_of_nil in Hin.
      + split; [discriminate|]. intros (i & nameless & Hi & _). by destruct i.
    - assert (Hshift : forall i : nat,
        (forall j earlier, (j < S i)%nat -> (s :: reg) !! j = Some earlier ->
           named_otherwise mem name earlier) <->
        named_otherwise mem name s
        /\ forall j earlier, (j < i)%nat -> reg !! j = Some earlier ->
             named_otherwise mem name earlier).
      { intros i. split.
        - intros Hall. split; [apply (Hall 0%nat); [lia|done]|].
          intros j earlier Hj Hearlier. apply (Hall (S j)); [lia|done].
        - intros [Hs Hall] [|j] earlier Hj Hearlier; simpl in Hearlier.
          + by injection Hearlier as <-.
          + apply (Hall j); [lia|done]. }
      destruct (service_name (service_at mem s)) as [n|] eqn:Hname.
      + unfold streq. destruct (String.eqb_spec n name) as [->|Hne].
        * assert (Hs : ~ named_otherwise mem name s).
          { intros (other & Hother & Hdiff). congruence. }
          split; [|split].
          -- intros service. split.
             ++ intros [= <-]. exists 0%nat. split; [done|]. split; [done|].
                intros j earlier Hj. lia.
             ++ intros (i & Hi & _ & Hfirst). destruct i as [|i]; [by injection Hi as ->|].
                apply Hshift in Hfirst as [? _]. done.
          -- split; [discriminate|]. intros Hall. exfalso.
             apply Hs, Hall, list_elem_of_here.
          -- split; [discriminate|]. intros (i & nameless & Hi & Hnone & Hfirst).
             destruct i as [|i].
             ++ injection Hi as <-. congruence.
             ++ apply Hshift in Hfirst as [? _]. done.
        * assert (Hs : named_otherwise mem name s) by (exists n; done).
          split; [|split].
          -- intros service. rewrite IHfound. split.
             ++ intros (i & Hi & Hn & Hfirst). exists (S i).
                split; [done|]. split; [done|]. by apply Hshift.
             ++ intros (i & Hi & Hn & Hfirst). destruct i as [|i].
                ** injection Hi as <-. congruence.
                ** exists i. split; [done|]. split; [done|]. by apply Hshift in Hfirst as [_ ?].
          -- rewrite IHnull. split.
             ++ intros Hall service Hin.
                apply elem_of_cons in Hin as [->|Hin]; [done|by apply Hall].
             ++ intros Hall service Hin. apply Hall. by apply list_elem_of_further.
          -- rewrite IHcrash. split.
             ++ intros (i & nameless & Hi & Hnone & Hfirst). exists (S i), nameless.
                split; [done|]. split; [done|]. by apply Hshift.
             ++ intros (i & nameless & Hi & Hnone & Hfirst). destruct i as [|i].
                ** injection Hi as <-. congruence.
                ** exists i, nameless. split; [done|]. split; [done|].
                   by apply Hshift in Hfirst as [_ ?].
      + assert (Hs : ~ named_otherwise mem name s).
        { intros (other & Hother & _). congruence. }
        split; [|split].
        * intros service. split; [discriminate|].
          intros (i & Hi & Hn & Hfirst). destruct i as [|i].
          -- injection Hi as <-. congruence.
          -- apply Hshift in Hfirst as [? _]. done.
        * split; [discriminate|]. intros Hall. exfalso.
          apply Hs, Hall, list_elem_of_here.
        * split; [|done]. intros _. exists 0%nat, s. split; [done|]. split; [done|].
          intros j earlier Hj. lia. }
  destruct (Hwalk reg) as (Hfound & Hnull & Hcrash).
  split; [done|]. split; [done|]. split; [done|]. split.
  - intros Hnamed Hdies. apply Hcrash in Hdies as (i & nameless & Hi & Hnone & _).
    destruct (Hnamed nameless) as [n Hn]; [by eapply list_elem_of_lookup_2|]. congruence.
  - intros nameless Hnone Hroom Hmissing. split.
    + unfold ni_objectmodel_register_service, ni_assert.
      by destruct (Nat.ltb_spec (length reg) NI_DBUS_SERVICES_MAX); [|lia].
    + apply (Hwalk (reg ++ [nameless])). exists (length reg), nameless.
      split; [by rewrite list_lookup_middle|]. split; [done|].
      intros j earlier Hj Hearlier. rewrite lookup_app_l in Hearlier by done.
      apply (proj1 Hnull Hmissing). by eapply list_elem_of_lookup_2.
Qed.

Lemma service_by_class_sound mem reg class service :
  ni_objectmodel_service_by_class mem reg class = Some service ->
  service ∈ reg /\ compatible (service_at mem service) = class.
Proof.
  induction reg as [|s reg IH]; simpl; [discriminate|].
  case_bool_decide as Hs.
  - intros [= <-]. split; [apply list_elem_of_here|done].
  - intros H. destruct (IH H) as [Hin Hc]. split; [by apply list_elem_of_further|done].
Qed.

(** The lookup by class and the binder agree: a service that
    [ni_objectmodel_service_by_class] returns for the class of an object, or
    for one of its ancestors, is among the services attached to the object
    when it is bound. *)
Theorem service_by_class_is_attached
    (mem : memory) (reg : registries) (object : ni_dbus_object_t)
    (log : list log_entry) (c ancestor : class_ptr) (chain : list class_ptr)
    (fuel : nat) (service : service_ptr) :
  object_class object = Some c ->
  superclass_chain mem (Some c) chain ->
  (length chain <= fuel)%nat ->
  ancestor ∈ chain ->
  ni_objectmodel_service_by_class mem (ni_objectmodel_service_registry reg) (Some ancestor)
    = Some service ->
  exists object',
    ni_objectmodel_bind_compatible_interfaces fuel mem reg object log
      = Returns (true, object', log)
    /\ service ∈ interfaces object'.
Proof.
  intros Hclass Hchain Hfuel Hancestor Hfound.
  apply service_by_class_sound in Hfound as [Hin Hcompatible].
  exists (attach object (filter (serves mem chain) (ni_objectmodel_service_registry reg))).
  split.
  - unfold ni_objectmodel_bind_compatible_interfaces. rewrite Hclass.
    rewrite <- (attach_nil object) at 1.
    rewrite (bind_each_service_chain mem chain fuel); [done| |done].
    by rewrite Hclass.
  - simpl. apply elem_of_app. right. apply list_elem_of_filter. split; [|done].
    exists ancestor. done.
Qed.

Lemma service_by_class_is_attached_witness :
  exists object',
    ni_objectmodel_bind_compatible_interfaces 2 demo_memory demo_registries
      child_object [] = Returns (true, object', [])
    /\ S1 ∈ interfaces object'.
Proof.
  apply (service_by_class_is_attached demo_memory demo_registries child_object []
           Child Base [Child; Base] 2 S1).
  - reflexivity.
  - apply chain_step, chain_step, chain_end.
  - simpl. lia.
  - apply list_elem_of_further, list_elem_of_here.
  - reflexivity.
Defined.

(** ** Binding in an arbitrary hierarchy *)

(** [reachable mem class c]: the walk that starts at [class] and follows
    [superclass] visits [c]. *)
Inductive reachable (mem : memory) : option class_ptr -> class_ptr -> Prop :=
| reachable_here c : reachable mem (Some c) c
| reachable_up c d :
    reachable mem (superclass (class_at mem c)) d -> reachable mem (Some c) d.

Lemma bind_walk_classes_returns fuel mem object service : forall class object',
  bind_walk_classes fuel mem object service class = Returns object' ->
  object' = object
  \/ (object' = ni_dbus_object_register_service object service
      /\ exists c, compatible (service_at mem service) = Some c /\ reachable mem class c).
Proof.
  induction fuel as [|fuel IH]; intros class object' H.
  - destruct class; simpl in H; [discriminate|]. injection H as <-. auto.
  - destruct class as [c|]; simpl in H; [|injection H as <-; auto].
    case_bool_decide as Hc.
    + injection H as <-. right. split; [done|]. exists c. split; [done|constructor].
    + destruct (IH _ _ H) as [->|(-> & d & Hd & Hreach)]; [auto|].
      right. split; [done|]. exists d. split; [done|]. by apply reachable_up.
Qed.

Lemma bind_walk_classes_never_aborts fuel mem object service : forall class why,
  bind_walk_classes fuel mem object service class <> Aborts why.
Proof.
  induction fuel as [|fuel IH]; intros class why; destruct class as [c|]; simpl;
    try discriminate.
  case_bool_decide; [discriminate|apply IH].
Qed.

Lemma bind_each_service_returns fuel mem services : forall object attached0 object',
  bind_each_service fuel mem services (attach object attached0) = Returns object' ->
  exists attached,
    object' = attach object (attached0 ++ attached)
    /\ attached `sublist_of` services
    /\ Forall (fun s => exists c, compatible (service_at mem s) = Some c
                                  /\ reachable mem (object_class object) c) attached.
Proof.
  induction services as [|service rest IH]; intros object attached0 object' H.
  - simpl in H. injection H as <-. exists []. rewrite app_nil_r.
    split; [done|]. split; [constructor|constructor].
  - cbn [bind_each_service] in H.
    change (object_class (attach object attached0)) with (object_class object) in H.
    destruct (bind_walk_classes fuel mem (attach object attached0) service
                (object_class object)) as [o| |] eqn:Hwalk; simpl in H; try discriminate.
    apply bind_walk_classes_returns in Hwalk as [->|(-> & c & Hc & Hreach)].
    + destruct (IH _ _ _ H) as (attached & -> & Hsub & Hall).
      exists attached. split; [done|]. split; [by apply sublist_cons|done].
    + rewrite attach_register in H.
      destruct (IH _ _ _ H) as (attached & -> & Hsub & Hall).
      exists (service :: attached). rewrite <- app_assoc. simpl.
      split; [done|]. split; [by apply sublist_skip|].
      constructor; [|done]. exists c. done.
Qed.

(** Whatever the hierarchy, cyclic or not, and whatever the fuel: when the
    binder returns, the object has its path and class, the services it had
    are still attached, in front, and what the pass added is a selection of
    registry entries in registry order, each entry used at most once and
    each compatible with a class that the walk from the object's class
    visits.  A service that is compatible with no class is never added. *)
Theorem bind_only_adds_compatible_services
    (fuel : nat) (mem : memory) (reg : registries) (object object' : ni_dbus_object_t)
    (log log' : list log_entry) (rc : bool) :
  ni_objectmodel_bind_compatible_interfaces fuel mem reg object log
    = Returns (rc, object', log') ->
  path object' = path object
  /\ object_class object' = object_class object
  /\ exists attached,
       interfaces object' = interfaces object ++ attached
       /\ attached `sublist_of` ni_objectmodel_service_registry reg
       /\ (forall s, s ∈ attached ->
             exists c, compatible (service_at mem s) = Some c
                       /\ reachable mem (object_class object) c)
       /\ (rc = false -> attached = [] /\ object_class object = None).
Proof.
  unfold ni_objectmodel_bind_compatible_interfaces. intros H.
  destruct (object_class object) as [c|] eqn:Hclass.
  - rewrite <- (attach_nil object) in H at 1.
    destruct (bind_each_service fuel mem (ni_objectmodel_service_registry reg)
                (attach object [])) as [o| |] eqn:Hloop; simpl in H; try discriminate.
    injection H as <- <- <-.
    apply bind_each_service_returns in Hloop as (attached & -> & Hsub & Hall).
    simpl. split; [done|]. split; [done|]. exists attached.
    split; [done|]. split; [done|]. split; [|discriminate].
    intros s Hs. rewrite Forall_forall in Hall. rewrite <- Hclass. by apply Hall.
  - injection H as <- <- <-. split; [done|]. split; [done|]. exists [].
    rewrite app_nil_r. split; [done|]. split; [apply sublist_nil_l|].
    split; [|done]. intros s Hs. by apply not_elem_of_nil in Hs.
Qed.

Lemma bind_only_adds_compatible_services_witness :
  exists attached,
    [S1] = [] ++ attached
    /\ attached `sublist_of` [S1]
    /\ (forall s, s ∈ attached ->
          exists c, compatible (service_at demo_memory s) = Some c
                    /\ reachable demo_memory (Some Child) c)
    /\ (true = false -> attached = [] /\ Some Child = None).
Proof.
  exact (proj2 (proj2 (bind_only_adds_compatible_services 2 demo_memory demo_registries
                         child_object
                         {| path := "/com/suse/Wicked/Child"; object_class := Some Child;
                            interfaces := [S1] |}
                         [] [] true eq_refl))).
Defined.

(** ** A hierarchy with a cycle *)

(** The class that the walk from [class] reaches after [n] steps. *)
Fixpoint nth_superclass (mem : memory) (n : nat) (class : option class_ptr)
    : option class_ptr :=
  match n, class with
  | O, _ => class
  | S n, Some c => nth_superclass mem n (superclass (class_at mem c))
  | S _, None => None
  end.

Lemma bind_walk_classes_diverges mem object service fuel : forall class,
  (forall n, exists c, nth_superclass mem n class = Some c
                       /\ compatible (service_at mem service) <> Some c) ->
  bind_walk_classes fuel mem object service class = OutOfFuel.
Proof.
  induction fuel as [|fuel IH]; intros class Hinf.
  - destruct (Hinf 0%nat) as (c & Hc & _). simpl in Hc. subst class. reflexivity.
  - destruct (Hinf 0%nat) as (c & Hc & Hne). simpl in Hc. subst class. simpl.
    rewrite bool_decide_false by done. apply IH.
    intros n. apply (Hinf (S n)).
Qed.

Lemma bind_walk_classes_class fuel mem object service class object' :
  bind_walk_classes fuel mem object service class = Returns object' ->
  object_class object' = object_class object.
Proof.
  intros H. by apply bind_walk_classes_returns in H as [->|[-> _]].
Qed.

Lemma bind_each_service_diverges mem service fuel services : forall object,
  service ∈ services ->
  (forall n, exists c, nth_superclass mem n (object_class object) = Some c
                       /\ compatible (service_at mem service) <> Some c) ->
  bind_each_service fuel mem services object = OutOfFuel.
Proof.
  induction services as [|s rest IH]; intros object Hin Hinf.
  - by apply not_elem_of_nil in Hin.
  - simpl. apply elem_of_cons in Hin as [<-|Hin].
    + by rewrite bind_walk_classes_diverges.
    + destruct (bind_walk_classes fuel mem object s (object_class object))
        as [o|why|] eqn:Hwalk; simpl; [| |done].
      * apply IH; [done|].
        by rewrite (bind_walk_classes_class _ _ _ _ _ _ Hwalk).
      * by apply bind_walk_classes_never_aborts in Hwalk.
Qed.

(** When the superclass links from the object's class never reach NULL and
    some registered service is compatible with none of the classes on the
    way, the binder does not return: no amount of fuel is enough. *)
Theorem bind_does_not_return_on_cycle
    (mem : memory) (reg : registries) (object : ni_dbus_object_t)
    (log : list log_entry) (service : service_ptr) :
  service ∈ ni_objectmodel_service_registry reg ->
  (forall n, exists c, nth_superclass mem n (object_class object) = Some c
                       /\ compatible (service_at mem service) <> Some c) ->
  forall fuel,
    ni_objectmodel_bind_compatible_interfaces fuel mem reg object log = OutOfFuel.
Proof.
  intros Hin Hinf fuel. unfold ni_objectmodel_bind_compatible_interfaces.
  destruct (Hinf 0%nat) as (c & Hc & _). simpl in Hc. rewrite Hc.
  by rewrite (bind_each_service_diverges mem service).
Qed.

(** A class that is its own superclass, and a service for another class. *)
Definition cyclic_memory : memory :=
  {| class_at := fun _ => {| class_name := Some "Loop"; superclass := Some 1%positive |};
     service_at := fun _ => {| service_name := Some "S"; compatible := Some 2%positive;
                               methods := [] |} |}.

Lemma cyclic_memory_never_ends n :
  exists c, nth_superclass cyclic_memory n (Some 1%positive) = Some c
            /\ compatible (service_at cyclic_memory 1%positive) <> Some c.
Proof.
  exists 1%positive. split; [|discriminate].
  induction n as [|n IH]; [reflexivity|exact IH].
Qed.

Lemma bind_does_not_return_on_cycle_witness :
  ni_objectmodel_bind_compatible_interfaces 1000 cyclic_memory
    {| ni_objectmodel_class_registry := [1%positive];
       ni_objectmodel_service_registry := [1%positive] |}
    {| path := "/loop"; object_class := Some 1%positive; interfaces := [] |} []
  = OutOfFuel.
Proof.
  apply (bind_does_not_return_on_cycle cyclic_memory
           {| ni_objectmodel_class_registry := [1%positive];
              ni_objectmodel_service_registry := [1%positive] |}
           {| path := "/loop"; object_class := Some 1%positive; interfaces := [] |} []
           1%positive).
  - apply list_elem_of_here.
  - exact cyclic_memory_never_ends.
Defined.

(** ** The dispatcher on all its paths *)

(** Everything of the world but the file system, the log and the plan of
    [ni_mkstemp] is as before. *)
Definition same_traffic (w w' : world) : Prop :=
  outbox w' = outbox w /\ running w' = running w
  /\ live_instances w' = live_instances w.

Lemma ni_mkstemp_creates w :
  same_traffic w (snd (ni_mkstemp w))
  /\ match fst (ni_mkstemp w) with
     | Some name => files w !! name = None
                    /\ files (snd (ni_mkstemp w)) = <[name := ""]> (files w)
     | None => files (snd (ni_mkstemp w)) = files w
     end.
Proof.
  unfold ni_mkstemp, same_traffic. destruct (mkstemp_plan w) as [|[name|] plan]; simpl; [done| |done].
  case_bool_decide as Hused; simpl; [done|].
  split; [done|]. split; [|done].
  destruct (files w !! name) eqn:Hfile; [|done]. exfalso. apply Hused. eauto.
Qed.

(** The argument file exists with the marshalled call when a name is
    returned; otherwise the file system is as it was. *)
Lemma write_message_creates flt msg w :
  same_traffic w (snd (__ni_objectmodel_write_message flt msg w))
  /\ match fst (__ni_objectmodel_write_message flt msg w) with
     | Some name =>
         files w !! name = None
         /\ files (snd (__ni_objectmodel_write_message flt msg w))
            = <[name := wire msg]> (files w)
         /\ marshal_fails flt = false /\ write_fails flt = false
     | None => files (snd (__ni_objectmodel_write_message flt msg w)) = files w
     end.
Proof.
  unfold __ni_objectmodel_write_message.
  destruct (marshal_fails flt); [by unfold same_traffic|].
  pose proof (ni_mkstemp_creates w) as [Hsame Hfiles].
  destruct (ni_mkstemp w) as [[name|] w1]; simpl in *; [|by unfold same_traffic in *].
  destruct Hfiles as [Hfresh Hfiles].
  destruct (write_fails flt); simpl.
  - split; [by unfold same_traffic in *|].
    rewrite Hfiles. by apply delete_insert_id.
  - split; [by unfold same_traffic in *|].
    rewrite Hfiles. split; [done|]. split; [apply insert_insert_eq|done].
Qed.

Lemma empty_tempfile_creates w :
  same_traffic w (snd (__ni_objectmodel_empty_tempfile w))
  /\ match fst (__ni_objectmodel_empty_tempfile w) with
     | Some name => files w !! name = None
                    /\ files (snd (__ni_objectmodel_empty_tempfile w))
                       = <[name := ""]> (files w)
     | None => files (snd (__ni_objectmodel_empty_tempfile w)) = files w
     end.
Proof.
  unfold __ni_objectmodel_empty_tempfile.
  pose proof (ni_mkstemp_creates w) as [Hsame Hfiles].
  destruct (ni_mkstemp w) as [[name|] w1]; simpl in *; by unfold same_traffic in *.
Qed.


(** The dispatcher never removes or rewrites a file that was there when it
    was called, on any path. *)
Theorem extension_call_keeps_existing_files
    (config : list ni_extension_t) (flt : faults) (object : ni_dbus_object_t)
    (method : ni_dbus_method_t) (call : ni_dbus_message_t) (w : world)
    (name contents : string) :
  files w !! name = Some contents ->
  files (snd (ni_objectmodel_extension_call config flt object method call w)) !! name
  = Some contents.
Proof.
  intros Hfile. unfold ni_objectmodel_extension_call.
  destruct (ni_config_find_extension config (interface call)) as [extension|]; [|done].
  destruct (ni_extension_script_find extension (method_name method)) as [command|];
    [|done].
  unfold ni_process_instance_new.
  set (w0 := set_live (S (live_instances w)) w).
  pose proof (write_message_creates flt call w0) as [_ Hfiles1].
  destruct (__ni_objectmodel_write_message flt call w0) as [[argfile|] w1];
    simpl in Hfiles1; [|simpl; by rewrite Hfiles1].
  destruct Hfiles1 as (Hfresh1 & Hfiles1 & _).
  assert (Hkept1 : files w1 !! name = Some contents).
  { rewrite Hfiles1, lookup_insert_ne; [done|]. intros ->. simpl in Hfresh1. congruence. }
  pose proof (empty_tempfile_creates w1) as [_ Hfiles2].
  destruct (__ni_objectmodel_empty_tempfile w1) as [[retfile|] w2];
    simpl in Hfiles2; [|simpl; by rewrite Hfiles2].
  destruct Hfiles2 as (Hfresh2 & Hfiles2).
  assert (Hkept2 : files w2 !! name = Some contents).
  { rewrite Hfiles2, lookup_insert_ne; [done|]. intros ->. congruence. }
  by destruct (run_fails flt).
Qed.

Lemma extension_call_keeps_existing_files_witness :
  files (snd (ni_objectmodel_extension_call demo_config no_faults child_object
                demo_method demo_call
                {| files := {[ "/etc/passwd" := "root" ]}; outbox := []; running := [];
                   live_instances := 0; log := [];
                   mkstemp_plan := [Some "/etc/passwd"; Some "/tmp/wicked.arg"] |}))
    !! "/etc/passwd" = Some "root".
Proof.
  apply (extension_call_keeps_existing_files demo_config no_faults child_object
           demo_method demo_call
           {| files := {[ "/etc/passwd" := "root" ]}; outbox := []; running := [];
              live_instances := 0; log := [];
              mkstemp_plan := [Some "/etc/passwd"; Some "/tmp/wicked.arg"] |}
           "/etc/passwd" "root").
  apply lookup_singleton_eq.
Defined.

(** A dispatch that fails before the argument file is handed to the process
    (no such extension, no such action, the call cannot be marshalled, the
    file cannot be created or cannot be written) leaves the file system
    exactly as it was. *)
Theorem extension_call_early_failure_restores_files
    (config : list ni_extension_t) (flt : faults) (object : ni_dbus_object_t)
    (method : ni_dbus_method_t) (call : ni_dbus_message_t) (w : world) :
  ni_config_find_extension config (interface call) = None
  \/ (exists extension,
        ni_config_find_extension config (interface call) = Some extension
        /\ ni_extension_script_find extension (method_name method) = None)
  \/ marshal_fails flt = true
  \/ write_fails flt = true
  \/ fst (ni_mkstemp w) = None ->
  fst (ni_objectmodel_extension_call config flt object method call w) = false
  /\ files (snd (ni_objectmodel_extension_call config flt object method call w))
     = files w.
Proof.
  intros Hearly. unfold ni_objectmodel_extension_call.
  destruct (ni_config_find_extension config (interface call)) as [extension|] eqn:Hfind;
    [|done].
  destruct (ni_extension_script_find extension (method_name method)) as [command|]
    eqn:Hcmd; [|done].
  unfold ni_process_instance_new.
  set (w0 := set_live (S (live_instances w)) w).
  pose proof (write_message_creates flt call w0) as [_ Hfiles1].
  assert (Hnone : fst (__ni_objectmodel_write_message flt call w0) = None).
  { destruct Hearly as [?|[(ext' & Hext & Hnone)|[Hm|[Hwr|Hmk]]]]; try congruence.
    - unfold __ni_objectmodel_write_message. by rewrite Hm.
    - destruct (fst (__ni_objectmodel_write_message flt call w0));
        [destruct Hfiles1 as (_ & _ & _ & ?); congruence|done].
    - unfold __ni_objectmodel_write_message.
      destruct (marshal_fails flt); [done|].
      assert (fst (ni_mkstemp w0) = None) as Hmk0.
      { revert Hmk. unfold ni_mkstemp, w0. simpl.
        destruct (mkstemp_plan w) as [|[n|] plan]; simpl; try done.
        by case_bool_decide. }
      by destruct (ni_mkstemp w0) as [[n|] w1]. }
  destruct (__ni_objectmodel_write_message flt call w0) as [[argfile|] w1];
    simpl in *; [discriminate|].
  by rewrite Hfiles1.
Qed.

Lemma extension_call_early_failure_restores_files_witness :
  fst (ni_objectmodel_extension_call demo_config
         {| marshal_fails := false; write_fails := true; run_fails := false;
            send_fails := false |}
         child_object demo_method demo_call
         (demo_world [Some "/tmp/wicked.arg"; Some "/tmp/wicked.ret"])) = false
  /\ files (snd (ni_objectmodel_extension_call demo_config
                   {| marshal_fails := false; write_fails := true; run_fails := false;
                      send_fails := false |}
                   child_object demo_method demo_call
                   (demo_world [Some "/tmp/wicked.arg"; Some "/tmp/wicked.ret"])))
     = ∅.
Proof.
  apply (extension_call_early_failure_restores_files demo_config
           {| marshal_fails := false; write_fails := true; run_fails := false;
              send_fails := false |}
           child_object demo_method demo_call
           (demo_world [Some "/tmp/wicked.arg"; Some "/tmp/wicked.ret"])).
  right. right. right. left. reflexivity.
Defined.

(** What the dispatcher does when both temporary files can be made. *)
Lemma extension_call_with_both_files config flt object method call w
    extension command argfile retfile plan :
  ni_config_find_extension config (interface call) = Some extension ->
  ni_extension_script_find extension (method_name method) = Some command ->
  marshal_fails flt = false ->
  write_fails flt = false ->
  mkstemp_plan w = Some argfile :: Some retfile :: plan ->
  files w !! argfile = None ->
  files w !! retfile = None ->
  argfile <> retfile ->
  let w2 := set_files (insert retfile "")
              (set_plan plan
                 (set_files (insert argfile (wire call))
                    (set_files (insert argfile "")
                       (set_plan (Some retfile :: plan)
                          (set_live (S (live_instances w)) w))))) in
  ni_objectmodel_extension_call config flt object method call w
  = if run_fails flt
    then (false,
          ni_process_instance_free
            (ni_dbus_connection_send_error call
               {| error_name := DBUS_ERROR_FAILED;
                  error_message := ("%s: error executing method %s",
                                    ["ni_objectmodel_extension_call"; method_name method]) |}
               (ni_error (error_executing_method "ni_objectmodel_extension_call"
                            (method_name method)) w2)))
    else (true,
          start_running call
            {| process := command;
               environ := [("WICKED_ARGFILE", argfile); ("WICKED_RETFILE", retfile)];
               status := 0 |} w2).
Proof.
  intros Hext Hcmd Hmarshal Hwrite Hplan Hfresh1 Hfresh2 Hne w2.
  unfold ni_objectmodel_extension_call. rewrite Hext, Hcmd.
  unfold ni_process_instance_new, __ni_objectmodel_write_message.
  rewrite Hmarshal. unfold ni_mkstemp at 1. simpl. rewrite Hplan, Hfresh1. simpl.
  rewrite Hwrite. unfold __ni_objectmodel_empty_tempfile, ni_mkstemp. simpl.
  rewrite lookup_insert_ne by done. rewrite lookup_insert_ne by done.
  rewrite Hfresh2. simpl. reflexivity.
Qed.

(** When the process cannot be started after both temporary files have been
    made, the dispatcher logs the error, answers with the error reply for
    the failed execution, frees the process instance and returns FALSE, and
    both files stay in the file system. *)
Theorem extension_call_run_failure_keeps_both_files
    (config : list ni_extension_t) (flt : faults) (object : ni_dbus_object_t)
    (method : ni_dbus_method_t) (call : ni_dbus_message_t) (w : world)
    (extension : ni_extension_t) (command : ni_process_t)
    (argfile retfile : string) (plan : list (option string)) :
  ni_config_find_extension config (interface call) = Some extension ->
  ni_extension_script_find extension (method_name method) = Some command ->
  marshal_fails flt = false ->
  write_fails flt = false ->
  run_fails flt = true ->
  mkstemp_plan w = Some argfile :: Some retfile :: plan ->
  files w !! argfile = None ->
  files w !! retfile = None ->
  argfile <> retfile ->
  let result := ni_objectmodel_extension_call config flt object method call w in
  fst result = false
  /\ outbox (snd result)
     = outbox w ++ [error_reply call DBUS_ERROR_FAILED
                      ("%s: error executing method %s",
                       ["ni_objectmodel_extension_call"; method_name method])]
  /\ log (snd result)
     = log w ++ [error_executing_method "ni_objectmodel_extension_call"
                   (method_name method)]
  /\ running (snd result) = running w
  /\ live_instances (snd result) = live_instances w
  /\ files (snd result) !! argfile = Some (wire call)
  /\ files (snd result) !! retfile = Some "".
Proof.
  intros Hext Hcmd Hmarshal Hwrite Hrun Hplan Hfresh1 Hfresh2 Hne result.
  unfold result.
  rewrite (extension_call_with_both_files config flt object method call w
             extension command argfile retfile plan) by done.
  rewrite Hrun. simpl.
  split; [done|]. split; [done|]. split; [done|]. split; [done|]. split; [done|].
  split.
  - rewrite lookup_insert_ne by done. rewrite insert_insert_eq. apply lookup_insert_eq.
  - apply lookup_insert_eq.
Qed.

Lemma extension_call_run_failure_keeps_both_files_witness :
  fst (ni_objectmodel_extension_call demo_config
         {| marshal_fails := false; write_fails := false; run_fails := true;
            send_fails := false |}
         child_object demo_method demo_call
         (demo_world [Some "/tmp/wicked.arg"; Some "/tmp/wicked.ret"])) = false
  /\ files (snd (ni_objectmodel_extension_call demo_config
                   {| marshal_fails := false; write_fails := false; run_fails := true;
                      send_fails := false |}
                   child_object demo_method demo_call
                   (demo_world [Some "/tmp/wicked.arg"; Some "/tmp/wicked.ret"])))
       !! "/tmp/wicked.arg" = Some "l.bar"
  /\ files (snd (ni_objectmodel_extension_call demo_config
                   {| marshal_fails := false; write_fails := false; run_fails := true;
                      send_fails := false |}
                   child_object demo_method demo_call
                   (demo_world [Some "/tmp/wicked.arg"; Some "/tmp/wicked.ret"])))
       !! "/tmp/wicked.ret" = Some "".
Proof.
  destruct (extension_call_run_failure_keeps_both_files demo_config
              {| marshal_fails := false; write_fails := false; run_fails := true;
                 send_fails := false |}
              child_object demo_method demo_call
              (demo_world [Some "/tmp/wicked.arg"; Some "/tmp/wicked.ret"])
              {| extension_name := "com.suse.Wicked.Foo";
                 actions := [ {| action_name := "bar";
                                 action_process := Some {| command := "/bin/true" |} |} ] |}
              {| command := "/bin/true" |} "/tmp/wicked.arg" "/tmp/wicked.ret" [])
    as (Hrc & _ & _ & _ & _ & Harg & Hret); try reflexivity; try discriminate.
  split; [exact Hrc|]. split; [exact Harg|exact Hret].
Defined.

(** ** Binding extensions *)










End ModelCoverage.

(** * More of config.c: masks, the DHCP section, extensions, the load *)

Module ConfigCoverage.

Import Config ConfigFacts.
Local Open Scope Z_scope.

Section Masks.

Context {ext : externals}.

Lemma to_uint_land z : to_uint z = Z.land z (Z.ones 32).
Proof. unfold to_uint. by rewrite Z.land_ones by lia. Qed.

Lemma to_uint_lor a b : to_uint (Z.lor a b) = Z.lor (to_uint a) (to_uint b).
Proof. rewrite !to_uint_land. apply Z.land_lor_distr_l. Qed.

Lemma to_uint_to_uint z : to_uint (to_uint z) = to_uint z.
Proof. apply to_uint_small, to_uint_range. Qed.









End Masks.


(** ** The DHCP section as a whole *)

(** The address of a [<prefer-server>] element that has one. *)
Definition preferred (child : xml_node_t) : option string :=
  if streq (node_name child) "prefer-server" then xml_node_get_attr child "ip" else None.

(** The address of an [<ignore-server>] element that has one. *)
Definition ignored (child : xml_node_t) : option string :=
  if streq (node_name child) "ignore-server" then xml_node_get_attr child "ip" else None.

(** A weight that fits an [int] and does not exceed 100. *)
Definition bounded `{ext : externals} (pref : ni_server_preference_t) : Prop :=
  - 2 ^ 31 <= weight pref <= 100.

Lemma bounded_slot `{ext : externals} (l : list ni_server_preference_t) i :
  Forall bounded l -> bounded (default zero_preference (l !! i)).
Proof.
  intros Hall. destruct (l !! i) as [pref|] eqn:Hi; simpl.
  - rewrite Forall_forall in Hall. apply Hall. by eapply list_elem_of_lookup_2.
  - unfold bounded. simpl. lia.
Qed.

Lemma assign_weight_fields `{ext : externals} i attrval dhcp log :
  num_preferred_servers (fst (assign_weight i attrval dhcp log))
  = num_preferred_servers dhcp
  /\ ignore_servers (fst (assign_weight i attrval dhcp log)) = ignore_servers dhcp
  /\ (Forall bounded (preferred_server dhcp) ->
      Forall bounded (preferred_server (fst (assign_weight i attrval dhcp log)))).
Proof.
  split; [|split].
  - unfold assign_weight. repeat case_match; done.
  - unfold assign_weight. repeat case_match; done.
  - intros Hall. unfold assign_weight.
    destruct (streq attrval "always");
      [simpl; apply Forall_insert; [done|]; unfold bounded; simpl; lia|].
    destruct (streq attrval "never");
      [simpl; apply Forall_insert; [done|]; unfold bounded; simpl; lia|].
    destruct (Z.ltb_spec 100
                (weight (slot (set_weight i (to_int (strtol attrval)) dhcp) i)))
      as [Hgt|Hle]; simpl.
    + rewrite list_insert_insert_eq.
      apply Forall_insert; [done|unfold bounded; simpl; lia].
    + destruct (decide (i < length (preferred_server dhcp))%nat) as [Hi|Hi].
      * apply Forall_insert; [done|]. unfold bounded. simpl.
        unfold set_weight in Hle. rewrite slot_set_slot in Hle by done. simpl in Hle.
        pose proof (to_int_range (strtol attrval)). lia.
      * by rewrite list_insert_ge by lia.
Qed.

(** Case analysis of one iteration of the loop, on what the goal says about
    it. *)
Ltac dhcp_child_cases child :=
  unfold dhcp_child, preferred, ignored;
  destruct (streq (node_name child) "vendor-class");
  destruct (if streq (node_name child) "lease-time" then node_cdata child else None);
  destruct (if streq (node_name child) "ignore-server"
            then xml_node_get_attr child "ip" else None);
  destruct (if streq (node_name child) "prefer-server"
            then xml_node_get_attr child "ip" else None);
  cbv zeta;
  unfold set_address, set_weight, set_num, set_slot, slot;
  cbn [num_preferred_servers address weight preferred_server ignore_servers];
  repeat match goal with
  | |- context [Nat.leb ?a ?b] => destruct (Nat.leb_spec a b)
  | |- context [ni_address_parse ?a ?b ?c] =>
      let E := fresh "Hparse" in destruct (ni_address_parse a b c) eqn:E
  | |- context [Z.ltb ?a 0] => destruct (Z.ltb_spec a 0)
  | |- context [xml_node_get_attr child "weight"] =>
      destruct (xml_node_get_attr child "weight")
  | |- context [assign_weight ?i ?a ?d ?l] =>
      pose proof (assign_weight_fields i a d l);
      destruct (assign_weight i a d l)
  | |- context [streq (node_name child) "allow-update"] =>
      destruct (streq (node_name child) "allow-update")
  | |- context [ni_config_parse_update_targets ?m ?l ?c] =>
      destruct (ni_config_parse_update_targets m l c) as [[? ?] ?]
  end.

Section DhcpSection.

Context {ext : externals}.

(** An iteration that returns from the function returns -1, and does so
    because the address of a [<prefer-server>] element was rejected while a
    slot was free; the slot is counted all the same. *)
Lemma dhcp_child_return dhcp log child rc s :
  dhcp_child dhcp log child = Return rc s ->
  rc = -1
  /\ exists ip,
       preferred child = Some ip
       /\ fst (ni_address_parse (address (slot dhcp (num_preferred_servers dhcp)))
                 ip AF_UNSPEC) < 0
       /\ (num_preferred_servers dhcp < NI_DHCP_SERVER_PREFERENCES_MAX)%nat
       /\ num_preferred_servers (fst s) = S (num_preferred_servers dhcp)
       /\ snd s = log ++ [error_unable_to_parse_prefer_server ip].
Proof.
  unfold slot.
  dhcp_child_cases child; intros Hchild; simplify_eq.
  all: split; [done|]; eexists; split; [done|]; rewrite Hparse; simpl;
    repeat split; (done || lia).
Qed.

Lemma dhcp_loop_outcome children : forall dhcp log,
  (fst (fst (dhcp_loop dhcp log children)) = 0
   \/ fst (fst (dhcp_loop dhcp log children)) = -1)
  /\ (fst (fst (dhcp_loop dhcp log children)) = -1 ->
      exists child ip old,
        child ∈ children
        /\ preferred child = Some ip
        /\ fst (ni_address_parse old ip AF_UNSPEC) < 0
        /\ error_unable_to_parse_prefer_server ip ∈ snd (dhcp_loop dhcp log children)).
Proof.
  induction children as [|child rest IH]; intros dhcp log; simpl.
  - split; [auto|discriminate].
  - destruct (dhcp_child dhcp log child) as [[d l]|rc [d l]] eqn:Hchild.
    + destruct (IH d l) as [Hrc Hbad]. split; [done|].
      intros Hfail. destruct (Hbad Hfail) as (c & ip & old & Hin & Hip & Hrej & Hlog).
      exists c, ip, old. split; [by apply list_elem_of_further|done].
    + apply dhcp_child_return in Hchild as (-> & ip & Hip & Hrej & _ & _ & Hlog).
      simpl in *. split; [auto|]. intros _.
      exists child, ip, (address (slot dhcp (num_preferred_servers dhcp))).
      split; [apply list_elem_of_here|]. split; [done|]. split; [done|].
      rewrite Hlog. apply elem_of_app. right. apply list_elem_of_here.
Qed.

Lemma dhcp_parse_accepted dhcp log node :
  (forall child ip old,
     child ∈ node_children node -> preferred child = Some ip ->
     0 <= fst (ni_address_parse old ip AF_UNSPEC)) ->
  fst (fst (ni_config_parse_addrconf_dhcp dhcp log node)) = 0.
Proof.
  unfold ni_config_parse_addrconf_dhcp. intros Hgood.
  destruct (dhcp_loop_outcome (node_children node) dhcp log) as [[?|Hfail] Hbad]; [done|].
  destruct (Hbad Hfail) as (c & ip & old & Hin & Hip & Hrej & _).
  specialize (Hgood c ip old Hin Hip). lia.
Qed.

(** The parse of the DHCP section returns 0 or -1.  It returns -1 only when
    a [<prefer-server>] child carries an address that [ni_address_parse]
    rejects, and then that address is named in the error it logs; if all
    such addresses are accepted the parse returns 0. *)
Theorem dhcp_parse_fails_only_on_address
    (dhcp : ni_config_dhcp) (log : list log_entry) (node : xml_node_t) :
  let result := ni_config_parse_addrconf_dhcp dhcp log node in
  (fst (fst result) = 0 \/ fst (fst result) = -1)
  /\ (fst (fst result) = -1 ->
      exists child ip old,
        child ∈ node_children node
        /\ preferred child = Some ip
        /\ fst (ni_address_parse old ip AF_UNSPEC) < 0
        /\ error_unable_to_parse_prefer_server ip ∈ snd result)
  /\ ((forall child ip old,
         child ∈ node_children node -> preferred child = Some ip ->
         0 <= fst (ni_address_parse old ip AF_UNSPEC)) ->
      fst (fst result) = 0).
Proof.
  intros result. unfold result.
  split; [|split].
  - apply (dhcp_loop_outcome (node_children node) dhcp log).
  - apply (dhcp_loop_outcome (node_children node) dhcp log).
  - apply dhcp_parse_accepted.
Qed.

(** What an iteration that goes on to the next child has collected. *)
Lemma dhcp_child_next dhcp log child dhcp' log' :
  dhcp_child dhcp log child = Next (dhcp', log') ->
  ignore_servers dhcp' = ignore_servers dhcp ++ option_list (ignored child)
  /\ ((num_preferred_servers dhcp <= NI_DHCP_SERVER_PREFERENCES_MAX)%nat ->
      num_preferred_servers dhcp'
      = Nat.min NI_DHCP_SERVER_PREFERENCES_MAX
          (num_preferred_servers dhcp + length (option_list (preferred child)))).
Proof.
  dhcp_child_cases child; intros Hchild; simplify_eq; simpl in *;
    (split; [rewrite ?app_nil_r; intuition congruence|]); intros; intuition lia.
Qed.

Lemma dhcp_loop_app before : forall dhcp log d l rest,
  dhcp_loop dhcp log before = (0, d, l) ->
  dhcp_loop dhcp log (before ++ rest) = dhcp_loop d l rest.
Proof.
  induction before as [|child before IH]; intros dhcp log d l rest H; simpl in *.
  - by injection H as <- <-.
  - destruct (dhcp_child dhcp log child) as [[d1 l1]|rc [d1 l1]] eqn:Hchild.
    + by apply IH.
    + apply dhcp_child_return in Hchild as [-> _]. discriminate.
Qed.

(** When the parse of the DHCP section succeeds, the ignored servers are
    the ones there were followed by the addresses of the [<ignore-server>]
    children in document order, without bound and without removing
    repetitions, and the number of preferred servers is the number there was
    plus the number of [<prefer-server>] children with an address, cut off at
    [NI_DHCP_SERVER_PREFERENCES_MAX]. *)
Theorem dhcp_parse_collects_servers
    (dhcp dhcp' : ni_config_dhcp) (log log' : list log_entry) (node : xml_node_t) :
  ni_config_parse_addrconf_dhcp dhcp log node = (0, dhcp', log') ->
  (num_preferred_servers dhcp <= NI_DHCP_SERVER_PREFERENCES_MAX)%nat ->
  ignore_servers dhcp' = ignore_servers dhcp ++ omap ignored (node_children node)
  /\ num_preferred_servers dhcp'
     = Nat.min NI_DHCP_SERVER_PREFERENCES_MAX
         (num_preferred_servers dhcp + length (omap preferred (node_children node))).
Proof.
  unfold ni_config_parse_addrconf_dhcp. generalize (node_children node) as children.
  intros children. revert dhcp log.
  induction children as [|child rest IH]; intros dhcp log H Hle;
    cbn [dhcp_loop] in H.
  - injection H as <- <-. simpl. rewrite app_nil_r. split; [done|lia].
  - assert (Hignore : omap ignored (child :: rest)
                      = option_list (ignored child) ++ omap ignored rest).
    { change (omap ignored (child :: rest))
        with (match ignored child with
              | Some y => y :: omap ignored rest
              | None => omap ignored rest
              end).
      by destruct (ignored child). }
    assert (Hprefer : length (omap preferred (child :: rest))
                      = (length (option_list (preferred child))
                         + length (omap preferred rest))%nat).
    { change (omap preferred (child :: rest))
        with (match preferred child with
              | Some y => y :: omap preferred rest
              | None => omap preferred rest
              end).
      by destruct (preferred child). }
    destruct (dhcp_child dhcp log child) as [[d l]|rc [d l]] eqn:Hchild.
    + apply dhcp_child_next in Hchild as [Hignored Hcount].
      specialize (Hcount Hle).
      destruct (IH d l H) as [Hi Hn]; [lia|].
      rewrite Hi, Hn, Hignored, Hcount, Hignore, Hprefer.
      split; [by rewrite <- app_assoc|lia].
    + apply dhcp_child_return in Hchild as [-> _]. discriminate.
Qed.

(** One iteration keeps every weight of the table within bounds. *)
Lemma dhcp_child_bounded dhcp log child :
  Forall bounded (preferred_server dhcp) ->
  Forall bounded (preferred_server (fst (state_of (dhcp_child dhcp log child)))).
Proof.
  intros Hall. pose proof (bounded_slot (preferred_server dhcp)) as Hslot.
  dhcp_child_cases child; simpl in *;
    repeat match goal with
    | H : _ /\ _ |- _ => destruct H
    | H : Forall bounded ?l -> _ |- Forall bounded _ => apply H; clear H
    | |- Forall bounded (<[ _ := _ ]> _) => apply Forall_insert
    | |- bounded {| address := _; weight := 100 |} => unfold bounded; simpl; lia
    | |- bounded {| address := _; weight := weight ?p |} =>
        let H := fresh in
        assert (bounded p) as H by (apply bounded_slot; assumption);
        unfold bounded in *; simpl; exact H
    end; try assumption.
Qed.

(** No stored weight ever exceeds 100 or leaves the range of an [int]: if
    that holds of the table before the parse of a DHCP section, it holds
    after it, whether the parse succeeds or fails; it holds of the table of
    a new configuration, and so after any parse that starts from one. *)
Theorem dhcp_parse_keeps_weights_bounded
    (dhcp : ni_config_dhcp) (log : list log_entry) (node : xml_node_t) :
  (Forall bounded (preferred_server dhcp) ->
   Forall bounded (preferred_server (snd (fst (ni_config_parse_addrconf_dhcp dhcp log node)))))
  /\ Forall bounded
       (preferred_server (snd (fst (ni_config_parse_addrconf_dhcp dhcp_new log node)))).
Proof.
  assert (Hloop : forall children dhcp log,
    Forall bounded (preferred_server dhcp) ->
    Forall bounded (preferred_server (snd (fst (dhcp_loop dhcp log children))))).
  { clear. induction children as [|child rest IH]; intros dhcp log Hall; [done|].
    simpl. pose proof (dhcp_child_bounded dhcp log child Hall) as Hstep.
    destruct (dhcp_child dhcp log child) as [[d l]|rc [d l]]; simpl in *; [by apply IH|done]. }
  unfold ni_config_parse_addrconf_dhcp. split; [apply Hloop|].
  apply Hloop. simpl. apply Forall_replicate. unfold bounded. simpl. lia.
Qed.

(** A [<prefer-server>] element whose address is rejected while a slot is
    free ends the parse with -1 and the error in the log.  The slot is
    counted, holds whatever [ni_address_parse] left as the address, and keeps
    the weight it had; the children after the element are not looked at. *)
Theorem dhcp_rejected_address_takes_slot
    (dhcp d : ni_config_dhcp) (log l : list log_entry)
    (n : string) (a : list (string * string)) (c : option string)
    (before after : list xml_node_t) (child : xml_node_t)
    (ip : string) (rc : Z) (addr : ni_sockaddr_t) :
  ni_config_parse_addrconf_dhcp dhcp log (xml_node n a c before) = (0, d, l) ->
  node_name child = "prefer-server" ->
  xml_node_get_attr child "ip" = Some ip ->
  (num_preferred_servers d < NI_DHCP_SERVER_PREFERENCES_MAX)%nat ->
  ni_address_parse (address (slot d (num_preferred_servers d))) ip AF_UNSPEC = (rc, addr) ->
  rc < 0 ->
  ni_config_parse_addrconf_dhcp dhcp log (xml_node n a c (before ++ child :: after))
  = (-1,
     set_address (num_preferred_servers d) addr (set_num (S (num_preferred_servers d)) d),
     l ++ [error_unable_to_parse_prefer_server ip]).
Proof.
  unfold ni_config_parse_addrconf_dhcp. simpl.
  intros Hbefore Hname Hip Hfree Hparse Hrc.
  rewrite (dhcp_loop_app before dhcp log d l) by done.
  simpl. unfold dhcp_child. rewrite Hname. compare_element_names.
  cbv iota. rewrite Hip.
  destruct (Nat.leb_spec NI_DHCP_SERVER_PREFERENCES_MAX (num_preferred_servers d)); [lia|].
  change (slot (set_num (S (num_preferred_servers d)) d) (num_preferred_servers d))
    with (slot d (num_preferred_servers d)).
  rewrite Hparse.
  destruct (Z.ltb_spec rc 0); [done|lia].
Qed.

End DhcpSection.

Lemma dhcp_parse_collects_servers_witness :
  ignore_servers (snd (fst (ni_config_parse_addrconf_dhcp (ext := demo_ext) dhcp_new []
                    (element "dhcp" []
                       [element "ignore-server" [("ip", "10.0.0.9")] [];
                        prefer_server [("ip", "10.0.0.1")];
                        element "ignore-server" [("ip", "10.0.0.9")] []]))))
  = ["10.0.0.9"; "10.0.0.9"].
Proof.
  destruct (dhcp_parse_collects_servers (ext := demo_ext) dhcp_new
              (snd (fst (ni_config_parse_addrconf_dhcp (ext := demo_ext) dhcp_new []
                    (element "dhcp" []
                       [element "ignore-server" [("ip", "10.0.0.9")] [];
                        prefer_server [("ip", "10.0.0.1")];
                        element "ignore-server" [("ip", "10.0.0.9")] []]))))
              []
              (snd (ni_config_parse_addrconf_dhcp (ext := demo_ext) dhcp_new []
                    (element "dhcp" []
                       [element "ignore-server" [("ip", "10.0.0.9")] [];
                        prefer_server [("ip", "10.0.0.1")];
                        element "ignore-server" [("ip", "10.0.0.9")] []])))
              (element "dhcp" []
                       [element "ignore-server" [("ip", "10.0.0.9")] [];
                        prefer_server [("ip", "10.0.0.1")];
                        element "ignore-server" [("ip", "10.0.0.9")] []])
              eq_refl ltac:(simpl; lia)) as [Hignored _].
  exact Hignored.
Defined.

Lemma dhcp_parse_keeps_weights_bounded_witness :
  Forall bounded
    (preferred_server
       (snd (fst (ni_config_parse_addrconf_dhcp (ext := demo_ext) dhcp_new []
                    (element "dhcp" []
                       [prefer_server [("ip", "10.0.0.1"); ("weight", "4000000000")]]))))).
Proof.
  exact (proj2 (dhcp_parse_keeps_weights_bounded (ext := demo_ext) dhcp_new []
                  (element "dhcp" []
                     [prefer_server [("ip", "10.0.0.1"); ("weight", "4000000000")]]))).
Defined.

(** The second server has no address that parses: the parse fails and two
    slots are counted. *)
Lemma dhcp_rejected_address_takes_slot_witness :
  fst (fst (ni_config_parse_addrconf_dhcp (ext := demo_ext) dhcp_new []
              (xml_node "dhcp" [] None
                 ([prefer_server [("ip", "10.0.0.1")]]
                  ++ prefer_server [("ip", "")]
                  :: [prefer_server [("ip", "10.0.0.3")]])))) = -1
  /\ num_preferred_servers
       (snd (fst (ni_config_parse_addrconf_dhcp (ext := demo_ext) dhcp_new []
                    (xml_node "dhcp" [] None
                       ([prefer_server [("ip", "10.0.0.1")]]
                        ++ prefer_server [("ip", "")]
                        :: [prefer_server [("ip", "10.0.0.3")]]))))) = 2%nat.
Proof.
  rewrite (dhcp_rejected_address_takes_slot (ext := demo_ext) dhcp_new
             (snd (fst (ni_config_parse_addrconf_dhcp (ext := demo_ext) dhcp_new []
                          (xml_node "dhcp" [] None
                             [prefer_server [("ip", "10.0.0.1")]]))))
             [] [] "dhcp" [] None
             [prefer_server [("ip", "10.0.0.1")]] [prefer_server [("ip", "10.0.0.3")]]
             (prefer_server [("ip", "")]) "" (-1) ""
             eq_refl eq_refl eq_refl ltac:(simpl; lia) eq_refl ltac:(lia)).
  split; reflexivity.
Defined.

(** ** Extensions: what a successful parse has built *)

Section Extensions.

Context {ext : externals}.

(** The bits that a family attribute selects: tokens other than [ipv4] and
    [ipv6] select nothing. *)
Definition family_bits (attrval : string) : Z :=
  Z.lor (if bool_decide ("ipv4" ∈ strtok attrval ",") then NI_AF_MASK_IPV4 else 0)
        (if bool_decide ("ipv6" ∈ strtok attrval ",") then NI_AF_MASK_IPV6 else 0).

Definition token_bits (tokens : list string) : Z :=
  Z.lor (if bool_decide ("ipv4" ∈ tokens) then NI_AF_MASK_IPV4 else 0)
        (if bool_decide ("ipv6" ∈ tokens) then NI_AF_MASK_IPV6 else 0).

Lemma family_token_range af s : 0 <= af < 2 ^ 32 -> 0 <= family_token af s < 2 ^ 32.
Proof.
  intros H. unfold family_token.
  destruct (streq s "ipv4"); destruct (streq s "ipv6");
    try apply to_uint_range; done.
Qed.

Lemma fold_family_tokens tokens : forall af,
  0 <= af < 2 ^ 32 ->
  fold_left family_token tokens af = to_uint (Z.lor af (token_bits tokens)).
Proof.
  induction tokens as [|s tokens IH]; intros af Haf.
  - simpl. unfold token_bits.
    rewrite !bool_decide_false by apply not_elem_of_nil.
    by rewrite !Z.lor_0_r, to_uint_small.
  - simpl. rewrite IH by by apply family_token_range.
    unfold family_token, token_bits.
    assert (Hin : forall t, bool_decide (t ∈ s :: tokens)
                            = streq s t || bool_decide (t ∈ tokens)).
    { intros t. destruct (streq s t) eqn:Hs; simpl.
      - apply streq_true in Hs as ->. apply bool_decide_true, list_elem_of_here.
      - apply streq_false in Hs. apply bool_decide_ext. rewrite elem_of_cons.
        split; [intros [?|?]; [congruence|done]|auto]. }
    rewrite !Hin.
    destruct (streq s "ipv4") eqn:H4; destruct (streq s "ipv6") eqn:H6; simpl.
    + apply streq_true in H4. apply streq_true in H6. congruence.
    + rewrite to_uint_lor, to_uint_to_uint, <- to_uint_lor. f_equal.
      apply Z.bits_inj'. intros k Hk. rewrite !Z.lor_spec.
      destruct (bool_decide ("ipv4" ∈ tokens)); rewrite ?Z.lor_spec, ?Z.bits_0;
        repeat match goal with |- context [Z.testbit ?a ?b] =>
          destruct (Z.testbit a b) end; reflexivity.
    + rewrite to_uint_lor, to_uint_to_uint, <- to_uint_lor. f_equal.
      apply Z.bits_inj'. intros k Hk. rewrite !Z.lor_spec.
      destruct (bool_decide ("ipv6" ∈ tokens)); rewrite ?Z.lor_spec, ?Z.bits_0;
        repeat match goal with |- context [Z.testbit ?a ?b] =>
          destruct (Z.testbit a b) end; reflexivity.
    + reflexivity.
Qed.

(** The script action that an [<action>] child with a name stands for. *)
Definition action_of (child : xml_node_t) : option ni_script_action_t :=
  if streq (node_name child) "action" then
    match xml_node_get_attr child "name" with
    | Some name =>
        Some {| action_name := name;
                action_command := xml_node_get_attr child "command" ≫= xpath_format_parse |}
    | None => None
    end
  else None.

(** The expression that an [<environment>] child stands for. *)
Definition environment_of (child : xml_node_t) : option xpath_format_t :=
  if streq (node_name child) "action" then None
  else if streq (node_name child) "environment"
       then xml_node_get_attr child "putenv" ≫= xpath_format_parse
       else None.

Definition with_children (ex : ni_extension_t) (children : list xml_node_t)
    : ni_extension_t :=
  {| extension_name := extension_name ex; extension_type := extension_type ex;
     supported_af := supported_af ex; pid_file_path := pid_file_path ex;
     actions := actions ex ++ omap action_of children;
     environment := environment ex ++ omap environment_of children |}.

Lemma with_children_nil ex : with_children ex [] = ex.
Proof. destruct ex. unfold with_children. simpl. by rewrite !app_nil_r. Qed.

Lemma omap_cons_list {A B} (f : A -> option B) x l :
  omap f (x :: l) = option_list (f x) ++ omap f l.
Proof.
  change (omap f (x :: l))
    with (match f x with Some y => y :: omap f l | None => omap f l end).
  by destruct (f x).
Qed.

Lemma with_children_single ex child :
  with_children ex [child]
  = {| extension_name := extension_name ex; extension_type := extension_type ex;
       supported_af := supported_af ex; pid_file_path := pid_file_path ex;
       actions := actions ex ++ option_list (action_of child);
       environment := environment ex ++ option_list (environment_of child) |}.
Proof.
  reflexivity.
Qed.

Lemma with_children_cons ex child rest :
  with_children (with_children ex [child]) rest = with_children ex (child :: rest).
Proof.
  rewrite with_children_single. unfold with_children.
  cbn [extension_name extension_type supported_af pid_file_path actions environment].
  rewrite !(omap_cons_list _ child rest).
  by rewrite <- !app_assoc.
Qed.

Lemma extension_child_next ex log child ex' log' :
  extension_child ex log child = Next (ex', log') ->
  ex' = with_children ex [child] /\ log' = log.
Proof.
  rewrite with_children_single.
  unfold extension_child, action_of, environment_of, ni_config_parse_xpath.
  destruct (streq (node_name child) "action").
  - destruct (xml_node_get_attr child "name") as [name|]; [|discriminate].
    destruct (xml_node_get_attr child "command") as [command|]; simpl.
    + destruct (xpath_format_parse command); simpl; [|discriminate].
      intros [= <- <-]. by rewrite !app_nil_r.
    + intros [= <- <-]. by rewrite !app_nil_r.
  - destruct (streq (node_name child) "environment").
    + destruct (xml_node_get_attr child "putenv") as [putenv|]; [|discriminate]. simpl.
      destruct (xpath_format_parse putenv); simpl; [|discriminate].
      intros [= <- <-]. by rewrite !app_nil_r.
    + intros [= <- <-]. destruct ex. simpl. by rewrite !app_nil_r.
Qed.

Lemma extension_children_loop_next children : forall ex log ex' log',
  extension_children_loop ex log children = Next (ex', log') ->
  ex' = with_children ex children /\ log' = log.
Proof.
  induction children as [|child rest IH]; intros ex log ex' log' H; simpl in H.
  - injection H as <- <-. by rewrite with_children_nil.
  - destruct (extension_child ex log child) as [[ex1 log1]|rc s] eqn:Hchild;
      [|discriminate].
    apply extension_child_next in Hchild as [-> ->].
    apply IH in H as [-> ->]. by rewrite with_children_cons.
Qed.

(** The type of an extension element: 0 when the category maps no types. *)
Definition type_of (map_type : option (string -> Z)) (node : xml_node_t) : option Z :=
  match map_type with
  | None => Some 0
  | Some map_type => map_type <$> xml_node_get_attr node "type"
  end.

(** The expression of the path of the first [<pidfile>] child. *)
Definition pidfile_of (node : xml_node_t) : option xpath_format_t :=
  match xml_node_get_child node "pidfile" with
  | Some child =>
      match xml_node_get_attr child "path" with
      | Some path => xpath_format_parse path
      | None => None
      end
  | None => None
  end.

(** The extension that an element of a category stands for: none for an
    element that is not an [<extension>] and for one whose type is not
    recognized. *)
Definition extension_of (map_type : option (string -> Z)) (node : xml_node_t)
    : option ni_extension_t :=
  if negb (streq (node_name node) "extension") then None
  else
    match xml_node_get_attr node "name", type_of map_type node with
    | Some name, Some type =>
        if type <? 0 then None
        else
          Some {| extension_name := name;
                  extension_type := type;
                  supported_af :=
                    match xml_node_get_attr node "family" with
                    | Some attrval => to_uint (family_bits attrval)
                    | None => UINT_MAX
                    end;
                  pid_file_path := pidfile_of node;
                  actions := omap action_of (node_children node);
                  environment := omap environment_of (node_children node) |}
    | _, _ => None
    end.

Lemma extension_node_next exts log exclass map_type node exts' log' :
  extension_node exts log exclass map_type node = Next (exts', log') ->
  exts' = exts ++ option_list (extension_of map_type node).
Proof.
  unfold extension_node, extension_of, type_of.
  destruct (streq (node_name node) "extension"); simpl;
    [|intros [= <- <-]; by rewrite app_nil_r].
  destruct (xml_node_get_attr node "name") as [name|]; [|discriminate].
  assert (Hrest : forall type log0,
    (type <? 0) = false ->
    (let ex := ni_extension_new name type in
     let ex :=
       match xml_node_get_attr node "family" with
       | Some attrval =>
           set_supported_af
             (fold_left family_token (strtok attrval ",") (supported_af ex)) ex
       | None => set_supported_af UINT_MAX ex
       end in
     let pidfile :=
       match xml_node_get_child node "pidfile" with
       | Some child =>
           match xml_node_get_attr child "path" with
           | Some attrval =>
               let '(rc, fmt, log) := ni_config_parse_xpath attrval log0 in
               (rc, set_pid_file_path fmt ex, log)
           | None => (0, ex, log0)
           end
       | None => (0, ex, log0)
       end in
     let '(rc, ex, log) := pidfile in
     if rc <? 0 then Return (-1) (exts ++ [ex], log)
     else
       match extension_children_loop ex log (node_children node) with
       | Next (ex, log) => Next (exts ++ [ex], log)
       | Return rc (ex, log) => Return rc (exts ++ [ex], log)
       end) = Next (exts', log') ->
    exts' = exts ++
      [ {| extension_name := name;
           extension_type := type;
           supported_af :=
             match xml_node_get_attr node "family" with
             | Some attrval => to_uint (family_bits attrval)
             | None => UINT_MAX
             end;
           pid_file_path := pidfile_of node;
           actions := omap action_of (node_children node);
           environment := omap environment_of (node_children node) |} ]).
  { intros type log0 Htype. cbv zeta.
    assert (Haf : match xml_node_get_attr node "family" with
                  | Some attrval =>
                      set_supported_af
                        (fold_left family_token (strtok attrval ",")
                           (supported_af (ni_extension_new name type)))
                        (ni_extension_new name type)
                  | None => set_supported_af UINT_MAX (ni_extension_new name type)
                  end
                  = {| extension_name := name; extension_type := type;
                       supported_af :=
                         match xml_node_get_attr node "family" with
                         | Some attrval => to_uint (family_bits attrval)
                         | None => UINT_MAX
                         end;
                       pid_file_path := None; actions := []; environment := [] |}).
    { destruct (xml_node_get_attr node "family") as [attrval|]; [|done].
      simpl. rewrite fold_family_tokens by lia. by rewrite Z.lor_0_l. }
    rewrite Haf. clear Haf.
    unfold ni_config_parse_xpath, pidfile_of.
    destruct (xml_node_get_child node "pidfile") as [child|]; simpl.
    - destruct (xml_node_get_attr child "path") as [path|]; simpl.
      + destruct (xpath_format_parse path) as [fmt|]; simpl; [|discriminate].
        match goal with |- context [extension_children_loop ?e ?l ?c] =>
          destruct (extension_children_loop e l c) as [[ex1 l1]|rc [ex1 l1]] eqn:Hloop
        end; [|discriminate].
        intros [= <- <-]. by apply extension_children_loop_next in Hloop as [-> _].
      + match goal with |- context [extension_children_loop ?e ?l ?c] =>
          destruct (extension_children_loop e l c) as [[ex1 l1]|rc [ex1 l1]] eqn:Hloop
        end; [|discriminate].
        intros [= <- <-]. by apply extension_children_loop_next in Hloop as [-> _].
    - match goal with |- context [extension_children_loop ?e ?l ?c] =>
        destruct (extension_children_loop e l c) as [[ex1 l1]|rc [ex1 l1]] eqn:Hloop
      end; [|discriminate].
      intros [= <- <-]. by apply extension_children_loop_next in Hloop as [-> _]. }
  destruct map_type as [map_type|]; simpl.
  - destruct (xml_node_get_attr node "type") as [attrval|]; simpl; [|discriminate].
    destruct (map_type attrval <? 0) eqn:Htype; simpl; rewrite Htype.
    + intros [= <- <-]. by rewrite app_nil_r.
    + by apply Hrest.
  - by apply Hrest.
Qed.

(** When [ni_config_parse_extensions] succeeds, the list it leaves is the
    list it was given followed by one extension for each [<extension>]
    element of the category whose type is recognized, in document order.
    Each has the name and the mapped type of its element, supports every
    address family if the element has no family attribute and otherwise
    exactly the families that the attribute names, and carries the actions
    and the environment expressions of its children in document order. *)
Theorem parse_extensions_builds_the_list
    (exts exts' : list ni_extension_t) (log log' : list log_entry)
    (node : xml_node_t) (exclass : string) (map_type : option (string -> Z)) :
  ni_config_parse_extensions exts log node exclass map_type = (0, exts', log') ->
  exts' = exts ++ match xml_node_get_child node exclass with
                  | Some category => omap (extension_of map_type) (node_children category)
                  | None => []
                  end.
Proof.
  unfold ni_config_parse_extensions.
  destruct (xml_node_get_child node exclass) as [category|];
    [|intros [= <- <-]; by rewrite app_nil_r].
  generalize (node_children category) as nodes. intros nodes. revert exts log.
  induction nodes as [|n nodes IH]; intros exts log H; cbn [extensions_loop] in H.
  - injection H as <- <-. by rewrite app_nil_r.
  - destruct (extension_node exts log exclass map_type n) as [[exts1 log1]|rc [exts1 log1]]
      eqn:Hnode.
    + apply extension_node_next in Hnode as ->. apply IH in H as ->.
      by rewrite omap_cons_list, app_assoc.
    + apply extension_node_return in Hnode as ->. discriminate.
Qed.

End Extensions.

(** An [<api>] category with a Foo extension for IPv4 and a stray element. *)
Definition api_document : xml_node_t :=
  element "config" []
    [element "api" []
       [element "comment" [] [];
        element "extension" [("name", "com.suse.Wicked.Foo"); ("family", "ipv4,ipx")]
          [element "action" [("name", "bar"); ("command", "/bin/true")] [];
           element "environment" [("putenv", "A=1")] []]]].

Lemma parse_extensions_builds_the_list_witness :
  map (fun ex => (extension_name ex, supported_af ex, map action_name (actions ex),
                  length (environment ex)))
    (snd (fst (ni_config_parse_extensions (ext := demo_ext) [] [] api_document "api" None)))
  = [("com.suse.Wicked.Foo", 1, ["bar"], 1%nat)].
Proof.
  exact (f_equal
           (map (fun ex => (extension_name ex, supported_af ex,
                            map action_name (actions ex), length (environment ex))))
           (parse_extensions_builds_the_list (ext := demo_ext) []
              (snd (fst (ni_config_parse_extensions (ext := demo_ext) [] []
                           api_document "api" None)))
              []
              (snd (ni_config_parse_extensions (ext := demo_ext) [] []
                      api_document "api" None))
              api_document "api" None eq_refl)).
Defined.

(** ** The load as a whole *)

Section WholeLoad.

Context {ext : externals}.

Lemma extension_child_ok ex log child :
  child_is_faulty child = false ->
  exists s, extension_child ex log child = Next s.
Proof.
  unfold child_is_faulty, extension_child, parses, ni_config_parse_xpath.
  intros H. repeat case_match; simplify_eq; simpl in *; try discriminate; eauto.
Qed.

Lemma extension_children_loop_ok children : forall ex log,
  existsb child_is_faulty children = false ->
  exists s, extension_children_loop ex log children = Next s.
Proof.
  induction children as [|child rest IH]; intros ex log H; simpl in *; [eauto|].
  apply orb_false_iff in H as [Hchild Hrest].
  destruct (extension_child_ok ex log child Hchild) as [[ex1 log1] ->].
  by apply IH.
Qed.

Lemma extension_node_ok exts log exclass map_type node :
  extension_is_faulty map_type node = false ->
  exists s, extension_node exts log exclass map_type node = Next s.
Proof.
  unfold extension_is_faulty, extension_node. intros H.
  destruct (streq (node_name node) "extension"); simpl in *; [|eauto].
  destruct (xml_node_get_attr node "name") as [name|]; [|discriminate].
  assert (Hrest : forall type log,
    pidfile_is_faulty node = false ->
    existsb child_is_faulty (node_children node) = false ->
    exists s,
      (let ex := ni_extension_new name type in
       let ex :=
         match xml_node_get_attr node "family" with
         | Some attrval =>
             set_supported_af
               (fold_left family_token (strtok attrval ",") (supported_af ex)) ex
         | None => set_supported_af UINT_MAX ex
         end in
       let pidfile :=
         match xml_node_get_child node "pidfile" with
         | Some child =>
             match xml_node_get_attr child "path" with
             | Some attrval =>
                 let '(rc, fmt, log) := ni_config_parse_xpath attrval log in
                 (rc, set_pid_file_path fmt ex, log)
             | None => (0, ex, log)
             end
         | None => (0, ex, log)
         end in
       let '(rc, ex, log) := pidfile in
       if rc <? 0 then Return (-1) (exts ++ [ex], log)
       else
         match extension_children_loop ex log (node_children node) with
         | Next (ex, log) => Next (exts ++ [ex], log)
         | Return rc (ex, log) => Return rc (exts ++ [ex], log)
         end) = Next s).
  { intros type log0 Hpid Hchildren. cbv zeta.
    set (ex := match xml_node_get_attr node "family" with
               | Some attrval => _
               | None => _
               end).
    clearbody ex.
    assert (Hloop : forall ex log, exists s,
              match extension_children_loop ex log (node_children node) with
              | Next (ex, log) => Next (exts ++ [ex], log)
              | Return rc (ex, log) => Return rc (exts ++ [ex], log)
              end = Next s).
    { intros ex' log'.
      destruct (extension_children_loop_ok (node_children node) ex' log' Hchildren)
        as [[ex'' log''] ->]. eauto. }
    unfold pidfile_is_faulty, parses, ni_config_parse_xpath in *.
    destruct (xml_node_get_child node "pidfile") as [child|]; simpl; [|apply Hloop].
    destruct (xml_node_get_attr child "path") as [expr|]; simpl; [|apply Hloop].
    destruct (xpath_format_parse expr); simpl in *; [apply Hloop|discriminate]. }
  unfold extension_is_skipped in H.
  destruct map_type as [map_type|].
  - destruct (xml_node_get_attr node "type") as [attrval|]; simpl in *; [|discriminate].
    destruct (map_type attrval <? 0) eqn:Htype; simpl in *; rewrite Htype; [eauto|].
    apply orb_false_iff in H as [Hpid Hchildren]. by apply Hrest.
  - simpl in *. apply orb_false_iff in H as [Hpid Hchildren]. by apply Hrest.
Qed.

Lemma extensions_loop_ok exclass map_type nodes : forall exts log,
  existsb (extension_is_faulty map_type) nodes = false ->
  fst (fst (extensions_loop exts log exclass map_type nodes)) = 0.
Proof.
  induction nodes as [|node rest IH]; intros exts log H; simpl in *; [done|].
  apply orb_false_iff in H as [Hnode Hrest].
  destruct (extension_node_ok exts log exclass map_type node Hnode) as [[exts1 log1] ->].
  by apply IH.
Qed.

Lemma parse_extensions_ok exts log node exclass map_type :
  category_is_faulty map_type node exclass = false ->
  fst (fst (ni_config_parse_extensions exts log node exclass map_type)) = 0.
Proof.
  unfold category_is_faulty, ni_config_parse_extensions.
  destruct (xml_node_get_child node exclass); [|done].
  apply extensions_loop_ok.
Qed.

(** What the loop over the children of [<addrconf>] keeps, however it
    ends. *)
Definition addrconf_kept (ac ac' : ni_config_addrconf) : Prop :=
  ibft_allow_update ac' = ibft_allow_update ac
  /\ autoip_allow_update ac' = autoip_allow_update ac
  /\ ((num_preferred_servers (dhcp ac) <= NI_DHCP_SERVER_PREFERENCES_MAX)%nat ->
      (num_preferred_servers (dhcp ac') <= NI_DHCP_SERVER_PREFERENCES_MAX)%nat)
  /\ (Forall bounded (preferred_server (dhcp ac)) ->
      Forall bounded (preferred_server (dhcp ac'))).

Lemma dhcp_loop_bounded children : forall dhcp log,
  Forall bounded (preferred_server dhcp) ->
  Forall bounded (preferred_server (snd (fst (dhcp_loop dhcp log children)))).
Proof.
  induction children as [|child rest IH]; intros dhcp log Hall; [done|].
  simpl. pose proof (dhcp_child_bounded dhcp log child Hall) as Hstep.
  destruct (dhcp_child dhcp log child) as [[d l]|rc [d l]]; simpl in *; [by apply IH|done].
Qed.

Lemma addrconf_child_kept ac log child :
  addrconf_kept ac (fst (state_of (addrconf_child ac log child))).
Proof.
  unfold addrconf_child, addrconf_kept, ni_config_parse_addrconf_dhcp,
    ni_config_parse_update_targets.
  destruct (streq (node_name child) "default-allow-update").
  - destruct (update_targets_loop (default_allow_update ac) log (node_children child))
      as [m l]. simpl.
    destruct (streq (node_name child) "dhcp"); simpl; [|done].
    pose proof (dhcp_loop_count (node_children child) (dhcp ac) l) as Hcount.
    pose proof (dhcp_loop_bounded (node_children child) (dhcp ac) l) as Hbounded.
    destruct (dhcp_loop (dhcp ac) l (node_children child)) as [[rc d] l'].
    simpl in *. by destruct (rc <? 0).
  - destruct (streq (node_name child) "dhcp"); simpl; [|done].
    pose proof (dhcp_loop_count (node_children child) (dhcp ac) log) as Hcount.
    pose proof (dhcp_loop_bounded (node_children child) (dhcp ac) log) as Hbounded.
    destruct (dhcp_loop (dhcp ac) log (node_children child)) as [[rc d] l'].
    simpl in *. by destruct (rc <? 0).
Qed.

Lemma addrconf_loop_kept children : forall ac log,
  addrconf_kept ac (fst (state_of (addrconf_loop ac log children))).
Proof.
  induction children as [|child rest IH]; intros ac log; simpl.
  - unfold addrconf_kept. done.
  - pose proof (addrconf_child_kept ac log child) as Hstep.
    destruct (addrconf_child ac log child) as [[ac1 log1]|rc [ac1 log1]]; simpl in *;
      [|done].
    specialize (IH ac1 log1). unfold addrconf_kept in *.
    destruct Hstep as (Hi & Ha & Hc & Hb). destruct IH as (Hi' & Ha' & Hc' & Hb').
    split; [congruence|]. split; [congruence|]. split; auto.
Qed.

(** What every configuration that [ni_config_parse] returns guarantees.  The
    address families, the receive limit and the update masks of ibft and
    autoip are the defaults of a new configuration.  The default update
    mask, and with it every mask that [ni_config_addrconf_update_mask]
    answers, has no bit outside the capabilities of the system, and the
    answer for DHCP has no bit outside the update mask of the DHCP section
    either.  The DHCP section holds at most
    [NI_DHCP_SERVER_PREFERENCES_MAX] preferred servers and no weight above
    100. *)
Theorem loaded_config_guarantees
    (filename : string) (e e' : effects) (conf : ni_config_t)
    (NI_ADDRCONF_DHCP type k : Z) :
  ni_config_parse filename e = (Some conf, e') ->
  family (ipv4 conf) = AF_INET
  /\ family (ipv6 conf) = AF_INET6
  /\ recv_max conf = 65536
  /\ ibft_allow_update (addrconf conf) = UINT_MAX
  /\ autoip_allow_update (addrconf conf) = UINT_MAX
  /\ (Z.testbit (ni_config_addrconf_update_mask NI_ADDRCONF_DHCP conf type) k = true ->
      Z.testbit ni_system_update_capabilities k = true
      /\ Z.testbit (default_allow_update (addrconf conf)) k = true
      /\ (type = NI_ADDRCONF_DHCP ->
          Z.testbit (allow_update (dhcp (addrconf conf))) k = true))
  /\ (num_preferred_servers (dhcp (addrconf conf)) <= NI_DHCP_SERVER_PREFERENCES_MAX)%nat
  /\ Forall bounded (preferred_server (dhcp (addrconf conf))).
Proof.
  unfold ni_config_parse. intros H.
  destruct (xml_document_read filename) as [root|]; [|discriminate].
  destruct (xml_node_get_child root "config") as [node|]; [|discriminate].
  pose proof (parse_afinfo_rc (ipv4 ni_config_new) "ipv4" node) as Hrc1.
  pose proof (parse_afinfo_rc (ipv6 ni_config_new) "ipv6" node) as Hrc2.
  assert (Hfam1 : family (snd (ni_config_parse_afinfo (ipv4 ni_config_new) "ipv4" node))
                  = AF_INET).
  { unfold ni_config_parse_afinfo. by destruct (xml_node_get_child node "ipv4"). }
  assert (Hfam2 : family (snd (ni_config_parse_afinfo (ipv6 ni_config_new) "ipv6" node))
                  = AF_INET6).
  { unfold ni_config_parse_afinfo. by destruct (xml_node_get_child node "ipv6"). }
  destruct (ni_config_parse_afinfo (ipv4 ni_config_new) "ipv4" node) as [rc1 ipv4'].
  destruct (ni_config_parse_afinfo (ipv6 ni_config_new) "ipv6" node) as [rc2 ipv6'].
  destruct (ni_config_parse_fslocation _ "pidfile" node) as [rc3 pidfile'].
  destruct (ni_config_parse_fslocation _ "socket" node) as [rc4 socket'].
  destruct ((rc1 <? 0) || (rc2 <? 0) || (rc3 <? 0) || (rc4 <? 0)); [discriminate|].
  destruct (match xml_node_get_child node "backend" with
            | Some child => _
            | None => _
            end) as [syntax syntax_path].
  assert (Hkept : addrconf_kept (addrconf ni_config_new)
            (fst (state_of
               match xml_node_get_child node "addrconf" with
               | Some child =>
                   addrconf_loop (addrconf ni_config_new) (log (config_allocated e))
                     (node_children child)
               | None => Next (addrconf ni_config_new, log (config_allocated e))
               end))).
  { destruct (xml_node_get_child node "addrconf"); [apply addrconf_loop_kept|].
    unfold addrconf_kept. done. }
  destruct (match xml_node_get_child node "addrconf" with
            | Some child => _
            | None => _
            end) as [[ac l]|rc [ac l]]; [|discriminate].
  destruct Hkept as (Hibft & Hautoip & Hcount & Hbounded). simpl in *.
  destruct (ni_config_parse_extensions _ l node "addrconf" _) as [[rc5 exts1] l1].
  destruct (rc5 <? 0); [discriminate|].
  destruct (ni_config_parse_extensions _ l1 node "linktype" _) as [[rc6 exts2] l2].
  destruct (rc6 <? 0); [discriminate|].
  destruct (ni_config_parse_extensions _ l2 node "api" _) as [[rc7 exts3] l3].
  destruct (rc7 <? 0); [discriminate|].
  injection H as <- <-. simpl.
  split; [done|]. split; [done|]. split; [done|]. split; [done|]. split; [done|].
  split; [|split].
  - unfold ni_config_addrconf_update_mask. simpl.
    destruct (type =? NI_ADDRCONF_DHCP) eqn:Htype.
    + rewrite !Z.land_spec. intros Hbit.
      apply andb_true_iff in Hbit as [Hbit Hdhcp].
      apply andb_true_iff in Hbit as [Hdefault Hcaps].
      rewrite Hdefault, Hcaps. simpl. done.
    + rewrite !Z.land_spec. intros Hbit.
      apply andb_true_iff in Hbit as [Hdefault Hcaps].
      split; [done|]. split; [by rewrite Hdefault, Hcaps|].
      intros ->. by rewrite Z.eqb_refl in Htype.
  - apply Hcount. lia.
  - apply Hbounded. apply Forall_replicate. unfold bounded. simpl. lia.
Qed.

(** Every address of a [<prefer-server>] element under the [<addrconf>]
    element that the parser reads is accepted by [ni_address_parse]. *)
Definition addresses_accepted (node : xml_node_t) : Prop :=
  forall ac section child ip old,
    xml_node_get_child node "addrconf" = Some ac ->
    section ∈ node_children ac ->
    child ∈ node_children section ->
    preferred child = Some ip ->
    0 <= fst (ni_address_parse old ip AF_UNSPEC).

Lemma addrconf_loop_ok children : forall ac log,
  (forall section child ip old,
     section ∈ children -> child ∈ node_children section ->
     preferred child = Some ip -> 0 <= fst (ni_address_parse old ip AF_UNSPEC)) ->
  exists s, addrconf_loop ac log children = Next s.
Proof.
  induction children as [|section rest IH]; intros ac log Hok; simpl; [eauto|].
  assert (Hchild : exists s, addrconf_child ac log section = Next s).
  { unfold addrconf_child, ni_config_parse_update_targets.
    destruct (streq (node_name section) "default-allow-update").
    - destruct (update_targets_loop _ log (node_children section)) as [m l]. simpl.
      destruct (streq (node_name section) "dhcp"); [|eauto].
      match goal with |- context [ni_config_parse_addrconf_dhcp ?d ?l ?n] =>
        pose proof (dhcp_parse_accepted d l n
                      (fun child ip old Hin Hip =>
                         Hok section child ip old (list_elem_of_here _ _) Hin Hip))
          as Hgood;
        destruct (ni_config_parse_addrconf_dhcp d l n) as [[rc d'] l']
      end.
      simpl in Hgood. subst rc. simpl. eauto.
    - destruct (streq (node_name section) "dhcp"); [|eauto].
      match goal with |- context [ni_config_parse_addrconf_dhcp ?d ?l ?n] =>
        pose proof (dhcp_parse_accepted d l n
                      (fun child ip old Hin Hip =>
                         Hok section child ip old (list_elem_of_here _ _) Hin Hip))
          as Hgood;
        destruct (ni_config_parse_addrconf_dhcp d l n) as [[rc d'] l']
      end.
      simpl in Hgood. subst rc. simpl. eauto. }
  destruct Hchild as [[ac1 log1] ->]. apply IH.
  intros s c ip old Hin. apply Hok. by apply list_elem_of_further.
Qed.

(** The load succeeds whenever nothing stands in its way: if the document
    can be read and has a [<config>] element, the addresses of the preferred
    servers are accepted and no category holds a faulty extension, then
    [ni_config_parse] returns a configuration, which is the one object it has
    allocated. *)
Theorem config_load_succeeds
    (filename : string) (e : effects) (root node : xml_node_t) :
  xml_document_read filename = Some root ->
  xml_node_get_child root "config" = Some node ->
  addresses_accepted node ->
  category_is_faulty (Some ni_addrconf_name_to_type) node "addrconf" = false ->
  category_is_faulty (Some ni_linktype_name_to_type) node "linktype" = false ->
  category_is_faulty None node "api" = false ->
  exists conf,
    fst (ni_config_parse filename e) = Some conf
    /\ live_configs (snd (ni_config_parse filename e)) = S (live_configs e).
Proof.
  intros Hread Hconfig Haddr Hf1 Hf2 Hf3. unfold ni_config_parse.
  rewrite Hread, Hconfig.
  pose proof (parse_afinfo_rc (ipv4 ni_config_new) "ipv4" node) as Hrc1.
  pose proof (parse_afinfo_rc (ipv6 ni_config_new) "ipv6" node) as Hrc2.
  destruct (ni_config_parse_afinfo (ipv4 ni_config_new) "ipv4" node) as [rc1 ipv4'].
  destruct (ni_config_parse_afinfo (ipv6 ni_config_new) "ipv6" node) as [rc2 ipv6'].
  match goal with |- context [ni_config_parse_fslocation ?f "pidfile" node] =>
    pose proof (parse_fslocation_rc f "pidfile" node) as Hrc3;
    destruct (ni_config_parse_fslocation f "pidfile" node) as [rc3 pidfile']
  end.
  match goal with |- context [ni_config_parse_fslocation ?f "socket" node] =>
    pose proof (parse_fslocation_rc f "socket" node) as Hrc4;
    destruct (ni_config_parse_fslocation f "socket" node) as [rc4 socket']
  end.
  simpl in Hrc1, Hrc2, Hrc3, Hrc4. subst rc1 rc2 rc3 rc4. cbn [Z.ltb Z.compare orb].
  destruct (match xml_node_get_child node "backend" with
            | Some child => _
            | None => _
            end) as [syntax syntax_path].
  assert (Hloop : exists s,
            match xml_node_get_child node "addrconf" with
            | Some child =>
                addrconf_loop (addrconf ni_config_new) (log (config_allocated e))
                  (node_children child)
            | None => Next (addrconf ni_config_new, log (config_allocated e))
            end = Next s).
  { destruct (xml_node_get_child node "addrconf") as [ac|] eqn:Hac; [|eauto].
    apply addrconf_loop_ok. intros section child ip old.
    by apply (Haddr ac). }
  destruct Hloop as [[ac l] ->].
  match goal with |- context [ni_config_parse_extensions ?x l node "addrconf" ?m] =>
    pose proof (parse_extensions_ok x l node "addrconf" m Hf1) as Hrc5;
    destruct (ni_config_parse_extensions x l node "addrconf" m) as [[rc5 exts1] l1]
  end.
  simpl in Hrc5. subst rc5. cbn [Z.ltb Z.compare].
  match goal with |- context [ni_config_parse_extensions ?x l1 node "linktype" ?m] =>
    pose proof (parse_extensions_ok x l1 node "linktype" m Hf2) as Hrc6;
    destruct (ni_config_parse_extensions x l1 node "linktype" m) as [[rc6 exts2] l2]
  end.
  simpl in Hrc6. subst rc6. cbn [Z.ltb Z.compare].
  match goal with |- context [ni_config_parse_extensions ?x l2 node "api" ?m] =>
    pose proof (parse_extensions_ok x l2 node "api" m Hf3) as Hrc7;
    destruct (ni_config_parse_extensions x l2 node "api" m) as [[rc7 exts3] l3]
  end.
  simpl in Hrc7. subst rc7. cbn [Z.ltb Z.compare].
  eexists. split; [reflexivity|]. simpl.
  by rewrite register_api_extensions_live.
Qed.

End WholeLoad.

(** A configuration with an update mask, a preferred DHCP server whose
    weight is above the limit, and one extension. *)
Definition loadable_config : xml_node_t :=
  element "config" []
    [element "addrconf" []
       [element "default-allow-update" [] [element "hostname" [] []];
        element "dhcp" []
          [element "prefer-server" [("ip", "10.0.0.1"); ("weight", "150")] []]];
     element "api" []
       [element "extension" [("name", "com.suse.Wicked.Foo")]
          [element "action" [("name", "bar"); ("command", "/bin/true")] []]]].

Definition loadable_document : xml_node_t :=
  element "document" [] [loadable_config].

Lemma loaded_config_guarantees_witness :
  match fst (ni_config_parse (ext := demo_externals (Some loadable_document))
               "config.xml" fresh_effects) with
  | Some conf =>
      family (ipv4 conf) = AF_INET
      /\ family (ipv6 conf) = AF_INET6
      /\ recv_max conf = 65536
      /\ ibft_allow_update (addrconf conf) = UINT_MAX
      /\ autoip_allow_update (addrconf conf) = UINT_MAX
      /\ (num_preferred_servers (dhcp (addrconf conf)) <= 2)%nat
      /\ Forall (bounded (ext := demo_externals (Some loadable_document)))
           (preferred_server (dhcp (addrconf conf)))
  | None => False
  end.
Proof.
  destruct (ni_config_parse (ext := demo_externals (Some loadable_document))
              "config.xml" fresh_effects) as [[conf|] e'] eqn:Hparse.
  - destruct (loaded_config_guarantees
                (ext := demo_externals (Some loadable_document))
                "config.xml" fresh_effects e' conf 1 1 0 Hparse)
      as (H1 & H2 & H3 & H4 & H5 & _ & H7 & H8).
    simpl. auto 10.
  - vm_compute in Hparse. discriminate.
Defined.

Lemma config_load_succeeds_witness :
  exists conf,
    fst (ni_config_parse (ext := demo_externals (Some loadable_document))
           "config.xml" fresh_effects) = Some conf
    /\ live_configs
         (snd (ni_config_parse (ext := demo_externals (Some loadable_document))
                 "config.xml" fresh_effects)) = 1%nat.
Proof.
  apply (config_load_succeeds (ext := demo_externals (Some loadable_document))
           "config.xml" fresh_effects loadable_document loadable_config
           eq_refl eq_refl);
    [|reflexivity|reflexivity|reflexivity].
  intros ac section child ip old Hac Hsection Hchild Hip.
  vm_compute in Hac. injection Hac as <-.
  simpl in Hsection.
  repeat (apply elem_of_cons in Hsection as [->|Hsection]);
    try (by apply elem_of_nil in Hsection);
    simpl in Hchild;
    repeat (apply elem_of_cons in Hchild as [->|Hchild]);
    try (by apply elem_of_nil in Hchild).
  all: vm_compute in Hip; try discriminate.
  injection Hip as <-. vm_compute. discriminate.
Defined.

End ConfigCoverage.
